(** * One-to-many sync tool: a model of [ui_copy_tool.py] and its properties

    The development embeds the sync engine of [ui_copy_tool.py]
    ([files_are_identical], [count_total_files], [copy_recursively],
    [ensure_path_mapped] and [CopyApp.start_copy]) as executable Rocq
    functions over an explicit world: the file system a run writes to is a
    finite map from paths to nodes, without symbolic links; the source is
    given as the tree that [os.walk] finds at the source root; and every
    logging call, dialog and progress callback is recorded in a trace of
    events.  The host manager and the machine list of the main window are
    embedded over a dictionary that keeps the order of its keys. *)

From Stdlib Require Import ZArith QArith Qabs Qround.
From stdpp Require Import gmap strings list fin_maps.
From Stdlib Require Import Ascii String.

Local Open Scope string_scope.
Local Open Scope list_scope.
Local Open Scope Z_scope.

Set Default Proof Using "Type".
#[local] Set Warnings "-register-all".

(** * Part I: the model *)

(** ** Strings: [str.lower] and [str.endswith]

    A [str] is represented by its UTF-8 encoding.  A text of ASCII
    characters is its own encoding; no encoding of a character occurs
    inside or across the encodings of other characters, so equality and
    the tests for a prefix or a suffix on the encodings are those on the
    texts. *)

(** A text of ASCII characters. *)
Definition is_ascii_char (c : ascii) : bool := (nat_of_ascii c <? 128)%nat.

Fixpoint is_ascii (s : string) : bool :=
  match s with
  | EmptyString => true
  | String c s' => is_ascii_char c && is_ascii s'
  end.

(** [str.lower()] on a text of ASCII characters: the letters A-Z are
    lowered and every other character is left as it is. *)
Definition lower_ascii (c : ascii) : ascii :=
  let n := nat_of_ascii c in
  if ((65 <=? n)%nat && (n <=? 90)%nat)%bool then ascii_of_nat (n + 32)%nat else c.

Fixpoint ascii_lower (s : string) : string :=
  match s with
  | EmptyString => EmptyString
  | String c s' => String (lower_ascii c) (ascii_lower s')
  end.

(** [s.endswith(suffix)]: [s] is the suffix itself, or its tail ends with it. *)
Fixpoint endswith (s suffix : string) : bool :=
  if String.eqb s suffix then true
  else match s with
       | EmptyString => false
       | String _ s' => endswith s' suffix
       end.

(** ** File metadata *)

(** The two fields of [os.stat_result] the tool reads.  [st_mtime] is a
    Python float, that is a rational number of seconds. *)
Record stat_result := mk_stat { st_size : Z; st_mtime : Q }.

(** Python's [int(x)] on a float: truncation toward zero. *)
Definition int_of_float (x : Q) : Z := Z.quot (Qnum x) (Z.pos (Qden x)).

(** [files_are_identical]: each argument is the result of [Path.stat()],
    [None] when the call raises [FileNotFoundError]. *)
Definition files_are_identical (src_file dst_file : option stat_result) : bool :=
  match src_file, dst_file with
  | Some s, Some d =>
      (st_size s =? st_size d) &&
      (int_of_float (st_mtime s) =? int_of_float (st_mtime d))
  | _, _ => false
  end.

(** ** The destination file system *)

Abbreviation path := (list string).

Inductive node :=
| NDir (st : stat_result)
| NFile (st : stat_result).

Abbreviation filesystem := (gmap path node).

Definition node_stat (n : node) : stat_result :=
  match n with NDir st => st | NFile st => st end.

(** [Path.stat()]. *)
Definition stat (fs : filesystem) (p : path) : option stat_result :=
  node_stat <$> fs !! p.

(** [Path.exists()] and [os.path.exists]; the root [[]] always exists. *)
Definition exists_ (fs : filesystem) (p : path) : bool :=
  match p with
  | [] => true
  | _ => match fs !! p with Some _ => true | None => false end
  end.

(** [Path.is_dir()] and [os.path.isdir]. *)
Definition is_dir (fs : filesystem) (p : path) : bool :=
  match p with
  | [] => true
  | _ => match fs !! p with Some (NDir _) => true | _ => false end
  end.

(** [Path.parent] and [os.path.basename]. *)
Definition parent (p : path) : path := removelast p.
Definition basename (p : path) : string := List.last p "".

(** The ancestors of [base / rest] strictly between [base] and the path
    itself, outermost first. *)
Fixpoint ancestors_from (base rest : path) : list path :=
  match rest with
  | [] => []
  | r :: rest' =>
      match rest' with
      | [] => []
      | _ => (base ++ [r]) :: ancestors_from (base ++ [r]) rest'
      end
  end.

Definition ancestors (p : path) : list path := ancestors_from [] p.

(** ** The source tree *)

(** What [os.walk] finds under the source root: a directory lists its
    files (with what [stat] returns for them) and its subdirectories;
    [Unreadable] is a directory whose [scandir] fails.

    The code walks the source twice in a run, and reads it while it writes
    to the destination.  Both walks find this one tree when the run writes
    nothing at or under the source root, and that is so when the source and
    the destination lie apart, neither root under the other
    ([copy_recursively_keeps_source] below).  A run whose destination lies
    in its source, or whose source lies in its destination, may visit what
    it wrote itself and is not described by one tree; the statements about
    the count of the first walk or about a second run assume the two
    apart. *)
Inductive dtree :=
| Unreadable
| Dir (files : list (string * stat_result)) (dirs : list (string * dtree)).

(** [os.walk(top)], top-down, with the default [onerror=None]: the error of
    a failing [scandir] is dropped and that directory yields nothing. *)
Fixpoint walk (top : path) (t : dtree)
  : list (path * list string * list (string * stat_result)) :=
  match t with
  | Unreadable => []
  | Dir files dirs =>
      (top, map fst dirs, files) ::
      (fix walk_dirs (ds : list (string * dtree)) :=
         match ds with
         | [] => []
         | (d, sub) :: ds' => walk (top ++ [d]) sub ++ walk_dirs ds'
         end) dirs
  end.

(** [count_total_files]. *)
Definition count_total_files (src : path) (t : dtree) : Z :=
  fold_left (fun total '(_, _, files) => total + Z.of_nat (List.length files))
            (walk src t) 0.

(** [Path.relative_to]: [None] stands for the [ValueError]. *)
Fixpoint relative_to (p other : path) {struct other} : option path :=
  match other with
  | [] => Some p
  | o :: other' =>
      match p with
      | [] => None
      | c :: p' => if String.eqb c o then relative_to p' other' else None
      end
  end.

(** ** Exceptions, events and the world *)

Inductive exn :=
| FileNotFoundError
| FileExistsError
| NotADirectoryError
| IsADirectoryError
| PermissionError
| OSError
| ValueError.

(** What a progress callback does to the progress bar. *)
Inductive widget_event :=
| SetProgress (current total : Z)
| ResetProgress.

(** Every observable action of the tool: one constructor per logging call
    and dialog of the source, one for each call of the progress callback and
    one for what happens to the progress bar.  A logging call is recorded
    whatever its level: [LogSkippedIdentical] is the [logger.debug] of line
    92, which the level set on line 30 keeps out of the log. *)
Inductive event :=
| LogSkippedIgnored (f : string)
| LogCopied (src_file dst_file : path)
| LogSkippedIdentical (src_file : path)
| LogErrorCopying (src_file dst_file : path) (e : exn)
| ProgressCallback (copied total_files : Z)
| Widget (e : widget_event)
| LogTryingToMap (share_path : path)
| ShowErrorCredentials
| LogMapped (share_path : path)
| LogMapFailed (share_path : path) (stderr : string)
| LogNetUseException (e : exn)
| LogMustMountManually (share_path : path) (system : string)
| ShowErrorSourceInvalid
| ShowErrorNoDestination
| LogCannotAccess (dst_base : path)
| ShowErrorMappingFailed (dst_base : path)
| LogStartingSync (name : string) (dst_base : path)
| LogCompletedSync (name : string)
| LogErrorCopyingTo (dst_base : path) (e : exn)
| ShowErrorCopyFailed (name : string) (e : exn)
| ShowInfoDone.

(** What the tool cannot decide by itself: the operating system, the user
    at the credential dialogs, the [net use] command, the I/O faults of
    the destination (permission, disk full, device gone), and the case
    mapping of the Unicode database the interpreter ships, which
    [str.lower()] applies to a text with characters beyond ASCII. *)
Record environment := mk_env {
  platform_system : string;
  ask_username : path -> option string;
  ask_password : option string -> option string;
  net_use : path -> string -> string -> filesystem -> (exn + Z * string) * filesystem;
  mkdir_fault : path -> option exn;
  copy_fault : path -> option exn;
  new_dir_stat : stat_result;
  unicode_lower : string -> string
}.

(** [s.lower()], for every text: a text of ASCII characters is lowered
    letter by letter, any other text by the Unicode tables. *)
Definition lower (env : environment) (s : string) : string :=
  if is_ascii s then ascii_lower s else unicode_lower env s.

(** The test of lines 80-82:
    [ignored_exts and any(f.lower().endswith(ext.lower()) for ext in ignored_exts)].
    [None] and the empty list are both falsy. *)
Definition is_ignored (env : environment) (ignored_exts : option (list string))
    (f : string) : bool :=
  match ignored_exts with
  | None => false
  | Some [] => false
  | Some exts => existsb (fun ext => endswith (lower env f) (lower env ext)) exts
  end.

(** ** A monad for state, exceptions and the trace of events *)

Inductive result (A : Type) :=
| Ok (a : A)
| Raised (e : exn).
Arguments Ok {A} a.
Arguments Raised {A} e.

(** A computation reads the destination file system and yields a value or
    an exception, the file system it leaves and the events it emitted.  The
    effects that precede an exception stay. *)
Definition M (A : Type) : Type := filesystem -> result A * filesystem * list event.

Definition ret {A} (a : A) : M A := fun fs => (Ok a, fs, []).

Definition bind {A B} (m : M A) (k : A -> M B) : M B :=
  fun fs => match m fs with
            | (Ok a, fs', es) =>
                match k a fs' with
                | (r, fs'', es') => (r, fs'', es ++ es')
                end
            | (Raised e, fs', es) => (Raised e, fs', es)
            end.

Definition raise {A} (e : exn) : M A := fun fs => (Raised e, fs, []).

(** [try: m  except Exception as e: handler e]. *)
Definition try_except {A} (m : M A) (handler : exn -> M A) : M A :=
  fun fs => match m fs with
            | (Ok a, fs', es) => (Ok a, fs', es)
            | (Raised e, fs', es) =>
                match handler e fs' with
                | (r, fs'', es') => (r, fs'', es ++ es')
                end
            end.

Definition get_fs : M filesystem := fun fs => (Ok fs, fs, []).

Definition put_fs (fs : filesystem) : M unit := fun _ => (Ok tt, fs, []).

Definition emit (e : event) : M unit := fun fs => (Ok tt, fs, [e]).

Definition emit_all (es : list event) : M unit := fun fs => (Ok tt, fs, es).

Declare Scope monad_scope.
Delimit Scope monad_scope with monad.
Notation "'do' x <- m ; k" := (bind m (fun x => k))
  (at level 10, x name, m at level 100, k at level 200) : monad_scope.
Notation "'run' m ; k" := (bind m (fun _ => k))
  (at level 10, m at level 100, k at level 200) : monad_scope.
Local Open Scope monad_scope.

(** A [for] loop with an accumulator for the local variables it updates;
    an exception leaves the loop. *)
Fixpoint foldM {A B} (body : B -> A -> M B) (l : list A) (b : B) : M B :=
  match l with
  | [] => ret b
  | a :: l' => do b' <- body b a; foldM body l' b'
  end.

Definition for_each {A} (l : list A) (body : A -> M unit) : M unit :=
  foldM (fun _ a => body a) l tt.

(** ** File operations on the destination *)

(** One [os.mkdir] on the way down: a directory that is there is kept, a
    file in the way raises [if_file], a missing directory is created unless
    the file system refuses. *)
Definition mkdir_one (env : environment) (if_file : exn) (p : path) : M unit :=
  do fs <- get_fs;
  match fs !! p with
  | Some (NDir _) => ret tt
  | Some (NFile _) => raise if_file
  | None =>
      match mkdir_fault env p with
      | Some e => raise e
      | None => put_fs (<[p := NDir (new_dir_stat env)]> fs)
      end
  end.

(** [p.mkdir(parents=True, exist_ok=True)]: missing ancestors are created
    outermost first, then the directory itself; an existing directory is
    not an error, an existing file is. *)
Definition mkdir_parents_exist_ok (env : environment) (p : path) : M unit :=
  match p with
  | [] => ret tt
  | _ => run for_each (ancestors p) (mkdir_one env NotADirectoryError);
         mkdir_one env FileExistsError p
  end.

(** [shutil.copy2(src_file, dst)]: a [dst] that is a directory receives the
    file under the source's base name; the parent of the target has to be a
    directory and the target must not be one; on success the target is a
    file with the size and the modification time of the source. *)
Definition shutil_copy2 (env : environment) (src_file : path) (st : stat_result)
    (dst : path) : M unit :=
  do fs <- get_fs;
  let target := if is_dir fs dst then dst ++ [basename src_file] else dst in
  if negb (is_dir fs (parent target)) then
    raise (if exists_ fs (parent target) then NotADirectoryError else FileNotFoundError)
  else if is_dir fs target then raise IsADirectoryError
  else match copy_fault env target with
       | Some e => raise e
       | None => put_fs (<[target := NFile st]> fs)
       end.

(** ** [copy_recursively] *)

(** The condition of line 88. *)
Definition needs_copy (fs : filesystem) (src_stat : option stat_result)
    (dst_file : path) : bool :=
  negb (exists_ fs dst_file) || negb (files_are_identical src_stat (stat fs dst_file)).

(** A progress callback observes its two arguments and acts on the
    progress bar; it neither raises nor touches the file system. *)
Definition callback : Type := Z -> Z -> list widget_event.

(** [if progress_callback: progress_callback(copied, total_files)]: the
    call and what the callee does. *)
Definition callback_events (progress_callback : option callback) (copied total : Z)
  : list event :=
  match progress_callback with
  | Some cb => ProgressCallback copied total :: map Widget (cb copied total)
  | None => []
  end.

(** The body of the loop over [files] (lines 80-98); the result is the
    new value of the local counter [copied]. *)
Definition process_file (env : environment) (progress_callback : option callback)
    (root dst_root : path) (ignored_exts : option (list string)) (total_files : Z)
    (copied : Z) (file : string * stat_result) : M Z :=
  let '(f, st) := file in
  if is_ignored env ignored_exts f then
    run emit (LogSkippedIgnored f);
    ret copied
  else
    let src_file := root ++ [f] in
    let dst_file := dst_root ++ [f] in
    run try_except
          (do fs <- get_fs;
           if needs_copy fs (Some st) dst_file then
             run shutil_copy2 env src_file st dst_file;
             emit (LogCopied src_file dst_file)
           else emit (LogSkippedIdentical src_file))
          (fun e => emit (LogErrorCopying src_file dst_file e));
    let copied := copied + 1 in
    run emit_all (callback_events progress_callback copied total_files);
    ret copied.

(** The body of the loop over [os.walk(src)] (lines 73-98). *)
Definition visit (env : environment) (progress_callback : option callback)
    (src dst : path) (ignored_exts : option (list string)) (total_files : Z)
    (copied : Z) (entry : path * list string * list (string * stat_result)) : M Z :=
  let '(root, dirs, files) := entry in
  match relative_to root src with
  | None => raise ValueError
  | Some rel_root =>
      let dst_root := dst ++ rel_root in
      run for_each dirs (fun d => mkdir_parents_exist_ok env (dst_root ++ [d]));
      foldM (process_file env progress_callback root dst_root ignored_exts total_files)
            files copied
  end.

(** [copy_recursively(src, dst, ignored_exts, progress_callback)], where
    [t] is the tree the two calls of [os.walk(src)] find. *)
Definition copy_recursively (env : environment) (src : path) (t : dtree) (dst : path)
    (ignored_exts : option (list string)) (progress_callback : option callback)
    : M unit :=
  let total_files := count_total_files src t in
  run foldM (visit env progress_callback src dst ignored_exts total_files)
            (walk src t) 0;
  ret tt.

(** ** [ensure_path_mapped] *)

(** Python's truthiness of an optional string: [None] and [""] are falsy. *)
Definition truthy (s : option string) : bool :=
  match s with
  | None => false
  | Some s => negb (String.eqb s "")
  end.

(** [subprocess.run(["net", "use", ...])]: the command may change what is
    visible in the file system. *)
Definition subprocess_run (env : environment) (share_path : path)
    (password username : string) : M (Z * string) :=
  fun fs =>
    match net_use env share_path password username fs with
    | (inl e, fs') => (Raised e, fs', [])
    | (inr r, fs') => (Ok r, fs', [])
    end.

(** The Windows branch (lines 110-133); [Some b] is a [return b], [None]
    falls through to the last line of the function. *)
Definition map_windows_share (env : environment) (share_path : path) : M (option bool) :=
  run emit (LogTryingToMap share_path);
  let username := ask_username env share_path in
  let password := ask_password env username in
  if negb (truthy username) || negb (truthy password) then
    run emit ShowErrorCredentials;
    ret (Some false)
  else
    try_except
      (do r <- subprocess_run env share_path (default "" password) (default "" username);
       if fst r =? 0 then
         run emit (LogMapped share_path);
         ret (Some true)
       else
         run emit (LogMapFailed share_path (snd r));
         ret None)
      (fun e => run emit (LogNetUseException e); ret None).

Definition ensure_path_mapped (env : environment) (share_path : path)
    (host_type : string) : M bool :=
  do fs <- get_fs;
  if String.eqb host_type "local" then ret (exists_ fs share_path)
  else if exists_ fs share_path then ret true
  else
    let system := platform_system env in
    do returned <-
      (if String.eqb system "Windows" then map_windows_share env share_path
       else if String.eqb system "Linux" || String.eqb system "Darwin" then
         run emit (LogMustMountManually share_path system);
         ret None
       else ret None);
    match returned with
    | Some b => ret b
    | None => do fs' <- get_fs; ret (exists_ fs' share_path)
    end.

(** ** [CopyApp] *)

(** An entry of [machine_vars]: the name, the state of the check box, the
    path and the host type. *)
Record machine := mk_machine {
  m_name : string;
  m_var : bool;
  m_path : path;
  m_htype : string
}.

Record CopyApp := mk_app {
  source_path : option path;
  machine_vars : list machine;
  ignored_extensions : list string
}.

(** [CopyApp.update_progress]; the bar is set to [int(current / total * 100)]. *)
Definition update_progress : callback :=
  fun current total => if total =? 0 then [] else [SetProgress current total].

(** The body of the loop over the selected machines (lines 332-344). *)
Definition sync_machine (env : environment) (src : path) (t : dtree)
    (ignored_exts : list string) (m : machine) : M unit :=
  let name := m_name m in
  let dst_base := m_path m in
  do reachable <- ensure_path_mapped env dst_base (m_htype m);
  if negb reachable then
    run emit (LogCannotAccess dst_base);
    emit (ShowErrorMappingFailed dst_base)
  else
    try_except
      (run emit (Widget ResetProgress);
       run emit (LogStartingSync name dst_base);
       run copy_recursively env src t dst_base (Some ignored_exts) (Some update_progress);
       emit (LogCompletedSync name))
      (fun e =>
         run emit (LogErrorCopyingTo dst_base e);
         emit (ShowErrorCopyFailed name e)).

(** [CopyApp.start_copy]; [disk] is what [source_path] designates, [None]
    when nothing exists there. *)
Definition start_copy (env : environment) (app : CopyApp) (disk : option dtree) : M unit :=
  match source_path app, disk with
  | Some src, Some t =>
      let selected := List.filter m_var (machine_vars app) in
      match selected with
      | [] => emit ShowErrorNoDestination
      | _ =>
          run for_each selected (sync_machine env src t (ignored_extensions app));
          run emit ShowInfoDone;
          emit (Widget ResetProgress)
      end
  | _, _ => emit ShowErrorSourceInvalid
  end.

(** ** More of [str]: [strip], [startswith] and [split] *)

(** The characters of a text, each in its encoding: a byte [10xxxxxx]
    continues the character before it, every other byte starts one.
    [split_chars] gives the continuation bytes that precede the first
    character, and the characters. *)
Definition is_continuation (c : ascii) : bool :=
  let n := nat_of_ascii c in ((128 <=? n) && (n <? 192))%nat.

Fixpoint split_chars (s : string) : string * list string :=
  match s with
  | EmptyString => (EmptyString, [])
  | String c s' =>
      let '(k, l) := split_chars s' in
      if is_continuation c then (String c k, l) else (EmptyString, String c k :: l)
  end.

Definition chars (s : string) : list string :=
  let '(k, l) := split_chars s in
  match k with
  | EmptyString => l
  | _ => k :: l
  end.

Definition join (l : list string) : string := fold_right append EmptyString l.

(** The code point of a character: the bits of its first byte, then six
    bits of each byte that follows. *)
Definition lead_bits (c : ascii) : Z :=
  let n := Z.of_nat (nat_of_ascii c) in
  if n <? 128 then n
  else if n <? 192 then n mod 64
  else if n <? 224 then n mod 32
  else if n <? 240 then n mod 16
  else n mod 8.

Fixpoint continue_bits (acc : Z) (k : string) : Z :=
  match k with
  | EmptyString => acc
  | String c k' => continue_bits (acc * 64 + Z.of_nat (nat_of_ascii c) mod 64) k'
  end.

Definition code_point (c : string) : Z :=
  match c with
  | EmptyString => 0
  | String a k => continue_bits (lead_bits a) k
  end.

(** The characters [str.isspace] accepts and [str.strip()] removes: U+0009
    to U+000D, U+001C to U+0020, U+0085, U+00A0, U+1680, U+2000 to U+200A,
    U+2028, U+2029, U+202F, U+205F and U+3000. *)
Definition whitespace : list Z :=
  [9; 10; 11; 12; 13; 28; 29; 30; 31; 32; 133; 160; 5760;
   8192; 8193; 8194; 8195; 8196; 8197; 8198; 8199; 8200; 8201; 8202;
   8232; 8233; 8239; 8287; 12288].

Definition is_space (c : string) : bool :=
  existsb (Z.eqb (code_point c)) whitespace.

(** The white space is removed from the left end and from the right end. *)
Fixpoint lstrip (l : list string) : list string :=
  match l with
  | [] => []
  | c :: l' => if is_space c then lstrip l' else l
  end.

Definition rstrip (l : list string) : list string := rev (lstrip (rev l)).

(** [s.strip()]. *)
Definition strip (s : string) : string := join (lstrip (rstrip (chars s))).

(** [s.startswith(pre)]. *)
Fixpoint startswith (s pre : string) {struct pre} : bool :=
  match pre with
  | EmptyString => true
  | String a pre' =>
      match s with
      | EmptyString => false
      | String b s' => Ascii.eqb a b && startswith s' pre'
      end
  end.

(** [s.split(sep)[0]] for a separator that is not empty: what precedes the
    first occurrence of [sep], all of [s] when there is none. *)
Fixpoint before_sep (sep s : string) : string :=
  if startswith s sep then EmptyString
  else match s with
       | EmptyString => EmptyString
       | String c s' => String c (before_sep sep s')
       end.

(** ** The dictionary [machine_vars] *)

(** A value of [machine_vars] with its key: the name, the state of the
    [BooleanVar], the path as it was typed or read, and the host type. *)
Record host := mk_host {
  h_name : string;
  h_var : bool;
  h_path : string;
  h_htype : string
}.

(** A Python [dict] keeps its keys in the order they were first inserted
    and holds each key once. *)
Definition dict_mem (name : string) (d : list host) : bool :=
  existsb (fun h => String.eqb (h_name h) name) d.

(** [d[name] = value]: the value of a key that is there is replaced in
    place, a new key goes to the end. *)
Fixpoint dict_set (h : host) (d : list host) : list host :=
  match d with
  | [] => [h]
  | h' :: d' =>
      if String.eqb (h_name h') (h_name h) then h :: d' else h' :: dict_set h d'
  end.

(** [del d[name]]. *)
Definition dict_del (name : string) (d : list host) : list host :=
  List.filter (fun h => negb (String.eqb (h_name h) name)) d.

(** ** The machine list on disk *)

(** An object of [machine_list.json]; a key may be absent, and the values
    that are there are strings. *)
Record json_machine := mk_json {
  j_name : option string;
  j_path : option string;
  j_type : option string
}.

(** What [json.load] gives for [MACHINE_LIST_FILE]: [None] when [open] or
    the parser raises, as for a file that is missing, empty or cut short;
    otherwise a list of objects whose values are strings. *)
Definition machine_list_file : Type := option (list json_machine).

Inductive key_error := KeyError (key : string).

(** What the dialogs of the two windows log and show. *)
Inductive dialog_event :=
| ShowErrorNameAndPathRequired
| ShowErrorNameExists
| LogUpdatedMachineList
| LogFailedToSave (e : exn)
| ShowErrorFailedToSave (e : exn)
| LogFailedToLoad.

(** ** [HostManager] *)

Record HostManager := mk_hm {
  hm_machine_vars : list host;
  hm_listbox : list string;
  hm_name_entry : string;
  hm_path_entry : string;
  hm_type_var : string;
  hm_modified : bool;
  hm_destroyed : bool
}.

(** The line of the list box for a host. *)
Definition line_of (h : host) : string :=
  (h_name h ++ " | " ++ h_path h ++ " | " ++ h_htype h)%string.

(** [HostManager.load_existing]. *)
Definition load_existing (machine_vars : list host) : list string :=
  map line_of machine_vars.

(** [HostManager.__init__]: the window works on the dictionary it is given,
    not on a copy. *)
Definition HostManager_init (machine_vars : list host) : HostManager :=
  mk_hm machine_vars (load_existing machine_vars) "" "" "smb" false false.

(** [HostManager.add_host]. *)
Definition add_host (hm : HostManager) : HostManager * list dialog_event :=
  let name := strip (hm_name_entry hm) in
  let path := strip (hm_path_entry hm) in
  let htype := strip (hm_type_var hm) in
  if String.eqb name "" || String.eqb path "" then
    (hm, [ShowErrorNameAndPathRequired])
  else if dict_mem name (hm_machine_vars hm) then
    (hm, [ShowErrorNameExists])
  else
    let h := mk_host name false path htype in
    (mk_hm (dict_set h (hm_machine_vars hm))
           (hm_listbox hm ++ [line_of h])
           "" "" "smb" true (hm_destroyed hm), []).

(** [HostManager.remove_selected]; [sel] is [curselection()]. *)
Definition remove_selected (sel : list nat) (hm : HostManager) : HostManager :=
  match sel with
  | [] => hm
  | i :: _ =>
      let line := nth i (hm_listbox hm) "" in
      let name := before_sep " | " line in
      let machine_vars :=
        if dict_mem name (hm_machine_vars hm) then dict_del name (hm_machine_vars hm)
        else hm_machine_vars hm in
      mk_hm machine_vars (delete i (hm_listbox hm))
            (hm_name_entry hm) (hm_path_entry hm) (hm_type_var hm)
            true (hm_destroyed hm)
  end.

(** The list written by [save_and_close]. *)
Definition json_of_host (h : host) : json_machine :=
  mk_json (Some (h_name h)) (Some (h_path h)) (Some (h_htype h)).

(** How the [with] block of lines 219-220 can fail.  [open(..., "w")]
    raises and the file stays as it was; or the file is opened, which
    empties it, and [json.dump] or the closing of the file raises: the file
    then holds a part of the new text, which no parser accepts, or - when
    only the closing failed - all of it. *)
Inductive save_fault :=
| OpenRaises (e : exn)
| WriteRaises (e : exn) (complete : bool).

Definition fault_exn (fault : save_fault) : exn :=
  match fault with
  | OpenRaises e => e
  | WriteRaises e _ => e
  end.

(** [HostManager.save_and_close]; [fault] is what goes wrong in the [with]
    block, if anything does. *)
Definition save_and_close (fault : option save_fault) (hm : HostManager)
    (file : machine_list_file)
  : HostManager * machine_list_file * list dialog_event :=
  let destroyed :=
    mk_hm (hm_machine_vars hm) (hm_listbox hm) (hm_name_entry hm) (hm_path_entry hm)
          (hm_type_var hm) (hm_modified hm) true in
  let new_list := map json_of_host (hm_machine_vars hm) in
  if hm_modified hm then
    match fault with
    | None => (destroyed, Some new_list, [LogUpdatedMachineList])
    | Some f =>
        let left :=
          match f with
          | OpenRaises _ => file
          | WriteRaises _ complete => if complete then Some new_list else None
          end in
        (hm, left, [LogFailedToSave (fault_exn f); ShowErrorFailedToSave (fault_exn f)])
    end
  else (destroyed, file, []).

(** What the user does in the window until it is closed. *)
Inductive action :=
| TypeName (text : string)
| TypePath (text : string)
| ChooseType (text : string)
| ClickAddHost
| ClickRemoveSelected (sel : list nat)
| ClickSaveAndClose (fault : option save_fault)
| CloseWindow.

Definition do_action (a : action) (hm : HostManager) (file : machine_list_file)
  : HostManager * machine_list_file * list dialog_event :=
  match a with
  | TypeName text =>
      (mk_hm (hm_machine_vars hm) (hm_listbox hm) text (hm_path_entry hm)
             (hm_type_var hm) (hm_modified hm) (hm_destroyed hm), file, [])
  | TypePath text =>
      (mk_hm (hm_machine_vars hm) (hm_listbox hm) (hm_name_entry hm) text
             (hm_type_var hm) (hm_modified hm) (hm_destroyed hm), file, [])
  | ChooseType text =>
      (mk_hm (hm_machine_vars hm) (hm_listbox hm) (hm_name_entry hm) (hm_path_entry hm)
             text (hm_modified hm) (hm_destroyed hm), file, [])
  | ClickAddHost => let '(hm', es) := add_host hm in (hm', file, es)
  | ClickRemoveSelected sel => (remove_selected sel hm, file, [])
  | ClickSaveAndClose fault => save_and_close fault hm file
  | CloseWindow =>
      (mk_hm (hm_machine_vars hm) (hm_listbox hm) (hm_name_entry hm) (hm_path_entry hm)
             (hm_type_var hm) (hm_modified hm) true, file, [])
  end.

(** [wait_window]: the actions are served until the window is destroyed. *)
Fixpoint wait_window (actions : list action) (hm : HostManager) (file : machine_list_file)
  : HostManager * machine_list_file * list dialog_event :=
  match actions with
  | [] => (hm, file, [])
  | a :: actions' =>
      if hm_destroyed hm then (hm, file, [])
      else
        let '(hm1, file1, es1) := do_action a hm file in
        let '(hm2, file2, es2) := wait_window actions' hm1 file1 in
        (hm2, file2, es1 ++ es2)
  end.

(** ** The machine list of the main window *)

Record MainWindow := mk_window {
  w_machine_vars : list host;
  w_loaded_machines : list json_machine;
  w_checkbuttons : list string
}.

(** The three reads of the loop of [refresh_machine_list]. *)
Definition host_of_json (j : json_machine) : key_error + host :=
  match j_name j with
  | None => inl (KeyError "name")
  | Some name =>
      match j_path j with
      | None => inl (KeyError "path")
      | Some path => inr (mk_host name false path (default "smb" (j_type j)))
      end
  end.

Definition checkbutton_text (h : host) : string :=
  (h_name h ++ " (" ++ h_path h ++ ", type=" ++ h_htype h ++ ")")%string.

(** The loop of [refresh_machine_list] (lines 296-303); a [KeyError] leaves
    the loop with what was done so far. *)
Fixpoint add_machines (machines : list json_machine) (w : MainWindow)
  : option key_error * MainWindow :=
  match machines with
  | [] => (None, w)
  | j :: machines' =>
      match host_of_json j with
      | inl e => (Some e, w)
      | inr h =>
          add_machines machines'
            (mk_window (dict_set h (w_machine_vars w)) (w_loaded_machines w)
                       (w_checkbuttons w ++ [checkbutton_text h]))
      end
  end.

(** [CopyApp.refresh_machine_list]. *)
Definition refresh_machine_list (file : machine_list_file) (w : MainWindow)
  : option key_error * MainWindow * list dialog_event :=
  let '(machines, es) :=
    match file with
    | Some machines => (machines, [])
    | None => ([], [LogFailedToLoad])
    end in
  let '(r, w') := add_machines machines (mk_window [] machines []) in
  (r, w', es).

(** [CopyApp.open_host_manager]: the window is given [self.machine_vars]
    itself, and the list is read again from the file when it closes. *)
Definition open_host_manager (actions : list action) (w : MainWindow)
    (file : machine_list_file)
  : option key_error * MainWindow * machine_list_file * list dialog_event :=
  let '(hm, file', es) := wait_window actions (HostManager_init (w_machine_vars w)) file in
  let '(r, w', es') :=
    refresh_machine_list file'
      (mk_window (hm_machine_vars hm) (w_loaded_machines w) (w_checkbuttons w)) in
  (r, w', file', es ++ es').


(** * Part II: the vocabulary of the statements *)





(** The entries of the walk with roots relative to the source root. *)
Definition shift (top : path) (entry : path * list string * list (string * stat_result))
  : path * list string * list (string * stat_result) :=
  let '(rel, dirs, files) := entry in (top ++ rel, dirs, files).

(** The files of the source tree, by their path relative to its root. *)
Definition source_files (t : dtree) : list (path * stat_result) :=
  flat_map (fun '(rel, _, files) => map (fun '(f, st) => (rel ++ [f], st)) files)
           (walk [] t).

(** The subdirectories the walk lists, by their path relative to the root. *)
Definition source_dirs (t : dtree) : list path :=
  flat_map (fun '(rel, dirs, _) => map (fun d => rel ++ [d]) dirs) (walk [] t).

(** One run as the sequence of its primitive steps: the [mkdir] calls and
    the iterations of the loop over the files. *)
Inductive op :=
| OpMkdir (p : path)
| OpFile (root dst_root : path) (file : string * stat_result).

Definition run_op (env : environment) (progress_callback : option callback)
    (ignored_exts : option (list string)) (total_files : Z)
    (copied : Z) (o : op) : M Z :=
  match o with
  | OpMkdir p => run mkdir_parents_exist_ok env p; ret copied
  | OpFile root dst_root file =>
      process_file env progress_callback root dst_root ignored_exts total_files
                   copied file
  end.

Definition ops_of_entry (src dst : path)
    (entry : path * list string * list (string * stat_result)) : list op :=
  let '(rel, dirs, files) := entry in
  map (fun d => OpMkdir ((dst ++ rel) ++ [d])) dirs ++
  map (OpFile (src ++ rel) (dst ++ rel)) files.

Definition schedule (src dst : path) (t : dtree) : list op :=
  flat_map (ops_of_entry src dst) (walk [] t).

(** Directories are never removed nor changed. *)
Definition dirs_persist (fs fs' : filesystem) : Prop :=
  forall q st, fs !! q = Some (NDir st) -> fs' !! q = Some (NDir st).

(** The path and all its ancestors are directories. *)
Definition all_dirs (fs : filesystem) (p : path) : Prop :=
  Forall (fun q => exists st, fs !! q = Some (NDir st)) (ancestors p ++ [p]).

(** Every node but the top-level ones lies in a directory. *)
Definition fs_wf (fs : filesystem) : Prop :=
  map_Forall (fun p _ => is_dir fs (parent p) = true) fs.

(** What [shutil.copy2] writes to. *)
Definition copy_target (fs : filesystem) (src_file dst : path) : path :=
  if is_dir fs dst then dst ++ [basename src_file] else dst.

Definition is_copy_event (e : event) : bool :=
  match e with LogCopied _ _ => true | _ => false end.

Definition is_error_event (e : event) : bool :=
  match e with LogErrorCopying _ _ _ => true | _ => false end.

(** What one [mkdir] call leaves: nothing is logged, no node is removed or
    changed, every new node is a directory, and on success the path and all
    its ancestors are directories. *)
Definition mkdir_post (fs : filesystem) (r : result unit) (fs' : filesystem)
    (es : list event) (targets : list path) : Prop :=
  es = [] /\
  (forall q n, fs !! q = Some n -> fs' !! q = Some n) /\
  (forall q n, fs' !! q = Some n -> fs !! q = Some n \/ exists st, n = NDir st) /\
  (r = Ok tt -> Forall (fun q => exists st, fs' !! q = Some (NDir st)) targets).

(** The trace of a loop over [files] in which every copy fails with
    [FileNotFoundError]. *)
Fixpoint failed_copies (env : environment) (progress_callback : option callback)
    (root dst_root : path) (ignored_exts : option (list string)) (total_files copied : Z)
    (files : list (string * stat_result)) : list event :=
  match files with
  | [] => []
  | (f, st) :: files' =>
      if is_ignored env ignored_exts f then
        LogSkippedIgnored f ::
        failed_copies env progress_callback root dst_root ignored_exts total_files copied
                      files'
      else
        LogErrorCopying (root ++ [f]) (dst_root ++ [f]) FileNotFoundError ::
        callback_events progress_callback (copied + 1) total_files ++
        failed_copies env progress_callback root dst_root ignored_exts total_files
                      (copied + 1) files'
  end.

(** The counters of a summary, read off the trace. *)
Definition files_copied (es : list event) : nat :=
  List.length (List.filter is_copy_event es).

Definition errors (es : list event) : nat :=
  List.length (List.filter is_error_event es).

(** The destination holds at [p] something that [files_are_identical]
    accepts for a source file with metadata [st]. *)
Definition good (fs : filesystem) (p : path) (st : stat_result) : Prop :=
  exists n, fs !! p = Some n /\
            files_are_identical (Some st) (Some (node_stat n)) = true.

(** A step that a further run would find nothing to do for. *)
Definition settled (env : environment) (fs : filesystem) (exts : option (list string)) (o : op) : Prop :=
  match o with
  | OpMkdir p => all_dirs fs p
  | OpFile _ dst_root (f, st) =>
      is_ignored env exts f = true \/ good fs (dst_root ++ [f]) st
  end.

(** No two files of a run are written to one path with different metadata. *)
Definition one_file_per_path (ops : list op) : Prop :=
  forall r1 d1 f1 s1 r2 d2 f2 s2,
    In (OpFile r1 d1 (f1, s1)) ops -> In (OpFile r2 d2 (f2, s2)) ops ->
    d1 ++ [f1] = d2 ++ [f2] -> s1 = s2.

(** No file of a run that is not ignored has a directory where it is to be
    written. *)
Definition no_dir_in_the_way (env : environment) (exts : option (list string)) (ops : list op)
    (fs : filesystem) : Prop :=
  forall r d f s, In (OpFile r d (f, s)) ops -> is_ignored env exts f = false ->
                  is_dir fs (d ++ [f]) = false.

(** The arguments of the calls of the progress callback, in order. *)
Definition progress_calls (es : list event) : list (Z * Z) :=
  flat_map (fun e => match e with ProgressCallback c t => [(c, t)] | _ => [] end) es.

(** The files of a run that are not ignored. *)
Definition is_processed (env : environment) (exts : option (list string)) (o : op) : bool :=
  match o with
  | OpMkdir _ => false
  | OpFile _ _ (f, _) => negb (is_ignored env exts f)
  end.

Definition processed (env : environment) (exts : option (list string)) (ops : list op) : nat :=
  List.length (List.filter (is_processed env exts) ops).

(** The number of files of the source that are not ignored. *)
Definition not_ignored (env : environment) (exts : option (list string)) (file : path * stat_result) : bool :=
  negb (is_ignored env exts (basename (fst file))).

Definition files_decided (env : environment) (exts : option (list string)) (t : dtree) : nat :=
  List.length (List.filter (not_ignored env exts) (source_files t)).

(** The paths a run may have to create: the place of every subdirectory
    the walk lists, with its ancestors. *)
Definition dir_targets (dst : path) (t : dtree) : list path :=
  flat_map (fun p => ancestors (dst ++ p) ++ [dst ++ p]) (source_dirs t).

(** No file of the destination stands where a directory is to be. *)
Definition clear_for_dirs (fs : filesystem) (targets : list path) : Prop :=
  forall q st, In q targets -> fs !! q <> Some (NFile st).

(** No file of the source lies on the path of one of its directories, as
    in every real tree. *)
Definition no_name_clash (t : dtree) : Prop :=
  forall p st p', In (p, st) (source_files t) -> In p' (source_dirs t) ->
                  ~ p `prefix_of` p'.

(** Two paths neither of which lies under the other. *)
Definition unrelated (p q : path) : Prop :=
  ~ p `prefix_of` q /\ ~ q `prefix_of` p.



(** Nothing changes at the paths unrelated to [base]. *)
Definition untouched_outside (base : path) (fs fs' : filesystem) : Prop :=
  forall q, unrelated base q -> fs' !! q = fs !! q.

Definition is_identical_event (e : event) : bool :=
  match e with LogSkippedIdentical _ => true | _ => false end.

Definition is_ignored_event (e : event) : bool :=
  match e with LogSkippedIgnored _ => true | _ => false end.

Definition files_identical (es : list event) : nat :=
  List.length (List.filter is_identical_event es).

Definition files_ignored (es : list event) : nat :=
  List.length (List.filter is_ignored_event es).

(** What the log says about the names of the files: a record of a copy, of
    an identical file or of an error names a file that is not ignored, a
    record of an ignored file names one that is. *)
Definition event_respects_filter (env : environment) (exts : option (list string)) (e : event) : Prop :=
  match e with
  | LogCopied src_file _ => is_ignored env exts (basename src_file) = false
  | LogSkippedIdentical src_file => is_ignored env exts (basename src_file) = false
  | LogErrorCopying src_file _ _ => is_ignored env exts (basename src_file) = false
  | LogSkippedIgnored f => is_ignored env exts f = true
  | _ => True
  end.

(** The steps of a run that are files. *)
Definition is_file_op (o : op) : bool :=
  match o with OpMkdir _ => false | OpFile _ _ _ => true end.

Definition n_files (ops : list op) : nat := List.length (List.filter is_file_op ops).

(** Files are written only where they were: every file of [fs'] is a file
    of [fs] with the same metadata. *)
Definition no_file_written (fs fs' : filesystem) : Prop :=
  forall q st, fs' !! q = Some (NFile st) -> fs !! q = Some (NFile st).

(** A text made of white space only, or empty. *)
Definition blank (s : string) : bool := forallb is_space (chars s).

(** A text with a vertical bar in it. *)
Fixpoint has_bar (s : string) : bool :=
  match s with
  | EmptyString => false
  | String c s' => Ascii.eqb "|" c || has_bar s'
  end.

Definition names (d : list host) : list string := map h_name d.

(** The list box shows the dictionary, line by line. *)
Definition in_sync (hm : HostManager) : Prop :=
  hm_listbox hm = map line_of (hm_machine_vars hm).

(** A host as a refresh builds it: with a fresh, unchecked [BooleanVar]. *)
Definition unchecked (h : host) : host :=
  mk_host (h_name h) false (h_path h) (h_htype h).

(** A click that may open the machine list for writing: a click on Save
    and Close that meets no fault, or one that fails after the file was
    opened. *)
Definition opens_file (a : action) : bool :=
  match a with
  | ClickSaveAndClose None => true
  | ClickSaveAndClose (Some (WriteRaises _ _)) => true
  | _ => false
  end.

(** A session in which the machine list is never opened for writing. *)
Definition never_saved (actions : list action) : Prop :=
  Forall (fun a => opens_file a = false) actions.

(** What happens to one selected destination, from the file system [fs]
    the destinations before it left: it cannot be reached and is skipped;
    or [copy_recursively] runs on it to its end; or [copy_recursively]
    raises and the destination is given up.  The file system and the trace
    are those it leaves. *)
Inductive destination_run (env : environment) (src : path) (t : dtree)
    (exts : list string) (m : machine) (fs : filesystem)
  : filesystem -> list event -> Prop :=
| destination_skipped fs1 es1 :
    ensure_path_mapped env (m_path m) (m_htype m) fs = (Ok false, fs1, es1) ->
    destination_run env src t exts m fs fs1
      (es1 ++ [LogCannotAccess (m_path m); ShowErrorMappingFailed (m_path m)])
| destination_completed fs1 es1 fs2 es2 :
    ensure_path_mapped env (m_path m) (m_htype m) fs = (Ok true, fs1, es1) ->
    copy_recursively env src t (m_path m) (Some exts) (Some update_progress) fs1 =
      (Ok tt, fs2, es2) ->
    destination_run env src t exts m fs fs2
      (es1 ++ [Widget ResetProgress; LogStartingSync (m_name m) (m_path m)] ++
       es2 ++ [LogCompletedSync (m_name m)])
| destination_aborted fs1 es1 e fs2 es2 :
    ensure_path_mapped env (m_path m) (m_htype m) fs = (Ok true, fs1, es1) ->
    copy_recursively env src t (m_path m) (Some exts) (Some update_progress) fs1 =
      (Raised e, fs2, es2) ->
    destination_run env src t exts m fs fs2
      (es1 ++ [Widget ResetProgress; LogStartingSync (m_name m) (m_path m)] ++
       es2 ++ [LogErrorCopyingTo (m_path m) e; ShowErrorCopyFailed (m_name m) e]).

(** Every destination of a list has its run, in the order of the list,
    each from the file system the one before it left. *)
Inductive run_of_destinations (env : environment) (src : path) (t : dtree)
    (exts : list string) : list machine -> filesystem -> filesystem -> list event -> Prop :=
| run_of_none fs : run_of_destinations env src t exts [] fs fs []
| run_of_next m ms fs fs1 es1 fs' es' :
    destination_run env src t exts m fs fs1 es1 ->
    run_of_destinations env src t exts ms fs1 fs' es' ->
    run_of_destinations env src t exts (m :: ms) fs fs' (es1 ++ es').

(** Nothing changes at the source root and under it. *)
Definition source_kept (src : path) (fs fs' : filesystem) : Prop :=
  forall q, src `prefix_of` q -> fs' !! q = fs !! q.


(** * Part III: example worlds *)

(** The case mapping of the example worlds: that of the letters of ASCII
    and of Latin-1, U+00C0 to U+00DE without the multiplication sign
    U+00D7, whose encodings are the byte 195 and a byte from 128 to 158.
    The texts of the examples hold no other cased letter. *)
Fixpoint latin1_lower (s : string) : string :=
  match s with
  | EmptyString => EmptyString
  | String a rest =>
      match rest with
      | EmptyString => String (lower_ascii a) EmptyString
      | String b s' =>
          let n := nat_of_ascii b in
          if ((nat_of_ascii a =? 195) && (128 <=? n) && (n <=? 158) &&
              negb (n =? 151))%nat
          then String a (String (ascii_of_nat (n + 32)%nat) (latin1_lower s'))
          else String (lower_ascii a) (latin1_lower rest)
      end
  end.

(** An environment on Linux in which nobody answers the dialogs, [net use]
    fails and no I/O fault occurs. *)
Definition quiet_env : environment :=
  mk_env "Linux" (fun _ => None) (fun _ => None)
         (fun _ _ _ fs => (inr (2, "System error 53"), fs))
         (fun _ => None) (fun _ => None) (mk_stat 4096 0) latin1_lower.

(** Windows, a user who types credentials, and a [net use] that exits with
    status 0 although the share does not become visible. *)
Definition optimistic_env : environment :=
  mk_env "Windows" (fun _ => Some "DOMAIN\user") (fun _ => Some "secret")
         (fun _ _ _ fs => (inr (0, ""), fs))
         (fun _ => None) (fun _ => None) (mk_stat 4096 0) latin1_lower.

(** A destination that refuses the write of [a.txt]. *)
Definition refusing_env : environment :=
  mk_env "Linux" (fun _ => None) (fun _ => None)
         (fun _ _ _ fs => (inr (2, "System error 53"), fs))
         (fun _ => None)
         (fun p => if decide (p = ["mnt"; "a.txt"]) then Some PermissionError else None)
         (mk_stat 4096 0) latin1_lower.

(** A callback that does nothing. *)
Definition no_progress_bar : callback := fun _ _ => [].

Definition empty_mnt : filesystem := {[ ["mnt"] := NDir (mk_stat 4096 0) ]}.

(** A source with a file, an ignored file and an empty subdirectory. *)
Definition scenario_src : dtree :=
  Dir [("a.txt", mk_stat 10 (3 # 2)); ("b.tmp", mk_stat 5 (7 # 2))]
      [("empty", Dir [] [])].

Definition two_files : list (string * stat_result) :=
  [("a.txt", mk_stat 10 (3 # 2)); ("b.txt", mk_stat 7 (5 # 2))].

(** A destination holding an earlier copy of [a.txt], and the source file
    after its modification time moved from 10.9 s to 11.1 s. *)
Definition stale_copy : stat_result := mk_stat 10 (109 # 10).
Definition touched_source : stat_result := mk_stat 10 (111 # 10).
Definition stale_fs : filesystem :=
  {[ ["mnt"] := NDir (mk_stat 4096 0); ["mnt"; "a.txt"] := NFile stale_copy ]}.

(** A destination with a directory where the source has a file. *)
Definition clash_src : dtree := Dir [("a.txt", mk_stat 10 (3 # 2))] [].
Definition clash_fs : filesystem :=
  {[ ["mnt"] := NDir (mk_stat 4096 0); ["mnt"; "a.txt"] := NDir (mk_stat 4096 0) ]}.

(** A local folder in which a file stands where the source has a
    directory, and a second local folder. *)
Definition blocked_fs : filesystem :=
  {[ ["mnt"] := NDir (mk_stat 4096 0);
     ["mnt"; "empty"] := NFile (mk_stat 3 0);
     ["other"] := NDir (mk_stat 4096 0) ]}.

Definition after_blocked_run : filesystem :=
  snd (fst (copy_recursively quiet_env ["src"] scenario_src ["mnt"] (Some [".tmp"])
                             (Some update_progress) blocked_fs)).

(** The first run of the scenario into an empty folder, and what it
    leaves. *)
Definition first_run : result unit * filesystem * list event :=
  copy_recursively quiet_env ["src"] scenario_src ["mnt"] (Some [".tmp"])
                   (Some update_progress) empty_mnt.

Definition after_first_run : filesystem := snd (fst first_run).

(** Two destinations: a share that cannot be mapped and a local folder. *)
Definition lost_share : machine := mk_machine "A" true ["server"; "share"] "smb".
Definition local_folder : machine := mk_machine "B" true ["mnt"] "local".

Definition other_folder : machine := mk_machine "C" true ["other"] "local".

(** A share that is mapped on Windows ([net use] succeeds) but shows
    nothing yet. *)
Definition mapped_share : machine := mk_machine "S" true ["server"; "share"] "smb".

Definition two_machines_app : CopyApp :=
  mk_app (Some ["src"]) [lost_share; local_folder] [".tmp"].

(** An ignore list that holds the empty suffix. *)
Definition catch_all : list string := [".bak"; ""].

(** A network share looked for on Linux. *)
Definition share_on_linux : machine := mk_machine "L" true ["server"; "share"] "smb".

(** A copy made at 10.25 s and a source touched one second later. *)
Definition old_copy : stat_result := mk_stat 10 (41 # 4).
Definition later_source : stat_result := mk_stat 10 (45 # 4).
Definition old_fs : filesystem :=
  {[ ["mnt"] := NDir (mk_stat 4096 0); ["mnt"; "a.txt"] := NFile old_copy ]}.

(** Two hosts, the first of them checked, and the window that manages
    them. *)
Definition lab_hosts : list host :=
  [mk_host "lab1" true "/mnt/lab1" "local"; mk_host "nas" false "//nas/share" "smb"].

Definition lab_manager : HostManager := HostManager_init lab_hosts.

(** The same window after the user typed a name and a path, with white
    space around them. *)
Definition lab_manager_typed : HostManager :=
  mk_hm lab_hosts (load_existing lab_hosts) "  lab2 " " /mnt/lab2" "smb" false false.

(** The same window with only white space for the name. *)
Definition lab_manager_blank : HostManager :=
  mk_hm lab_hosts (load_existing lab_hosts) "   " "/mnt/lab2" "smb" false false.

(** U+00A0, the no-break space, in its encoding, and the window with a
    name made of a space, a no-break space and U+3000. *)
Definition nbsp : string := String (ascii_of_nat 194) (String (ascii_of_nat 160) "").

Definition ideographic_space : string :=
  String (ascii_of_nat 227) (String (ascii_of_nat 128) (String (ascii_of_nat 128) "")).

Definition lab_manager_nbsp : HostManager :=
  mk_hm lab_hosts (load_existing lab_hosts) (" " ++ nbsp ++ ideographic_space)
        "/mnt/lab2" "smb" false false.

(** A machine list with an entry that has no type and one that has no
    path. *)
Definition partial_file : machine_list_file :=
  Some [mk_json (Some "lab1") (Some "/mnt/lab1") None;
        mk_json (Some "nas") None (Some "smb");
        mk_json (Some "lab2") (Some "/mnt/lab2") (Some "local")].

(** The window before any machine list was read. *)
Definition blank_window : MainWindow := mk_window [] [] [].

(** The main window showing [lab_hosts], the file it was read from, and a
    user who adds a third host in the host manager. *)
Definition lab_window : MainWindow :=
  mk_window lab_hosts (map json_of_host lab_hosts) (map checkbutton_text lab_hosts).

Definition lab_file : machine_list_file := Some (map json_of_host lab_hosts).

Definition add_lab2 : list action :=
  [TypeName "  lab2 "; TypePath " /mnt/lab2"; ClickAddHost].

(** * Part IV: properties *)

(** ** Strings *)


Lemma is_ignored_Some env exts f :
  is_ignored env (Some exts) f =
  existsb (fun ext => endswith (lower env f) (lower env ext)) exts.
Proof. destruct exts; reflexivity. Qed.







(** Beyond ASCII the answer is that of the tables: with those of Latin-1,
    a name in capitals is ignored under the suffix in small letters, and
    a letter with an accent is not the letter without. *)
Example is_ignored_beyond_ascii :
  is_ignored quiet_env (Some [".éxt"]) "X.ÉXT" = true /\
  is_ignored quiet_env (Some [".ÉXT"]) "x.éxt" = true /\
  is_ignored quiet_env (Some [".ext"]) "X.ÉXT" = false.
Proof. repeat split. Qed.


(** ** Change detection *)

Lemma int_of_float_between (x : Q) (sec : Z) :
  0 <= sec -> (inject_Z sec <= x)%Q -> (x < inject_Z (sec + 1))%Q ->
  int_of_float x = sec.
Proof.
  destruct x as [n d]. unfold int_of_float, Qle, Qlt. simpl.
  intros Hsec Hle Hlt.
  assert (0 <= n) by nia.
  rewrite Z.quot_div_nonneg by lia.
  symmetry. apply (Z.div_unique n (Z.pos d) sec (n - sec * Z.pos d)); nia.
Qed.

Lemma files_are_identical_true (s d : stat_result) :
  files_are_identical (Some s) (Some d) = true <->
  st_size s = st_size d /\ int_of_float (st_mtime s) = int_of_float (st_mtime d).
Proof.
  simpl. rewrite andb_true_iff, !Z.eqb_eq. reflexivity.
Qed.

Lemma exists_stat (fs : filesystem) (p : path) :
  p <> [] -> exists_ fs p = true <-> exists d, stat fs p = Some d.
Proof.
  intros Hp. unfold exists_, stat. destruct p as [|c p]; [congruence|].
  destruct (fs !! (c :: p)) as [n|]; simpl.
  - split; eauto.
  - split; [discriminate | intros [d Hd]; discriminate].
Qed.

(** C1, as amended: for a source file [s] and a destination path, a copy is
    needed exactly when the destination does not exist, or its size
    differs, or its modification time truncated to whole seconds differs;
    in particular when both modification times lie in the same whole second
    and the size is unchanged, no copy is needed. *)
Theorem needs_copy_iff (fs : filesystem) (s : stat_result) (dst_file : path) :
  dst_file <> [] ->
  (needs_copy fs (Some s) dst_file = true <->
   exists_ fs dst_file = false \/
   exists d, stat fs dst_file = Some d /\
             (st_size d <> st_size s \/
              int_of_float (st_mtime d) <> int_of_float (st_mtime s))) /\
  (forall d sec,
      stat fs dst_file = Some d -> st_size d = st_size s -> 0 <= sec ->
      (inject_Z sec <= st_mtime s)%Q -> (st_mtime s < inject_Z (sec + 1))%Q ->
      (inject_Z sec <= st_mtime d)%Q -> (st_mtime d < inject_Z (sec + 1))%Q ->
      needs_copy fs (Some s) dst_file = false).
Proof.
  intros Hp. pose proof (exists_stat fs dst_file Hp) as Hex.
  unfold needs_copy. split.
  - rewrite orb_true_iff, !negb_true_iff. split.
    + intros [Hno|Hdiff]; [left; exact Hno|].
      destruct (stat fs dst_file) as [d|] eqn:Hst.
      * right. exists d. split; [reflexivity|].
        destruct (Z.eq_dec (st_size d) (st_size s)) as [Hs|Hs]; [|left; exact Hs].
        right. intros Ht.
        assert (files_are_identical (Some s) (Some d) = true)
          by (apply files_are_identical_true; split; congruence).
        congruence.
      * left. destruct (exists_ fs dst_file); [|reflexivity].
        destruct Hex as [Hex _]. destruct (Hex eq_refl). discriminate.
    + intros [Hno|(d & Hst & Hd)]; [left; exact Hno|].
      right. rewrite Hst.
      destruct (files_are_identical (Some s) (Some d)) eqn:Hid; [|reflexivity].
      apply files_are_identical_true in Hid. destruct Hid, Hd; congruence.
  - intros d sec Hst Hsize Hsec Hs1 Hs2 Hd1 Hd2.
    assert (exists_ fs dst_file = true) as -> by (apply Hex; eauto).
    rewrite Hst.
    assert (files_are_identical (Some s) (Some d) = true) as ->; [|reflexivity].
    apply files_are_identical_true. split; [congruence|].
    rewrite (int_of_float_between _ sec), (int_of_float_between _ sec); auto.
Qed.

Lemma needs_copy_iff_witness :
  ["mnt"; "a.txt"] <> [] /\
  needs_copy stale_fs (Some stale_copy) ["mnt"; "a.txt"] = false.
Proof.
  split; [discriminate|].
  refine (proj2 (needs_copy_iff stale_fs stale_copy ["mnt"; "a.txt"] _)
                stale_copy 10 _ _ _ _ _ _ _);
    try discriminate; try reflexivity; vm_compute; congruence.
Defined.

(** C1 as stated fails: the source's modification time moved by 0.2 s, from
    10.9 s to 11.1 s, the size is unchanged, and a copy is needed. *)
Lemma needs_copy_change_below_one_second :
  st_size touched_source = st_size stale_copy /\
  (Qabs (st_mtime touched_source - st_mtime stale_copy) < 1)%Q /\
  stat stale_fs ["mnt"; "a.txt"] = Some stale_copy /\
  needs_copy stale_fs (Some touched_source) ["mnt"; "a.txt"] = true.
Proof. repeat split; vm_compute; reflexivity. Qed.

(** ** Reachability of a destination *)

Lemma ensure_path_mapped_local env share_path fs :
  ensure_path_mapped env share_path "local" fs = (Ok (exists_ fs share_path), fs, []).
Proof. reflexivity. Qed.

Lemma ensure_path_mapped_visible env share_path host_type fs :
  exists_ fs share_path = true ->
  ensure_path_mapped env share_path host_type fs = (Ok true, fs, []).
Proof.
  intros Hex. unfold ensure_path_mapped, bind, get_fs, ret. rewrite Hex.
  destruct (String.eqb host_type "local"); reflexivity.
Qed.

Lemma ensure_path_mapped_windows env share_path host_type fs :
  String.eqb host_type "local" = false ->
  exists_ fs share_path = false ->
  platform_system env = "Windows" ->
  ensure_path_mapped env share_path host_type fs =
  match map_windows_share env share_path fs with
  | (Ok (Some b), fs', es) => (Ok b, fs', es)
  | (Ok None, fs', es) => (Ok (exists_ fs' share_path), fs', es)
  | (Raised e, fs', es) => (Raised e, fs', es)
  end.
Proof.
  intros Hsmb Hex Hsys. unfold ensure_path_mapped, bind, get_fs, ret.
  rewrite Hsmb, Hex, Hsys. simpl.
  destruct (map_windows_share env share_path fs) as [[[[b|]|e] fs'] es];
    rewrite ?app_nil_r; reflexivity.
Qed.

Lemma map_windows_share_no_credentials env share_path fs :
  truthy (ask_username env share_path) &&
  truthy (ask_password env (ask_username env share_path)) = false ->
  map_windows_share env share_path fs =
  (Ok (Some false), fs, [LogTryingToMap share_path; ShowErrorCredentials]).
Proof.
  intros Hc. unfold map_windows_share, bind, emit, ret.
  rewrite <- negb_andb, Hc. reflexivity.
Qed.

Lemma map_windows_share_attempt env share_path fs :
  truthy (ask_username env share_path) &&
  truthy (ask_password env (ask_username env share_path)) = true ->
  map_windows_share env share_path fs =
  match net_use env share_path
                (default "" (ask_password env (ask_username env share_path)))
                (default "" (ask_username env share_path)) fs with
  | (inr (status, stderr), fs') =>
      if status =? 0
      then (Ok (Some true), fs', [LogTryingToMap share_path; LogMapped share_path])
      else (Ok None, fs', [LogTryingToMap share_path; LogMapFailed share_path stderr])
  | (inl e, fs') =>
      (Ok None, fs', [LogTryingToMap share_path; LogNetUseException e])
  end.
Proof.
  intros Hc. unfold map_windows_share, bind, emit, ret, try_except, subprocess_run.
  rewrite <- negb_andb, Hc. simpl.
  destruct (net_use _ _ _ _ _) as [[e|[status stderr]] fs']; simpl; [reflexivity|].
  destruct (status =? 0); reflexivity.
Qed.

Lemma ensure_path_mapped_total env share_path host_type fs :
  exists b fs' es, ensure_path_mapped env share_path host_type fs = (Ok b, fs', es).
Proof.
  destruct (exists_ fs share_path) eqn:Hex.
  { rewrite ensure_path_mapped_visible by exact Hex. eauto. }
  destruct (String.eqb host_type "local") eqn:Hsmb.
  { apply String.eqb_eq in Hsmb as ->. rewrite ensure_path_mapped_local. eauto. }
  destruct (String.eqb_spec (platform_system env) "Windows") as [Hsys|Hsys].
  - rewrite (ensure_path_mapped_windows env share_path host_type fs Hsmb Hex Hsys).
    destruct (truthy (ask_username env share_path) &&
              truthy (ask_password env (ask_username env share_path))) eqn:Hc.
    + rewrite (map_windows_share_attempt env share_path fs Hc).
      destruct (net_use _ _ _ _ _) as [[e|[status stderr]] fs']; [eauto|].
      destruct (status =? 0); eauto.
    + rewrite (map_windows_share_no_credentials env share_path fs Hc). eauto.
  - apply String.eqb_neq in Hsys.
    unfold ensure_path_mapped, bind, get_fs, ret. rewrite Hsmb, Hex, Hsys.
    destruct (_ || _); simpl; eauto.
Qed.

(** C3, as amended: for a destination that is not [local] and whose path
    does not exist at first, [ensure_path_mapped] never raises; on Windows,
    without a user name or a password it shows an error and returns
    [False]; when [net use] exits with status 0 it returns [True] without
    looking at the path again; when [net use] exits with another status or
    cannot be run, and on every other platform, it returns whether the
    path exists at the end. *)
Theorem ensure_path_mapped_unmapped env share_path host_type fs :
  host_type <> "local" ->
  exists_ fs share_path = false ->
  let username := ask_username env share_path in
  let password := ask_password env username in
  let attempt := net_use env share_path (default "" password) (default "" username) fs in
  (exists b fs' es, ensure_path_mapped env share_path host_type fs = (Ok b, fs', es)) /\
  (platform_system env = "Windows" ->
   truthy username && truthy password = false ->
   ensure_path_mapped env share_path host_type fs =
   (Ok false, fs, [LogTryingToMap share_path; ShowErrorCredentials])) /\
  (platform_system env = "Windows" ->
   truthy username && truthy password = true ->
   forall stderr, fst attempt = inr (0, stderr) ->
   ensure_path_mapped env share_path host_type fs =
   (Ok true, snd attempt, [LogTryingToMap share_path; LogMapped share_path])) /\
  (platform_system env = "Windows" ->
   truthy username && truthy password = true ->
   forall status stderr, fst attempt = inr (status, stderr) -> status <> 0 ->
   ensure_path_mapped env share_path host_type fs =
   (Ok (exists_ (snd attempt) share_path), snd attempt,
    [LogTryingToMap share_path; LogMapFailed share_path stderr])) /\
  (platform_system env = "Windows" ->
   truthy username && truthy password = true ->
   forall e, fst attempt = inl e ->
   ensure_path_mapped env share_path host_type fs =
   (Ok (exists_ (snd attempt) share_path), snd attempt,
    [LogTryingToMap share_path; LogNetUseException e])) /\
  (platform_system env <> "Windows" ->
   exists es, ensure_path_mapped env share_path host_type fs =
              (Ok (exists_ fs share_path), fs, es)).
Proof.
  intros Hsmb Hex username password attempt.
  apply String.eqb_neq in Hsmb.
  pose proof (ensure_path_mapped_windows env share_path host_type fs Hsmb Hex) as Hwin.
  pose proof (map_windows_share_no_credentials env share_path fs) as Hcreds.
  pose proof (map_windows_share_attempt env share_path fs) as Hrun.
  fold username in Hcreds, Hrun. fold password in Hcreds, Hrun. fold attempt in Hrun.
  repeat split.
  - apply ensure_path_mapped_total.
  - intros Hsys Hc. rewrite (Hwin Hsys), (Hcreds Hc). reflexivity.
  - intros Hsys Hc stderr Hr. rewrite (Hwin Hsys), (Hrun Hc).
    destruct attempt as [r fs']. simpl in *. subst r. reflexivity.
  - intros Hsys Hc status stderr Hr Hst. rewrite (Hwin Hsys), (Hrun Hc).
    destruct attempt as [r fs']. simpl in *. subst r.
    apply Z.eqb_neq in Hst. rewrite Hst. reflexivity.
  - intros Hsys Hc e Hr. rewrite (Hwin Hsys), (Hrun Hc).
    destruct attempt as [r fs']. simpl in *. subst r. reflexivity.
  - intros Hsys. apply String.eqb_neq in Hsys.
    unfold ensure_path_mapped, bind, get_fs, ret, emit.
    rewrite Hsmb, Hex, Hsys.
    destruct (_ || _); simpl; rewrite ?Hex; eexists; reflexivity.
Qed.

Lemma ensure_path_mapped_unmapped_witness :
  "smb" <> "local" /\
  exists_ (∅ : filesystem) ["server"; "share"] = false /\
  exists b fs' es,
    ensure_path_mapped quiet_env ["server"; "share"] "smb" ∅ = (Ok b, fs', es).
Proof.
  assert (H1 : "smb" <> "local") by discriminate.
  assert (H2 : exists_ (∅ : filesystem) ["server"; "share"] = false) by reflexivity.
  exact (conj H1 (conj H2
    (proj1 (ensure_path_mapped_unmapped quiet_env ["server"; "share"] "smb" ∅ H1 H2)))).
Defined.

(** C3 as stated fails: [net use] exits with status 0, the share is still
    not visible, and [ensure_path_mapped] returns [True]. *)
Lemma ensure_path_mapped_trusts_exit_status :
  exists fs' es,
    ensure_path_mapped optimistic_env ["server"; "share"] "smb" ∅ = (Ok true, fs', es) /\
    exists_ fs' ["server"; "share"] = false.
Proof. do 2 eexists. split; vm_compute; reflexivity. Qed.

(** ** The monad *)

Lemma bind_Ok {A B} (m : M A) (k : A -> M B) fs a fs1 es1 :
  m fs = (Ok a, fs1, es1) ->
  bind m k fs = (let '(r, fs2, es2) := k a fs1 in (r, fs2, es1 ++ es2)).
Proof. intros H. unfold bind. rewrite H. destruct (k a fs1) as [[r fs2] es2]. reflexivity. Qed.

Lemma run_eta {A} (x : result A * filesystem * list event) r es :
  fst (fst x) = r -> snd x = es -> x = (r, snd (fst x), es).
Proof. destruct x as [[r' fs'] es']. simpl. intros -> ->. reflexivity. Qed.

Lemma foldM_cons {A B} (body : B -> A -> M B) a l b :
  foldM body (a :: l) b = bind (body b a) (fun b' => foldM body l b').
Proof. reflexivity. Qed.

Lemma foldM_app {A B} (body : B -> A -> M B) l1 l2 b fs :
  foldM body (l1 ++ l2) b fs =
  bind (foldM body l1 b) (fun b' => foldM body l2 b') fs.
Proof.
  revert b fs. induction l1 as [|a l1 IH]; intros b fs.
  - simpl. unfold bind, ret. destruct (foldM body l2 b fs) as [[r fs'] es]. reflexivity.
  - simpl. unfold bind.
    destruct (body b a fs) as [[[b'|e] fs1] es1]; [|reflexivity].
    rewrite IH. unfold bind.
    destruct (foldM body l1 b' fs1) as [[[b2|e] fs2] es2]; [|reflexivity].
    destruct (foldM body l2 b2 fs2) as [[r fs3] es3].
    rewrite app_assoc. reflexivity.
Qed.

(** An invariant of the loop body is an invariant of the loop. *)
Lemma foldM_rel {A B} (body : B -> A -> M B) (R : filesystem -> filesystem -> Prop) l :
  (forall fs, R fs fs) ->
  (forall fs1 fs2 fs3, R fs1 fs2 -> R fs2 fs3 -> R fs1 fs3) ->
  (forall b a fs r fs' es, In a l -> body b a fs = (r, fs', es) -> R fs fs') ->
  forall b fs r fs' es, foldM body l b fs = (r, fs', es) -> R fs fs'.
Proof.
  intros Hrefl Htrans. induction l as [|a l IH]; intros Hbody b fs r fs' es Hrun.
  - injection Hrun as <- <- <-. apply Hrefl.
  - rewrite foldM_cons in Hrun. unfold bind in Hrun.
    destruct (body b a fs) as [[[b1|e] fs1] es1] eqn:Hstep.
    + destruct (foldM body l b1 fs1) as [[r2 fs2] es2] eqn:Hrest.
      injection Hrun as <- <- <-.
      eapply Htrans.
      * eapply Hbody; [left; reflexivity | exact Hstep].
      * eapply IH; [|exact Hrest]. intros. eapply Hbody; [right|]; eassumption.
    + injection Hrun as <- <- <-. eapply Hbody; [left; reflexivity | exact Hstep].
Qed.

(** ** Paths *)

Lemma relative_to_app (src rel : path) : relative_to (src ++ rel) src = Some rel.
Proof.
  induction src as [|c src IH]; simpl; [reflexivity|].
  rewrite String.eqb_refl. exact IH.
Qed.

Lemma relative_to_self (src : path) : relative_to src src = Some [].
Proof. rewrite <- (app_nil_r src) at 1. apply relative_to_app. Qed.

Lemma parent_snoc (p : path) (x : string) : parent (p ++ [x]) = p.
Proof. apply removelast_last. Qed.

Lemma basename_snoc (p : path) (x : string) : basename (p ++ [x]) = x.
Proof. apply last_last. Qed.

Lemma snoc_not_nil (p : path) (x : string) : p ++ [x] <> [].
Proof. destruct p; discriminate. Qed.

Lemma is_dir_lookup (fs : filesystem) (p : path) :
  p <> [] -> is_dir fs p = true <-> exists st, fs !! p = Some (NDir st).
Proof.
  intros Hp. unfold is_dir. destruct p as [|c p]; [congruence|].
  destruct (fs !! (c :: p)) as [[st|st]|]; split; eauto; try discriminate;
    intros [st' H]; discriminate.
Qed.

(** ** The walk *)

Lemma dtree_forall_ind (P : dtree -> Prop) :
  P Unreadable ->
  (forall files dirs, Forall (fun d => P (snd d)) dirs -> P (Dir files dirs)) ->
  forall t, P t.
Proof.
  intros HU HD.
  fix IH 1. intros [|files dirs]; [exact HU|].
  apply HD. induction dirs as [|[d sub] dirs IHdirs]; constructor.
  - apply IH.
  - exact IHdirs.
Qed.

Lemma walk_shift (top rel : path) (t : dtree) :
  walk (top ++ rel) t = map (shift top) (walk rel t).
Proof.
  revert rel. induction t as [|files dirs IH] using dtree_forall_ind; intros rel.
  - reflexivity.
  - simpl. f_equal.
    induction IH as [|[d sub] dirs Hsub _ IHdirs]; [reflexivity|].
    simpl in *. rewrite map_app, <- IHdirs, <- Hsub, app_assoc. reflexivity.
Qed.

Lemma walk_relative (src : path) (t : dtree) :
  walk src t = map (shift src) (walk [] t).
Proof. rewrite <- walk_shift, app_nil_r. reflexivity. Qed.

(** ** Directories *)

Lemma dirs_persist_refl fs : dirs_persist fs fs.
Proof. intros q st H. exact H. Qed.

Lemma dirs_persist_trans fs1 fs2 fs3 :
  dirs_persist fs1 fs2 -> dirs_persist fs2 fs3 -> dirs_persist fs1 fs3.
Proof. intros H12 H23 q st H. apply H23, H12, H. Qed.

Lemma dirs_persist_is_dir fs fs' p :
  dirs_persist fs fs' -> is_dir fs p = true -> is_dir fs' p = true.
Proof.
  intros Hp Hd. destruct p as [|c p]; [reflexivity|].
  apply is_dir_lookup in Hd as [st Hst]; [|discriminate].
  apply is_dir_lookup; [discriminate|]. exists st. apply Hp, Hst.
Qed.

Lemma all_dirs_persist fs fs' p :
  dirs_persist fs fs' -> all_dirs fs p -> all_dirs fs' p.
Proof.
  intros Hp Hall. unfold all_dirs. eapply Forall_impl; [exact Hall|].
  intros q [st Hst]. exists st. apply Hp, Hst.
Qed.

Lemma mkdir_one_cases env if_file p fs :
  mkdir_one env if_file p fs =
  match fs !! p with
  | Some (NDir _) => (Ok tt, fs, [])
  | Some (NFile _) => (Raised if_file, fs, [])
  | None =>
      match mkdir_fault env p with
      | Some e => (Raised e, fs, [])
      | None => (Ok tt, <[p := NDir (new_dir_stat env)]> fs, [])
      end
  end.
Proof.
  unfold mkdir_one, bind, get_fs. destruct (fs !! p) as [[st|st]|]; try reflexivity.
  destruct (mkdir_fault env p); reflexivity.
Qed.

Lemma mkdir_one_spec env if_file p fs r fs' es :
  mkdir_one env if_file p fs = (r, fs', es) ->
  es = [] /\ dirs_persist fs fs' /\
  (forall q n, fs !! q = Some n -> fs' !! q = Some n) /\
  (forall q n, fs' !! q = Some n -> fs !! q = Some n \/ exists st, n = NDir st) /\
  (r = Ok tt -> exists st, fs' !! p = Some (NDir st)).
Proof.
  rewrite mkdir_one_cases. destruct (fs !! p) as [[st|st]|] eqn:Hp.
  - intros [= <- <- <-]. repeat split; eauto. apply dirs_persist_refl.
  - intros [= <- <- <-]. repeat split; eauto. apply dirs_persist_refl. discriminate.
  - destruct (mkdir_fault env p).
    + intros [= <- <- <-]. repeat split; eauto. apply dirs_persist_refl. discriminate.
    + intros [= <- <- <-]. repeat split.
      * intros q st Hq. rewrite lookup_insert_ne; [exact Hq | congruence].
      * intros q n Hq. rewrite lookup_insert_ne; [exact Hq | congruence].
      * intros q n. rewrite lookup_insert. case_decide; [|eauto].
        intros [= <-]. eauto.
      * intros _. rewrite lookup_insert_eq. eauto.
Qed.

Lemma for_each_mkdir_one env if_file ps : forall fs r fs' es,
  for_each ps (mkdir_one env if_file) fs = (r, fs', es) ->
  mkdir_post fs r fs' es ps.
Proof.
  unfold for_each.
  induction ps as [|p ps IH]; intros fs r fs' es Hrun.
  - injection Hrun as <- <- <-. repeat split; eauto.
  - rewrite foldM_cons in Hrun. unfold bind in Hrun.
    destruct (mkdir_one env if_file p fs) as [[[[]|e] fs1] es1] eqn:Hstep.
    + destruct (foldM _ ps tt fs1) as [[r2 fs2] es2] eqn:Hrest.
      injection Hrun as <- <- <-.
      apply mkdir_one_spec in Hstep as (-> & _ & Hkeep1 & Hnew1 & Hdir1).
      apply IH in Hrest as (-> & Hkeep2 & Hnew2 & Hdir2).
      repeat split; eauto.
      * intros q n Hq. apply Hnew2 in Hq as [Hq|Hq]; eauto.
      * intros Hr. constructor; [|eauto].
        destruct (Hdir1 eq_refl) as [st Hst]. eauto.
    + injection Hrun as <- <- <-.
      apply mkdir_one_spec in Hstep as (-> & _ & Hkeep1 & Hnew1 & Hdir1).
      repeat split; eauto. discriminate.
Qed.

Lemma mkdir_parents_exist_ok_spec env p fs r fs' es :
  p <> [] ->
  mkdir_parents_exist_ok env p fs = (r, fs', es) ->
  mkdir_post fs r fs' es (ancestors p ++ [p]).
Proof.
  intros Hp. unfold mkdir_parents_exist_ok. destruct p as [|c p]; [congruence|].
  set (q := c :: p). unfold bind.
  destruct (for_each _ _ fs) as [[[[]|e] fs1] es1] eqn:Hanc.
  - destruct (mkdir_one env FileExistsError q fs1) as [[r2 fs2] es2] eqn:Hlast.
    intros [= <- <- <-].
    apply for_each_mkdir_one in Hanc as (-> & Hkeep1 & Hnew1 & Hdir1).
    apply mkdir_one_spec in Hlast as (-> & _ & Hkeep2 & Hnew2 & Hdir2).
    repeat split; eauto.
    + intros q' n Hq. apply Hnew2 in Hq as [Hq|Hq]; eauto.
    + intros ->. apply Forall_app. split.
      * eapply Forall_impl; [apply Hdir1; reflexivity|].
        intros q' [st Hst]. eauto.
      * constructor; [|constructor]. apply Hdir2. reflexivity.
  - intros [= <- <- <-].
    apply for_each_mkdir_one in Hanc as (-> & Hkeep1 & Hnew1 & Hdir1).
    repeat split; eauto. discriminate.
Qed.

Lemma mkdir_parents_exist_ok_silent env p fs r fs' es :
  mkdir_parents_exist_ok env p fs = (r, fs', es) -> es = [].
Proof.
  destruct p as [|c p].
  - intros [= <- <- <-]. reflexivity.
  - intros Hmk. apply mkdir_parents_exist_ok_spec in Hmk as (-> & _);
      [reflexivity | discriminate].
Qed.

(** A [mkdir] on directories that are all there changes nothing. *)
Lemma mkdir_parents_exist_ok_noop env p fs :
  all_dirs fs p -> mkdir_parents_exist_ok env p fs = (Ok tt, fs, []).
Proof.
  unfold all_dirs, mkdir_parents_exist_ok. intros Hall.
  destruct p as [|c p]; [reflexivity|].
  apply Forall_app in Hall as [Hanc Hp].
  assert (Hfor : for_each (ancestors (c :: p)) (mkdir_one env NotADirectoryError) fs =
                 (Ok tt, fs, [])).
  { unfold for_each. induction Hanc as [|q qs [st Hq] _ IH]; [reflexivity|].
    rewrite foldM_cons. unfold bind. rewrite mkdir_one_cases, Hq, IH. reflexivity. }
  unfold bind. rewrite Hfor.
  apply Forall_inv in Hp as [st Hp]. rewrite mkdir_one_cases, Hp. reflexivity.
Qed.

(** ** Copying one file *)

Lemma shutil_copy2_cases env src_file st dst fs :
  shutil_copy2 env src_file st dst fs =
  let target := copy_target fs src_file dst in
  if negb (is_dir fs (parent target)) then
    (Raised (if exists_ fs (parent target) then NotADirectoryError
             else FileNotFoundError), fs, [])
  else if is_dir fs target then (Raised IsADirectoryError, fs, [])
  else match copy_fault env target with
       | Some e => (Raised e, fs, [])
       | None => (Ok tt, <[target := NFile st]> fs, [])
       end.
Proof.
  unfold shutil_copy2, copy_target, bind, get_fs. simpl.
  destruct (negb _); [reflexivity|].
  destruct (is_dir fs (if is_dir fs dst then _ else _)); [reflexivity|].
  destruct (copy_fault env _); reflexivity.
Qed.

Lemma shutil_copy2_raised env src_file st dst fs e fs' es :
  shutil_copy2 env src_file st dst fs = (Raised e, fs', es) -> fs' = fs /\ es = [].
Proof.
  rewrite shutil_copy2_cases. simpl.
  repeat match goal with |- context [if ?b then _ else _] => destruct b end;
    try destruct (copy_fault env _); intros [= <- <- <-] || intros [=]; auto.
Qed.

Lemma shutil_copy2_ok env src_file st dst fs fs' es :
  shutil_copy2 env src_file st dst fs = (Ok tt, fs', es) ->
  es = [] /\ fs' = <[copy_target fs src_file dst := NFile st]> fs /\
  is_dir fs (copy_target fs src_file dst) = false.
Proof.
  rewrite shutil_copy2_cases. simpl.
  destruct (negb _); [discriminate|].
  destruct (is_dir fs (copy_target fs src_file dst)) eqn:Hd; [discriminate|].
  destruct (copy_fault env _); [discriminate|].
  intros [= <- <-]. auto.
Qed.

(** The loop body on one file, case by case. *)
Lemma process_file_cases env cb root dst_root exts total copied f st fs :
  process_file env cb root dst_root exts total copied (f, st) fs =
  if is_ignored env exts f then (Ok copied, fs, [LogSkippedIgnored f])
  else if needs_copy fs (Some st) (dst_root ++ [f]) then
    match shutil_copy2 env (root ++ [f]) st (dst_root ++ [f]) fs with
    | (Ok _, fs', _) =>
        (Ok (copied + 1), fs',
         LogCopied (root ++ [f]) (dst_root ++ [f]) :: callback_events cb (copied + 1) total)
    | (Raised e, _, _) =>
        (Ok (copied + 1), fs,
         LogErrorCopying (root ++ [f]) (dst_root ++ [f]) e ::
         callback_events cb (copied + 1) total)
    end
  else (Ok (copied + 1), fs,
        LogSkippedIdentical (root ++ [f]) :: callback_events cb (copied + 1) total).
Proof.
  unfold process_file. destruct (is_ignored env exts f); [reflexivity|].
  unfold bind, try_except, get_fs, emit, emit_all, ret.
  destruct (needs_copy fs (Some st) (dst_root ++ [f])).
  - destruct (shutil_copy2 _ _ _ _ fs) as [[[[]|e] fs1] es1] eqn:Hcopy.
    + apply shutil_copy2_ok in Hcopy as (-> & -> & _).
      simpl; rewrite ?app_nil_r; reflexivity.
    + apply shutil_copy2_raised in Hcopy as (-> & ->).
      simpl; rewrite ?app_nil_r; reflexivity.
  - simpl; rewrite ?app_nil_r; reflexivity.
Qed.

(** ** A run as a sequence of steps *)

Lemma foldM_ext {A B} (body1 body2 : B -> A -> M B) l :
  (forall b a fs, In a l -> body1 b a fs = body2 b a fs) ->
  forall b fs, foldM body1 l b fs = foldM body2 l b fs.
Proof.
  induction l as [|a l IH]; intros Hext b fs; [reflexivity|].
  rewrite !foldM_cons. unfold bind. rewrite Hext by (left; reflexivity).
  destruct (body2 b a fs) as [[[b1|e] fs1] es1]; [|reflexivity].
  rewrite IH; [reflexivity|]. intros. apply Hext. right. assumption.
Qed.

Lemma foldM_map {A B C} (body : B -> A -> M B) (g : C -> A) l b fs :
  foldM body (map g l) b fs = foldM (fun b c => body b (g c)) l b fs.
Proof.
  revert b fs. induction l as [|c l IH]; intros b fs; [reflexivity|].
  simpl. unfold bind. destruct (body b (g c) fs) as [[[b1|e] fs1] es1]; [|reflexivity].
  rewrite IH. reflexivity.
Qed.

Lemma foldM_flat_map {A B C} (body : B -> A -> M B) (g : C -> list A) l b fs :
  foldM body (flat_map g l) b fs = foldM (fun b c => foldM body (g c) b) l b fs.
Proof.
  revert b fs. induction l as [|c l IH]; intros b fs; [reflexivity|].
  simpl. rewrite foldM_app. unfold bind.
  destruct (foldM body (g c) b fs) as [[[b1|e] fs1] es1]; [|reflexivity].
  rewrite IH. reflexivity.
Qed.

Lemma foldM_mkdirs env cb exts total (ps : list path) copied fs :
  foldM (run_op env cb exts total) (map OpMkdir ps) copied fs =
  match for_each ps (mkdir_parents_exist_ok env) fs with
  | (Ok _, fs', es) => (Ok copied, fs', es)
  | (Raised e, fs', es) => (Raised e, fs', es)
  end.
Proof.
  unfold for_each. revert fs. induction ps as [|p ps IH]; intros fs; [reflexivity|].
  simpl. unfold bind, ret.
  destruct (mkdir_parents_exist_ok env p fs) as [[[[]|e] fs1] es1]; [|reflexivity].
  rewrite app_nil_r, IH.
  destruct (foldM _ ps tt fs1) as [[[[]|e] fs2] es2]; reflexivity.
Qed.

Lemma visit_ops env cb src dst exts total copied entry fs :
  visit env cb src dst exts total copied (shift src entry) fs =
  foldM (run_op env cb exts total) (ops_of_entry src dst entry) copied fs.
Proof.
  destruct entry as [[rel dirs] files]. unfold visit, shift, ops_of_entry.
  rewrite relative_to_app, foldM_app.
  rewrite <- (map_map (fun d => (dst ++ rel) ++ [d]) OpMkdir).
  unfold bind. rewrite foldM_mkdirs. unfold for_each. rewrite foldM_map.
  destruct (foldM _ dirs tt fs) as [[[[]|e] fs1] es1]; [|reflexivity].
  rewrite foldM_map. reflexivity.
Qed.

Lemma foldM_visit_schedule env cb src dst exts total t copied fs :
  foldM (visit env cb src dst exts total) (walk src t) copied fs =
  foldM (run_op env cb exts total) (schedule src dst t) copied fs.
Proof.
  unfold schedule. rewrite walk_relative, foldM_map, foldM_flat_map.
  apply foldM_ext. intros. apply visit_ops.
Qed.

Lemma copy_recursively_schedule env src t dst exts cb fs :
  copy_recursively env src t dst exts cb fs =
  match foldM (run_op env cb exts (count_total_files src t)) (schedule src dst t) 0 fs with
  | (Ok _, fs', es) => (Ok tt, fs', es)
  | (Raised e, fs', es) => (Raised e, fs', es)
  end.
Proof.
  unfold copy_recursively, bind, ret. rewrite foldM_visit_schedule.
  destruct (foldM _ _ 0 fs) as [[[c|e] fs'] es]; rewrite ?app_nil_r; reflexivity.
Qed.

(** What any step leaves behind it. *)
Lemma run_op_mkdir env cb exts total copied p fs :
  run_op env cb exts total copied (OpMkdir p) fs =
  match mkdir_parents_exist_ok env p fs with
  | (Ok _, fs', es) => (Ok copied, fs', es)
  | (Raised e, fs', es) => (Raised e, fs', es)
  end.
Proof.
  simpl. unfold bind, ret.
  destruct (mkdir_parents_exist_ok env p fs) as [[[[]|e] fs1] es1];
    rewrite ?app_nil_r; reflexivity.
Qed.

Lemma process_file_total env cb root dst_root exts total copied file fs :
  exists copied' fs' es,
    process_file env cb root dst_root exts total copied file fs = (Ok copied', fs', es).
Proof.
  destruct file as [f st]. rewrite process_file_cases.
  destruct (is_ignored env exts f); [eauto|].
  destruct (needs_copy _ _ _); [|eauto].
  destruct (shutil_copy2 _ _ _ _ _) as [[[[]|e] fs1] es1]; eauto.
Qed.

Lemma process_file_dirs_persist env cb root dst_root exts total copied file fs r fs' es :
  process_file env cb root dst_root exts total copied file fs = (r, fs', es) ->
  dirs_persist fs fs'.
Proof.
  destruct file as [f st]. rewrite process_file_cases.
  destruct (is_ignored env exts f); [intros [= <- <- <-]; apply dirs_persist_refl|].
  destruct (needs_copy _ _ _); [|intros [= <- <- <-]; apply dirs_persist_refl].
  destruct (shutil_copy2 _ _ _ _ _) as [[[[]|e] fs1] es1] eqn:Hcopy;
    intros [= <- <- <-]; [|apply dirs_persist_refl].
  apply shutil_copy2_ok in Hcopy as (_ & -> & Hnd).
  intros q st' Hq. rewrite lookup_insert_ne; [exact Hq|].
  intros <-. unfold is_dir in Hnd.
  destruct (copy_target _ _ _); [discriminate|]. rewrite Hq in Hnd. discriminate.
Qed.

Lemma run_op_dirs_persist env cb exts total copied o fs r fs' es :
  (forall p, o = OpMkdir p -> p <> []) ->
  run_op env cb exts total copied o fs = (r, fs', es) -> dirs_persist fs fs'.
Proof.
  destruct o as [p|root dst_root file]; intros Hp.
  - rewrite run_op_mkdir.
    destruct (mkdir_parents_exist_ok env p fs) as [[r1 fs1] es1] eqn:Hmk.
    apply mkdir_parents_exist_ok_spec in Hmk as (_ & Hkeep & _); [|auto].
    destruct r1; intros [= <- <- <-]; intros q st Hq; apply Hkeep, Hq.
  - apply process_file_dirs_persist.
Qed.

Lemma schedule_mkdir_not_nil src dst t p : In (OpMkdir p) (schedule src dst t) -> p <> [].
Proof.
  unfold schedule. rewrite in_flat_map. intros ([[rel dirs] files] & _ & Hin).
  unfold ops_of_entry in Hin. apply in_app_or in Hin as [Hin|Hin];
    apply in_map_iff in Hin as (x & Hx & _); [|discriminate].
  injection Hx as <-. apply snoc_not_nil.
Qed.

Lemma schedule_file_source src dst t r d f st :
  In (OpFile r d (f, st)) (schedule src dst t) ->
  exists rel, d = dst ++ rel /\ In (rel ++ [f], st) (source_files t).
Proof.
  unfold schedule, source_files. rewrite in_flat_map.
  intros ([[rel dirs] files] & Hentry & Hin).
  unfold ops_of_entry in Hin. apply in_app_or in Hin as [Hin|Hin];
    apply in_map_iff in Hin as (x & Hx & Hfile); [discriminate|].
  injection Hx as <- <- ->. exists rel. split; [reflexivity|].
  apply in_flat_map. exists (rel, dirs, files). split; [exact Hentry|].
  apply in_map_iff. exists (f, st). auto.
Qed.

Lemma source_file_scheduled src dst t p st :
  In (p, st) (source_files t) ->
  exists rel f, p = rel ++ [f] /\
                In (OpFile (src ++ rel) (dst ++ rel) (f, st)) (schedule src dst t).
Proof.
  unfold schedule, source_files. rewrite in_flat_map.
  intros ([[rel dirs] files] & Hentry & Hin).
  apply in_map_iff in Hin as ([f st'] & [= <- <-] & Hfile).
  exists rel, f. split; [reflexivity|].
  apply in_flat_map. exists (rel, dirs, files). split; [exact Hentry|].
  unfold ops_of_entry. apply in_or_app. right. apply in_map_iff. eauto.
Qed.

(** ** A failing copy stays local *)

Lemma foldM_process_file_total env cb root dst_root exts total files : forall copied fs,
  exists copied' fs' es,
    foldM (process_file env cb root dst_root exts total) files copied fs =
    (Ok copied', fs', es).
Proof.
  induction files as [|file files IH]; intros copied fs.
  - simpl. unfold ret. eauto.
  - rewrite foldM_cons.
    destruct (process_file_total env cb root dst_root exts total copied file fs)
      as (c1 & fs1 & es1 & Hstep).
    destruct (IH c1 fs1) as (c2 & fs2 & es2 & Hrest).
    erewrite bind_Ok by exact Hstep. rewrite Hrest. eauto.
Qed.

(** C7: when the copy of a file that is not ignored raises, the exception
    is caught in the loop body: the error is logged, no [Copied] and no
    [Skipped] record is written for the file, the destination is left as it
    was, and the loop goes on with the files that follow. *)
Theorem copy_failure_is_local env cb root dst_root exts total
    (before after : list (string * stat_result)) (f : string) (st : stat_result)
    copied fs copied1 fs1 es1 e fs_e es_e :
  foldM (process_file env cb root dst_root exts total) before copied fs =
    (Ok copied1, fs1, es1) ->
  is_ignored env exts f = false ->
  needs_copy fs1 (Some st) (dst_root ++ [f]) = true ->
  shutil_copy2 env (root ++ [f]) st (dst_root ++ [f]) fs1 = (Raised e, fs_e, es_e) ->
  let report := LogErrorCopying (root ++ [f]) (dst_root ++ [f]) e ::
                callback_events cb (copied1 + 1) total in
  process_file env cb root dst_root exts total copied1 (f, st) fs1 =
    (Ok (copied1 + 1), fs1, report) /\
  exists copied2 fs2 es2,
    foldM (process_file env cb root dst_root exts total) after (copied1 + 1) fs1 =
      (Ok copied2, fs2, es2) /\
    foldM (process_file env cb root dst_root exts total)
          (before ++ (f, st) :: after) copied fs =
      (Ok copied2, fs2, es1 ++ report ++ es2).
Proof.
  intros Hbefore Hign Hneeds Hcopy report.
  assert (Hstep : process_file env cb root dst_root exts total copied1 (f, st) fs1 =
                  (Ok (copied1 + 1), fs1, report)).
  { rewrite process_file_cases, Hign, Hneeds, Hcopy. reflexivity. }
  split; [exact Hstep|].
  destruct (foldM_process_file_total env cb root dst_root exts total after
              (copied1 + 1) fs1) as (c2 & fs2 & es2 & Hafter).
  exists c2, fs2, es2. split; [exact Hafter|].
  rewrite foldM_app. erewrite bind_Ok by exact Hbefore.
  rewrite foldM_cons. erewrite bind_Ok by exact Hstep.
  rewrite Hafter. reflexivity.
Qed.

Lemma copy_failure_is_local_witness :
  exists copied2 fs2 es2,
    foldM (process_file refusing_env (Some update_progress) ["src"] ["mnt"]
                        (Some [".tmp"]) 2)
          ([] ++ ("a.txt", mk_stat 10 (3 # 2)) :: [("b.txt", mk_stat 7 (5 # 2))])
          0 empty_mnt =
    (Ok copied2, fs2,
     [] ++ (LogErrorCopying (["src"] ++ ["a.txt"]) (["mnt"] ++ ["a.txt"]) PermissionError ::
            callback_events (Some update_progress) (0 + 1) 2) ++ es2).
Proof.
  destruct (copy_failure_is_local refusing_env (Some update_progress) ["src"] ["mnt"]
              (Some [".tmp"]) 2 [] [("b.txt", mk_stat 7 (5 # 2))] "a.txt"
              (mk_stat 10 (3 # 2)) 0 empty_mnt 0 empty_mnt [] PermissionError empty_mnt []
              eq_refl eq_refl eq_refl eq_refl)
    as [_ (copied2 & fs2 & es2 & _ & Hloop)].
  exists copied2, fs2, es2. exact Hloop.
Defined.

(** ** Directories are created before the files are processed *)

Lemma all_dirs_is_dir fs p : all_dirs fs p -> is_dir fs p = true.
Proof.
  unfold all_dirs. intros Hall. apply Forall_app in Hall as [_ Hp].
  apply Forall_inv in Hp as [st Hp]. unfold is_dir.
  destruct p; [reflexivity|]. rewrite Hp. reflexivity.
Qed.

Lemma for_each_mkdir_parents env ps : forall fs r fs' es,
  Forall (fun p => p <> []) ps ->
  for_each ps (mkdir_parents_exist_ok env) fs = (r, fs', es) ->
  es = [] /\
  (forall q n, fs !! q = Some n -> fs' !! q = Some n) /\
  (forall q n, fs' !! q = Some n -> fs !! q = Some n \/ exists st, n = NDir st) /\
  (r = Ok tt -> Forall (all_dirs fs') ps).
Proof.
  unfold for_each.
  induction ps as [|p ps IH]; intros fs r fs' es Hne Hrun.
  - injection Hrun as <- <- <-. repeat split; eauto.
  - apply Forall_cons in Hne as [Hp Hne].
    rewrite foldM_cons in Hrun. unfold bind in Hrun.
    destruct (mkdir_parents_exist_ok env p fs) as [[[[]|e] fs1] es1] eqn:Hstep.
    + destruct (foldM _ ps tt fs1) as [[r2 fs2] es2] eqn:Hrest.
      injection Hrun as <- <- <-.
      apply mkdir_parents_exist_ok_spec in Hstep as (-> & Hkeep1 & Hnew1 & Hdir1); [|exact Hp].
      apply IH in Hrest as (-> & Hkeep2 & Hnew2 & Hdir2); [|exact Hne].
      repeat split; eauto.
      * intros q n Hq. apply Hnew2 in Hq as [Hq|Hq]; eauto.
      * intros Hr. constructor; [|eauto].
        apply (all_dirs_persist fs1); [|exact (Hdir1 eq_refl)].
        intros q st Hq. apply Hkeep2, Hq.
    + injection Hrun as <- <- <-.
      apply mkdir_parents_exist_ok_spec in Hstep as (-> & Hkeep1 & Hnew1 & Hdir1); [|exact Hp].
      repeat split; eauto. discriminate.
Qed.

Lemma foldM_run_op_dirs_persist env cb exts total ops : forall copied fs r fs' es,
  (forall p, In (OpMkdir p) ops -> p <> []) ->
  foldM (run_op env cb exts total) ops copied fs = (r, fs', es) ->
  dirs_persist fs fs'.
Proof.
  intros copied fs r fs' es Hne.
  apply (foldM_rel _ dirs_persist ops dirs_persist_refl dirs_persist_trans).
  intros b o fs0 r0 fs0' es0 Hin. apply run_op_dirs_persist.
  intros p ->. apply Hne, Hin.
Qed.

(** After a run that completes, every directory it made is there with all
    its ancestors. *)
Lemma run_settles_dirs env cb exts total ops : forall copied fs copied' fs' es,
  (forall p, In (OpMkdir p) ops -> p <> []) ->
  foldM (run_op env cb exts total) ops copied fs = (Ok copied', fs', es) ->
  forall p, In (OpMkdir p) ops -> all_dirs fs' p.
Proof.
  induction ops as [|o ops IH]; intros copied fs copied' fs' es Hne Hrun p Hin;
    [destruct Hin|].
  rewrite foldM_cons in Hrun. unfold bind in Hrun.
  destruct (run_op env cb exts total copied o fs) as [[[c1|e] fs1] es1] eqn:Hstep;
    [|discriminate].
  destruct (foldM _ ops c1 fs1) as [[r2 fs2] es2] eqn:Hrest.
  injection Hrun as -> <- <-.
  destruct Hin as [->|Hin].
  - rewrite run_op_mkdir in Hstep.
    destruct (mkdir_parents_exist_ok env p fs) as [[[[]|e] fs0] es0] eqn:Hmk;
      [|discriminate].
    injection Hstep as <- <- <-.
    apply mkdir_parents_exist_ok_spec in Hmk as (_ & _ & _ & Hdirs);
      [|apply Hne; left; reflexivity].
    apply (all_dirs_persist fs0); [|exact (Hdirs eq_refl)].
    eapply foldM_run_op_dirs_persist; [|exact Hrest].
    intros q Hq. apply Hne. right. exact Hq.
  - eapply IH; [|exact Hrest|exact Hin]. intros q Hq. apply Hne. right. exact Hq.
Qed.

Lemma source_dirs_scheduled src dst t p :
  In p (source_dirs t) -> In (OpMkdir (dst ++ p)) (schedule src dst t).
Proof.
  unfold source_dirs, schedule. rewrite !in_flat_map.
  intros ([[rel dirs] files] & Hentry & Hin).
  exists (rel, dirs, files). split; [exact Hentry|].
  apply in_map_iff in Hin as (d & <- & Hd).
  unfold ops_of_entry. apply in_or_app. left.
  apply in_map_iff. exists d. rewrite app_assoc. auto.
Qed.

Lemma schedule_mkdir_source src dst t p :
  In (OpMkdir p) (schedule src dst t) ->
  exists p', p = dst ++ p' /\ In p' (source_dirs t).
Proof.
  unfold source_dirs, schedule. rewrite in_flat_map.
  intros ([[rel dirs] files] & Hentry & Hin).
  unfold ops_of_entry in Hin. apply in_app_or in Hin as [Hin|Hin];
    apply in_map_iff in Hin as (x & Hx & Hd); [|discriminate].
  injection Hx as <-. exists (rel ++ [x]). rewrite app_assoc. split; [reflexivity|].
  apply in_flat_map. exists (rel, dirs, files). split; [exact Hentry|].
  apply in_map_iff. eauto.
Qed.

(** After a run that completes, every subdirectory the walk listed is a
    directory of the destination. *)
Lemma copy_recursively_makes_dirs env src t dst exts cb fs fs' es :
  copy_recursively env src t dst exts cb fs = (Ok tt, fs', es) ->
  forall p, In p (source_dirs t) -> is_dir fs' (dst ++ p) = true.
Proof.
  intros Hrun p Hp.
  rewrite copy_recursively_schedule in Hrun.
  destruct (foldM _ _ 0 fs) as [[[c|e] fs1] es1] eqn:Hfold; [|discriminate].
  injection Hrun as <- <-.
  apply all_dirs_is_dir.
  eapply run_settles_dirs; [|exact Hfold|].
  - intros q. apply schedule_mkdir_not_nil.
  - apply source_dirs_scheduled, Hp.
Qed.

Lemma source_dirs_listed files dirs d sub :
  In (d, sub) dirs -> In [d] (source_dirs (Dir files dirs)).
Proof.
  intros Hin. unfold source_dirs. simpl. apply in_or_app. left.
  apply in_map_iff. exists d. split; [reflexivity|].
  apply in_map_iff. exists (d, sub). auto.
Qed.

(** ** The loop over the destinations *)

Lemma sync_machine_cases env src t exts m fs :
  sync_machine env src t exts m fs =
  match ensure_path_mapped env (m_path m) (m_htype m) fs with
  | (Raised e, fs1, es1) => (Raised e, fs1, es1)
  | (Ok false, fs1, es1) =>
      (Ok tt, fs1,
       es1 ++ [LogCannotAccess (m_path m); ShowErrorMappingFailed (m_path m)])
  | (Ok true, fs1, es1) =>
      match copy_recursively env src t (m_path m) (Some exts) (Some update_progress) fs1 with
      | (Ok _, fs2, es2) =>
          (Ok tt, fs2,
           es1 ++ [Widget ResetProgress; LogStartingSync (m_name m) (m_path m)] ++
           es2 ++ [LogCompletedSync (m_name m)])
      | (Raised e, fs2, es2) =>
          (Ok tt, fs2,
           es1 ++ [Widget ResetProgress; LogStartingSync (m_name m) (m_path m)] ++
           es2 ++ [LogErrorCopyingTo (m_path m) e; ShowErrorCopyFailed (m_name m) e])
      end
  end.
Proof.
  unfold sync_machine, bind, try_except, emit.
  destruct (ensure_path_mapped _ _ _ fs) as [[[[|]|e] fs1] es1]; try reflexivity.
  simpl.
  destruct (copy_recursively _ _ _ _ _ _ fs1) as [[[[]|e] fs2] es2]; simpl;
    rewrite ?app_nil_r; reflexivity.
Qed.

Lemma sync_machine_total env src t exts m fs :
  exists fs' es, sync_machine env src t exts m fs = (Ok tt, fs', es).
Proof.
  rewrite sync_machine_cases.
  destruct (ensure_path_mapped_total env (m_path m) (m_htype m) fs)
    as ([|] & fs1 & es1 & ->); [|eauto].
  destruct (copy_recursively _ _ _ _ _ _ fs1) as [[[[]|e] fs2] es2]; eauto.
Qed.

Lemma for_each_sync_machine_total env src t exts ms : forall fs,
  exists fs' es, for_each ms (sync_machine env src t exts) fs = (Ok tt, fs', es).
Proof.
  unfold for_each. induction ms as [|m ms IH]; intros fs.
  - simpl. unfold ret. eauto.
  - rewrite foldM_cons.
    destruct (sync_machine_total env src t exts m fs) as (fs1 & es1 & Hm).
    destruct (IH fs1) as (fs2 & es2 & Hrest).
    erewrite bind_Ok by exact Hm. rewrite Hrest. eauto.
Qed.

Lemma sync_machine_run env src t exts m fs :
  exists fs' es,
    sync_machine env src t exts m fs = (Ok tt, fs', es) /\
    destination_run env src t exts m fs fs' es.
Proof.
  rewrite sync_machine_cases.
  destruct (ensure_path_mapped_total env (m_path m) (m_htype m) fs)
    as ([|] & fs1 & es1 & Hmap); rewrite Hmap.
  - destruct (copy_recursively env src t (m_path m) (Some exts) (Some update_progress) fs1)
      as [[[[]|e] fs2] es2] eqn:Hcopy; eexists _, _; (split; [reflexivity|]).
    + eapply destination_completed; eassumption.
    + eapply destination_aborted; eassumption.
  - eexists _, _. split; [reflexivity|]. apply destination_skipped, Hmap.
Qed.

Lemma for_each_sync_machine_run env src t exts ms : forall fs,
  exists fs' es,
    for_each ms (sync_machine env src t exts) fs = (Ok tt, fs', es) /\
    run_of_destinations env src t exts ms fs fs' es.
Proof.
  unfold for_each. induction ms as [|m ms IH]; intros fs.
  - exists fs, []. split; [reflexivity | constructor].
  - rewrite foldM_cons.
    destruct (sync_machine_run env src t exts m fs) as (fs1 & es1 & Hm & Hrun1).
    destruct (IH fs1) as (fs2 & es2 & Hrest & Hrun2).
    erewrite bind_Ok by exact Hm. rewrite Hrest.
    eexists _, _. split; [reflexivity|]. econstructor; eassumption.
Qed.

Lemma run_of_destinations_app env src t exts ms1 : forall ms2 fs fs1 es1 fs2 es2,
  run_of_destinations env src t exts ms1 fs fs1 es1 ->
  run_of_destinations env src t exts ms2 fs1 fs2 es2 ->
  run_of_destinations env src t exts (ms1 ++ ms2) fs fs2 (es1 ++ es2).
Proof.
  induction ms1 as [|m ms1 IH]; intros ms2 fs fs1 es1 fs2 es2 H1 H2.
  - inversion H1; subst. exact H2.
  - inversion H1 as [|m0 ms0 fs0 fsm esm fs1' es1' Hm Hrest]; subst.
    simpl. rewrite <- app_assoc. econstructor; [exact Hm|].
    eapply IH; eassumption.
Qed.

(** C6: a destination that cannot be reached is skipped and a destination
    whose copy raises is given up, each with its error reported, and a
    destination that can be reached and whose copy does not raise is
    synchronised to the end; the body of the loop never raises, so the loop
    goes over every destination of the list; [start_copy] is that loop
    over the selected destinations: each of them, in order, has its run
    from the file system the one before left - whatever happened to the
    others - and the final message follows the last of them; and when a
    destination leaves the file system as it found it, as one that cannot
    be reached does when nothing is mapped, the others end with the same
    file system and the same records as in a run without it. *)
Theorem destination_failures_are_isolated env src t exts :
  (forall m fs, exists fs' es, sync_machine env src t exts m fs = (Ok tt, fs', es)) /\
  (forall m fs fs1 es1,
      ensure_path_mapped env (m_path m) (m_htype m) fs = (Ok false, fs1, es1) ->
      sync_machine env src t exts m fs =
      (Ok tt, fs1, es1 ++ [LogCannotAccess (m_path m); ShowErrorMappingFailed (m_path m)])) /\
  (forall m fs fs1 es1 e fs2 es2,
      ensure_path_mapped env (m_path m) (m_htype m) fs = (Ok true, fs1, es1) ->
      copy_recursively env src t (m_path m) (Some exts) (Some update_progress) fs1 =
        (Raised e, fs2, es2) ->
      sync_machine env src t exts m fs =
      (Ok tt, fs2,
       es1 ++ [Widget ResetProgress; LogStartingSync (m_name m) (m_path m)] ++
       es2 ++ [LogErrorCopyingTo (m_path m) e; ShowErrorCopyFailed (m_name m) e])) /\
  (forall m fs fs1 es1 fs2 es2,
      ensure_path_mapped env (m_path m) (m_htype m) fs = (Ok true, fs1, es1) ->
      copy_recursively env src t (m_path m) (Some exts) (Some update_progress) fs1 =
        (Ok tt, fs2, es2) ->
      sync_machine env src t exts m fs =
      (Ok tt, fs2,
       es1 ++ [Widget ResetProgress; LogStartingSync (m_name m) (m_path m)] ++
       es2 ++ [LogCompletedSync (m_name m)])) /\
  (forall before m after fs,
      exists fs1 es1 fs2 es2 fs3 es3,
        for_each before (sync_machine env src t exts) fs = (Ok tt, fs1, es1) /\
        sync_machine env src t exts m fs1 = (Ok tt, fs2, es2) /\
        for_each after (sync_machine env src t exts) fs2 = (Ok tt, fs3, es3) /\
        for_each (before ++ m :: after) (sync_machine env src t exts) fs =
          (Ok tt, fs3, es1 ++ es2 ++ es3)) /\
  (forall app fs,
      source_path app = Some src ->
      ignored_extensions app = exts ->
      List.filter m_var (machine_vars app) <> [] ->
      exists fs' es,
        run_of_destinations env src t exts (List.filter m_var (machine_vars app))
                            fs fs' es /\
        start_copy env app (Some t) fs =
        (Ok tt, fs', es ++ [ShowInfoDone; Widget ResetProgress])) /\
  (forall before m after fs fs1 es_before es_m fs' es_after,
      run_of_destinations env src t exts before fs fs1 es_before ->
      destination_run env src t exts m fs1 fs1 es_m ->
      run_of_destinations env src t exts after fs1 fs' es_after ->
      run_of_destinations env src t exts (before ++ m :: after) fs fs'
                          (es_before ++ es_m ++ es_after) /\
      run_of_destinations env src t exts (before ++ after) fs fs'
                          (es_before ++ es_after)).
Proof.
  split; [|split; [|split; [|split; [|split; [|split]]]]].
  - intros m fs. apply sync_machine_total.
  - intros m fs fs1 es1 Hmap. rewrite sync_machine_cases, Hmap. reflexivity.
  - intros m fs fs1 es1 e fs2 es2 Hmap Hcopy.
    rewrite sync_machine_cases, Hmap, Hcopy. reflexivity.
  - intros m fs fs1 es1 fs2 es2 Hmap Hcopy.
    rewrite sync_machine_cases, Hmap, Hcopy. reflexivity.
  - intros before m after fs.
    destruct (for_each_sync_machine_total env src t exts before fs) as (fs1 & es1 & H1).
    destruct (sync_machine_total env src t exts m fs1) as (fs2 & es2 & H2).
    destruct (for_each_sync_machine_total env src t exts after fs2) as (fs3 & es3 & H3).
    exists fs1, es1, fs2, es2, fs3, es3. repeat split; try assumption.
    unfold for_each in *. rewrite foldM_app.
    erewrite bind_Ok by exact H1. rewrite foldM_cons.
    erewrite bind_Ok by exact H2. rewrite H3. reflexivity.
  - intros app fs Hsrc <- Hsel. unfold start_copy. rewrite Hsrc.
    destruct (for_each_sync_machine_run env src t (ignored_extensions app)
                (List.filter m_var (machine_vars app)) fs) as (fs1 & es1 & H1 & Hrun).
    exists fs1, es1. split; [exact Hrun|].
    destruct (List.filter m_var (machine_vars app)) as [|m ms]; [congruence|].
    erewrite bind_Ok by exact H1. reflexivity.
  - intros before m after fs fs1 es_before es_m fs' es_after Hb Hm Ha.
    split; eapply run_of_destinations_app; try eassumption.
    econstructor; eassumption.
Qed.

Lemma destination_failures_are_isolated_witness :
  sync_machine quiet_env ["src"] scenario_src [".tmp"] lost_share empty_mnt =
  (Ok tt, empty_mnt,
   [LogMustMountManually ["server"; "share"] "Linux"] ++
   [LogCannotAccess ["server"; "share"]; ShowErrorMappingFailed ["server"; "share"]]) /\
  sync_machine quiet_env ["src"] scenario_src [".tmp"] local_folder blocked_fs =
  (Ok tt, after_blocked_run,
   [] ++ [Widget ResetProgress; LogStartingSync "B" ["mnt"]] ++
   [] ++ [LogErrorCopyingTo ["mnt"] FileExistsError;
          ShowErrorCopyFailed "B" FileExistsError]) /\
  exists fs' es,
    run_of_destinations quiet_env ["src"] scenario_src [".tmp"]
                        [lost_share; local_folder] empty_mnt fs' es /\
    start_copy quiet_env two_machines_app (Some scenario_src) empty_mnt =
    (Ok tt, fs', es ++ [ShowInfoDone; Widget ResetProgress]).
Proof.
  pose proof (destination_failures_are_isolated quiet_env ["src"] scenario_src [".tmp"])
    as (_ & Hskip & Hraise & _ & _ & Hdone & _).
  split; [|split].
  - exact (Hskip lost_share empty_mnt empty_mnt
                 [LogMustMountManually ["server"; "share"] "Linux"] eq_refl).
  - apply (Hraise local_folder blocked_fs blocked_fs [] FileExistsError
                  after_blocked_run []).
    + apply ensure_path_mapped_local.
    + apply run_eta; vm_compute; reflexivity.
  - apply (Hdone two_machines_app empty_mnt eq_refl eq_refl). discriminate.
Defined.

(** The reachable destination of the two is synchronised in full. *)
Example second_destination_completes :
  let '(r, fs', es) :=
    start_copy quiet_env two_machines_app (Some scenario_src) empty_mnt in
  r = Ok tt /\
  es = [LogMustMountManually ["server"; "share"] "Linux";
        LogCannotAccess ["server"; "share"]; ShowErrorMappingFailed ["server"; "share"];
        Widget ResetProgress; LogStartingSync "B" ["mnt"];
        LogCopied ["src"; "a.txt"] ["mnt"; "a.txt"];
        ProgressCallback 1 2; Widget (SetProgress 1 2);
        LogSkippedIgnored "b.tmp";
        LogCompletedSync "B"; ShowInfoDone; Widget ResetProgress] /\
  fs' !! ["mnt"; "a.txt"] = Some (NFile (mk_stat 10 (3 # 2))) /\
  is_dir fs' ["mnt"; "empty"] = true.
Proof. vm_compute. repeat split. Qed.

(** A destination whose copy raises (a file stands where a directory is to
    be made) is given up with its error reported, and the next one is
    synchronised in full. *)
Example destination_after_exception_completes :
  let '(r, fs', es) :=
    start_copy quiet_env (mk_app (Some ["src"]) [local_folder; other_folder] [".tmp"])
               (Some scenario_src) blocked_fs in
  r = Ok tt /\
  es = [Widget ResetProgress; LogStartingSync "B" ["mnt"];
        LogErrorCopyingTo ["mnt"] FileExistsError;
        ShowErrorCopyFailed "B" FileExistsError;
        Widget ResetProgress; LogStartingSync "C" ["other"];
        LogCopied ["src"; "a.txt"] ["other"; "a.txt"];
        ProgressCallback 1 2; Widget (SetProgress 1 2);
        LogSkippedIgnored "b.tmp"; LogCompletedSync "C";
        ShowInfoDone; Widget ResetProgress] /\
  fs' !! ["other"; "a.txt"] = Some (NFile (mk_stat 10 (3 # 2))) /\
  is_dir fs' ["other"; "empty"] = true.
Proof. vm_compute. repeat split. Qed.

(** ** A source that is missing or cannot be read *)

(** C8, as amended: when no source is selected or the source path does not
    exist, [start_copy] reports the error and stops before any destination
    is looked at; nothing is copied to any of them. *)
Theorem missing_source_aborts env app disk fs :
  source_path app = None \/ disk = None ->
  start_copy env app disk fs = (Ok tt, fs, [ShowErrorSourceInvalid]).
Proof.
  unfold start_copy. intros [H|H]; rewrite H; [reflexivity|].
  destruct (source_path app); reflexivity.
Qed.

Lemma missing_source_aborts_witness :
  start_copy quiet_env two_machines_app None empty_mnt =
  (Ok tt, empty_mnt, [ShowErrorSourceInvalid]).
Proof.
  exact (missing_source_aborts quiet_env two_machines_app None empty_mnt
                               (or_intror eq_refl)).
Defined.

(** C8 as stated fails: a source root that exists but cannot be listed
    counts zero files, raises nothing, and the run to a reachable
    destination is logged as completed. *)
Lemma unreadable_source_is_silent :
  let '(r, fs', es) :=
    start_copy quiet_env (mk_app (Some ["src"]) [local_folder] [".tmp"])
               (Some Unreadable) empty_mnt in
  count_total_files ["src"] Unreadable = 0 /\
  r = Ok tt /\
  es = [Widget ResetProgress; LogStartingSync "B" ["mnt"]; LogCompletedSync "B";
        ShowInfoDone; Widget ResetProgress].
Proof. vm_compute. repeat split. Qed.

(** ** A destination base that does not exist *)

Lemma fs_wf_child_of_missing fs dst f :
  fs_wf fs -> dst <> [] -> fs !! dst = None -> fs !! (dst ++ [f]) = None.
Proof.
  intros Hwf Hne Hdst. destruct (fs !! (dst ++ [f])) as [n|] eqn:Hf; [|reflexivity].
  apply Hwf in Hf. rewrite parent_snoc in Hf.
  apply is_dir_lookup in Hf as [st Hst]; [congruence | exact Hne].
Qed.

Lemma process_file_missing_base env cb root dst exts total copied f st fs :
  fs_wf fs -> dst <> [] -> fs !! dst = None ->
  process_file env cb root dst exts total copied (f, st) fs =
  if is_ignored env exts f then (Ok copied, fs, [LogSkippedIgnored f])
  else (Ok (copied + 1), fs,
        LogErrorCopying (root ++ [f]) (dst ++ [f]) FileNotFoundError ::
        callback_events cb (copied + 1) total).
Proof.
  intros Hwf Hne Hdst. rewrite process_file_cases.
  destruct (is_ignored env exts f); [reflexivity|].
  pose proof (fs_wf_child_of_missing fs dst f Hwf Hne Hdst) as Hf.
  assert (Hdir : is_dir fs dst = false).
  { unfold is_dir. destruct dst; [congruence|]. rewrite Hdst. reflexivity. }
  assert (Hex : exists_ fs dst = false).
  { unfold exists_. destruct dst; [congruence|]. rewrite Hdst. reflexivity. }
  assert (Hneeds : needs_copy fs (Some st) (dst ++ [f]) = true).
  { unfold needs_copy, exists_. destruct (dst ++ [f]) eqn:E.
    - destruct dst; discriminate.
    - rewrite Hf. reflexivity. }
  rewrite Hneeds, shutil_copy2_cases.
  assert (Htarget : copy_target fs (root ++ [f]) (dst ++ [f]) = dst ++ [f]).
  { unfold copy_target, is_dir. destruct (dst ++ [f]) eqn:E; [destruct dst; discriminate|].
    rewrite Hf. reflexivity. }
  simpl. rewrite Htarget, parent_snoc, Hdir, Hex. reflexivity.
Qed.

Lemma foldM_process_file_missing_base env cb root dst exts total files fs :
  fs_wf fs -> dst <> [] -> fs !! dst = None ->
  forall copied,
    exists copied',
      foldM (process_file env cb root dst exts total) files copied fs =
      (Ok copied', fs, failed_copies env cb root dst exts total copied files).
Proof.
  intros Hwf Hne Hdst. induction files as [|[f st] files IH]; intros copied.
  - exists copied. reflexivity.
  - rewrite foldM_cons. unfold bind.
    rewrite process_file_missing_base by assumption. simpl.
    destruct (is_ignored env exts f).
    + destruct (IH copied) as (c' & ->). eauto.
    + destruct (IH (copied + 1)) as (c' & ->). exists c'.
      rewrite <- app_comm_cons. reflexivity.
Qed.

Lemma schedule_mkdir_below_base src dst t p :
  In (OpMkdir p) (schedule src dst t) -> exists rel d, p = (dst ++ rel) ++ [d].
Proof.
  unfold schedule. rewrite in_flat_map. intros ([[rel dirs] files] & _ & Hin).
  unfold ops_of_entry in Hin. apply in_app_or in Hin as [Hin|Hin];
    apply in_map_iff in Hin as (x & Hx & _); [|discriminate].
  injection Hx as <-. eauto.
Qed.

(** C10, as amended: a run that completes has created the subdirectories
    the walk listed, and every [mkdir] of a run is for a path strictly below
    the destination base, so the base is only ever created as a missing
    parent of such a path; when the base does not exist as copying starts
    and the source root lists no subdirectory, every copy of a top-level
    file that is not ignored fails and is only logged, the destination is
    left as it was, and the run ends normally and is logged as completed. *)
Theorem missing_base_fails_every_copy env src dst files fs :
  dst <> [] -> fs !! dst = None -> fs_wf fs ->
  (forall t exts cb fs0 fs' es,
      copy_recursively env src t dst exts cb fs0 = (Ok tt, fs', es) ->
      forall p, In p (source_dirs t) -> is_dir fs' (dst ++ p) = true) /\
  (forall t p, In (OpMkdir p) (schedule src dst t) ->
               p <> dst /\ exists rel d, p = (dst ++ rel) ++ [d]) /\
  (forall exts cb,
      copy_recursively env src (Dir files []) dst exts cb fs =
      (Ok tt, fs,
       failed_copies env cb src dst exts (Z.of_nat (List.length files)) 0 files)) /\
  (forall exts name htype fs0 es0,
      ensure_path_mapped env dst htype fs0 = (Ok true, fs, es0) ->
      sync_machine env src (Dir files []) exts (mk_machine name true dst htype) fs0 =
      (Ok tt, fs,
       es0 ++ [Widget ResetProgress; LogStartingSync name dst] ++
       failed_copies env (Some update_progress) src dst (Some exts)
                     (Z.of_nat (List.length files)) 0 files ++
       [LogCompletedSync name])).
Proof.
  intros Hne Hdst Hwf.
  assert (Hrun : forall exts cb,
             copy_recursively env src (Dir files []) dst exts cb fs =
             (Ok tt, fs,
              failed_copies env cb src dst exts (Z.of_nat (List.length files)) 0 files)).
  { intros exts cb. unfold copy_recursively.
    change (count_total_files src (Dir files []))
      with (Z.of_nat (List.length files)).
    change (walk src (Dir files [])) with [(src, @nil string, files)].
    unfold bind, ret. simpl foldM. unfold visit, bind, ret.
    rewrite relative_to_self, app_nil_r.
    change (for_each [] _ fs) with (@ret unit tt fs). unfold ret.
    destruct (foldM_process_file_missing_base env cb src dst exts
                (Z.of_nat (List.length files)) files fs Hwf Hne Hdst 0) as (c' & ->).
    simpl. rewrite !app_nil_r. reflexivity. }
  split; [|split; [|split]].
  - intros t exts cb fs0 fs' es. apply copy_recursively_makes_dirs.
  - intros t p Hp. split; [|eapply schedule_mkdir_below_base, Hp].
    apply schedule_mkdir_below_base in Hp as (rel & d & ->).
    intros Heq. apply (f_equal (@List.length string)) in Heq.
    rewrite !length_app in Heq. simpl in Heq. lia.
  - exact Hrun.
  - intros exts name htype fs0 es0 Hmap.
    rewrite sync_machine_cases. simpl. rewrite Hmap, Hrun. reflexivity.
Qed.

Lemma missing_base_fails_every_copy_witness :
  copy_recursively quiet_env ["src"] (Dir two_files []) ["server"; "share"]
                   (Some [".tmp"]) (Some update_progress) ∅ =
  (Ok tt, ∅,
   [LogErrorCopying ["src"; "a.txt"] ["server"; "share"; "a.txt"] FileNotFoundError;
    ProgressCallback 1 2; Widget (SetProgress 1 2);
    LogErrorCopying ["src"; "b.txt"] ["server"; "share"; "b.txt"] FileNotFoundError;
    ProgressCallback 2 2; Widget (SetProgress 2 2)]).
Proof.
  assert (H1 : ["server"; "share"] <> @nil string) by discriminate.
  assert (H2 : (∅ : filesystem) !! ["server"; "share"] = None) by reflexivity.
  assert (H3 : fs_wf ∅) by apply map_Forall_empty.
  exact (proj1 (proj2 (proj2 (missing_base_fails_every_copy quiet_env ["src"]
                                ["server"; "share"] two_files ∅ H1 H2 H3)))
               (Some [".tmp"]) (Some update_progress)).
Defined.

(** The same on Windows, through [start_copy]: [net use] reports success,
    the share is not visible, every copy fails and the run is logged as
    completed. *)
Example mapped_share_run_is_logged_completed :
  let '(r, fs', es) :=
    start_copy optimistic_env (mk_app (Some ["src"]) [mapped_share] [".tmp"])
               (Some (Dir two_files [])) ∅ in
  r = Ok tt /\ fs' = ∅ /\
  es = [LogTryingToMap ["server"; "share"]; LogMapped ["server"; "share"];
        Widget ResetProgress; LogStartingSync "S" ["server"; "share"];
        LogErrorCopying ["src"; "a.txt"] ["server"; "share"; "a.txt"] FileNotFoundError;
        ProgressCallback 1 2; Widget (SetProgress 1 2);
        LogErrorCopying ["src"; "b.txt"] ["server"; "share"; "b.txt"] FileNotFoundError;
        ProgressCallback 2 2; Widget (SetProgress 2 2);
        LogCompletedSync "S"; ShowInfoDone; Widget ResetProgress].
Proof. vm_compute. repeat split. Qed.

(** C10 as stated fails: the base does not exist, the source root has a
    subdirectory, and the [mkdir] of that subdirectory creates the base as
    a parent; the copy of the top-level file then succeeds. *)
Lemma missing_base_created_as_parent :
  let '(r, fs', es) :=
    copy_recursively quiet_env ["src"] scenario_src ["server"; "share"]
                     (Some [".tmp"]) (Some update_progress) ∅ in
  exists_ (∅ : filesystem) ["server"; "share"] = false /\
  r = Ok tt /\
  is_dir fs' ["server"; "share"] = true /\
  es = [LogCopied ["src"; "a.txt"] ["server"; "share"; "a.txt"];
        ProgressCallback 1 2; Widget (SetProgress 1 2);
        LogSkippedIgnored "b.tmp"].
Proof. vm_compute. repeat split. Qed.

(** ** The source is not written

    A run writes at the destination base, under it and above it, and
    nowhere else. *)

Lemma ancestors_from_prefix base rest q :
  In q (ancestors_from base rest) -> exists k, q = base ++ k /\ k `prefix_of` rest.
Proof.
  revert base. induction rest as [|r rest IH]; intros base Hin; [destruct Hin|].
  simpl in Hin. destruct rest as [|r' rest]; [destruct Hin|].
  destruct Hin as [<-|Hin].
  - exists [r]. split; [reflexivity|]. exists (r' :: rest). reflexivity.
  - apply IH in Hin as (k & -> & Hk). exists (r :: k).
    rewrite <- app_assoc. split; [reflexivity|]. apply prefix_cons, Hk.
Qed.

Lemma ancestors_prefix p q : In q (ancestors p ++ [p]) -> q `prefix_of` p.
Proof.
  intros Hin. apply in_app_or in Hin as [Hin|[<-|[]]]; [|reflexivity].
  apply ancestors_from_prefix in Hin as (k & -> & Hk). exact Hk.
Qed.

Lemma process_file_writes env cb root d exts total copied f st fs r fs' es :
  process_file env cb root d exts total copied (f, st) fs = (r, fs', es) ->
  fs' = fs \/
  (is_ignored env exts f = false /\
   is_dir fs (copy_target fs (root ++ [f]) (d ++ [f])) = false /\
   fs' = <[copy_target fs (root ++ [f]) (d ++ [f]) := NFile st]> fs).
Proof.
  rewrite process_file_cases.
  destruct (is_ignored env exts f) eqn:Hign; [intros [= <- <- <-]; auto|].
  destruct (needs_copy _ _ _); [|intros [= <- <- <-]; auto].
  destruct (shutil_copy2 _ _ _ _ _) as [[[[]|e] fs1] es1] eqn:Hcopy;
    intros [= <- <- <-]; [|auto].
  apply shutil_copy2_ok in Hcopy as (_ & -> & Hnd). auto.
Qed.

Lemma mkdir_one_frame env if_file p fs r fs' es q :
  mkdir_one env if_file p fs = (r, fs', es) -> q <> p -> fs' !! q = fs !! q.
Proof.
  rewrite mkdir_one_cases. intros Hrun Hq.
  destruct (fs !! p) as [[st|st]|]; try (injection Hrun as <- <- <-; reflexivity).
  destruct (mkdir_fault env p); injection Hrun as <- <- <-; [reflexivity|].
  apply lookup_insert_ne. congruence.
Qed.

Lemma for_each_mkdir_one_frame env if_file q ps : forall fs r fs' es,
  for_each ps (mkdir_one env if_file) fs = (r, fs', es) ->
  ~ In q ps -> fs' !! q = fs !! q.
Proof.
  unfold for_each. induction ps as [|p ps IH]; intros fs r fs' es Hrun Hq.
  - injection Hrun as <- <- <-. reflexivity.
  - rewrite foldM_cons in Hrun. unfold bind in Hrun.
    destruct (mkdir_one env if_file p fs) as [[[[]|e] fs1] es1] eqn:Hstep.
    + destruct (foldM _ ps tt fs1) as [[r2 fs2] es2] eqn:Hrest.
      injection Hrun as <- <- <-.
      rewrite (IH _ _ _ _ Hrest) by (intros H; apply Hq; right; exact H).
      eapply mkdir_one_frame; [exact Hstep|]. intros ->. apply Hq. left. reflexivity.
    + injection Hrun as <- <- <-.
      eapply mkdir_one_frame; [exact Hstep|]. intros ->. apply Hq. left. reflexivity.
Qed.

(** A [mkdir] changes nothing but the path and its ancestors. *)
Lemma mkdir_parents_exist_ok_frame env p fs r fs' es q :
  mkdir_parents_exist_ok env p fs = (r, fs', es) ->
  ~ q `prefix_of` p -> fs' !! q = fs !! q.
Proof.
  intros Hrun Hq. unfold mkdir_parents_exist_ok in Hrun.
  destruct p as [|c p]; [injection Hrun as <- <- <-; reflexivity|].
  assert (Hanc : ~ In q (ancestors (c :: p))).
  { intros Hin. apply Hq, ancestors_prefix, in_or_app. left. exact Hin. }
  unfold bind in Hrun.
  destruct (for_each _ _ fs) as [[[[]|e] fs1] es1] eqn:Hfor.
  - destruct (mkdir_one env FileExistsError (c :: p) fs1) as [[r2 fs2] es2] eqn:Hlast.
    injection Hrun as <- <- <-.
    rewrite (mkdir_one_frame _ _ _ _ _ _ _ q Hlast) by (intros ->; apply Hq; reflexivity).
    eapply for_each_mkdir_one_frame; eassumption.
  - injection Hrun as <- <- <-. eapply for_each_mkdir_one_frame; eassumption.
Qed.

Lemma unrelated_not_prefix_of_extension base k q :
  unrelated base q -> ~ q `prefix_of` base ++ k.
Proof.
  intros [Hbq Hqb] Hpre.
  destruct (prefix_weak_total q base (base ++ k) Hpre) as [H|H]; [|tauto|tauto].
  exists k. reflexivity.
Qed.

Lemma run_op_untouched_outside env cb exts total base copied o fs r fs' es :
  (forall p, o = OpMkdir p -> base `prefix_of` p) ->
  (forall root d file, o = OpFile root d file -> base `prefix_of` d) ->
  run_op env cb exts total copied o fs = (r, fs', es) ->
  untouched_outside base fs fs'.
Proof.
  destruct o as [p|root d [f st]]; intros Hmk Hfile Hrun q Hq.
  - rewrite run_op_mkdir in Hrun.
    destruct (mkdir_parents_exist_ok env p fs) as [[r1 fs1] es1] eqn:Hstep.
    assert (fs' = fs1) as -> by (destruct r1; congruence).
    eapply mkdir_parents_exist_ok_frame; [exact Hstep|].
    destruct (Hmk p eq_refl) as [k ->].
    apply unrelated_not_prefix_of_extension, Hq.
  - apply process_file_writes in Hrun as [->|(_ & _ & ->)]; [reflexivity|].
    apply lookup_insert_ne. intros Heq. destruct Hq as [Hbq _]. apply Hbq.
    destruct (Hfile root d (f, st) eq_refl) as [k ->].
    rewrite <- Heq. unfold copy_target.
    destruct (is_dir fs _); rewrite <- !app_assoc; eexists; reflexivity.
Qed.

Lemma copy_recursively_frame env src t dst exts cb fs r fs' es :
  copy_recursively env src t dst exts cb fs = (r, fs', es) ->
  untouched_outside dst fs fs'.
Proof.
  intros Hrun. rewrite copy_recursively_schedule in Hrun.
  destruct (foldM _ _ 0 fs) as [[r1 fs1] es1] eqn:Hfold.
  assert (fs' = fs1) as -> by (destruct r1; congruence).
  revert Hfold.
  apply (foldM_rel _ (untouched_outside dst)).
  - intros fs0 q _. reflexivity.
  - intros fs1' fs2' fs3' H12 H23 q Hq. rewrite (H23 q Hq). apply H12, Hq.
  - intros b o fs0 r0 fs0' es0 Hin. apply run_op_untouched_outside.
    + intros p ->. apply schedule_mkdir_source in Hin as (p' & -> & _).
      exists p'. reflexivity.
    + intros root d [f st] ->. apply schedule_file_source in Hin as (rel & -> & _).
      exists rel. reflexivity.
Qed.

Lemma unrelated_below src dst q : unrelated src dst -> src `prefix_of` q -> unrelated dst q.
Proof.
  intros [Hsd Hds] Hq. split; intros H.
  - destruct (prefix_weak_total src dst q Hq H); tauto.
  - apply Hsd. etransitivity; eassumption.
Qed.

(** With the source and the destination apart, a run leaves everything at
    and under the source root as it is: the two walks of a run, and the
    walks of a later run, find the same tree. *)
Lemma copy_recursively_keeps_source env src t dst exts cb fs r fs' es :
  unrelated src dst ->
  copy_recursively env src t dst exts cb fs = (r, fs', es) ->
  source_kept src fs fs'.
Proof.
  intros Hapart Hrun q Hq.
  eapply copy_recursively_frame; [exact Hrun|].
  eapply unrelated_below; eassumption.
Qed.

(** ** A second run finds nothing to do *)

Lemma files_are_identical_refl st : files_are_identical (Some st) (Some st) = true.
Proof. simpl. rewrite !Z.eqb_refl. reflexivity. Qed.

Lemma needs_copy_good fs st p :
  p <> [] -> needs_copy fs (Some st) p = false <-> good fs p st.
Proof.
  intros Hp. unfold needs_copy, good, exists_, stat.
  destruct p as [|c p]; [congruence|].
  destruct (fs !! (c :: p)) as [n|].
  - change (node_stat <$> Some n) with (Some (node_stat n)).
    destruct (files_are_identical (Some st) (Some (node_stat n))) eqn:Hid.
    + split; [intros _; exists n; auto | reflexivity].
    + split; [discriminate|]. intros (n' & [= <-] & Hn). congruence.
  - split; [cbn; discriminate|]. intros (n' & [=] & _).
Qed.

Lemma files_copied_app es1 es2 :
  files_copied (es1 ++ es2) = (files_copied es1 + files_copied es2)%nat.
Proof. unfold files_copied. rewrite List.filter_app, length_app. reflexivity. Qed.

Lemma errors_app es1 es2 : errors (es1 ++ es2) = (errors es1 + errors es2)%nat.
Proof. unfold errors. rewrite List.filter_app, length_app. reflexivity. Qed.

Lemma callback_events_quiet cb copied total :
  files_copied (callback_events cb copied total) = 0%nat /\
  errors (callback_events cb copied total) = 0%nat.
Proof.
  unfold files_copied, errors, callback_events. destruct cb as [cb|]; [|auto].
  simpl. induction (cb copied total) as [|e es [IH1 IH2]]; auto.
Qed.

(** A file processed without an error is settled, unless a directory stood
    at its destination and received the copy. *)
Lemma process_file_settles env cb root d exts total copied f st fs r fs' es :
  process_file env cb root d exts total copied (f, st) fs = (r, fs', es) ->
  errors es = 0%nat ->
  settled env fs' exts (OpFile root d (f, st)) \/
  (is_ignored env exts f = false /\ is_dir fs' (d ++ [f]) = true).
Proof.
  rewrite process_file_cases. simpl.
  destruct (is_ignored env exts f) eqn:Hign; [auto|].
  destruct (needs_copy fs (Some st) (d ++ [f])) eqn:Hneeds.
  - destruct (shutil_copy2 _ _ _ _ fs) as [[[[]|e] fs1] es1] eqn:Hcopy.
    + intros [= <- <- <-] _.
      apply shutil_copy2_ok in Hcopy as (_ & -> & Hnd).
      unfold copy_target in *. destruct (is_dir fs (d ++ [f])) eqn:Hd.
      * right. split; [reflexivity|].
        apply is_dir_lookup in Hd as [st' Hd]; [|apply snoc_not_nil].
        apply is_dir_lookup; [apply snoc_not_nil|]. exists st'.
        rewrite lookup_insert_ne; [exact Hd|].
        intros Heq. apply (f_equal (@List.length string)) in Heq.
        rewrite !length_app in Heq. simpl in Heq. lia.
      * left. right. exists (NFile st). rewrite lookup_insert_eq.
        split; [reflexivity | apply files_are_identical_refl].
    + intros [= <- <- <-]. discriminate.
  - intros [= <- <- <-] _. left. right.
    apply needs_copy_good; [apply snoc_not_nil | exact Hneeds].
Qed.

(** A settled file stays settled through the step of another file. *)
Lemma process_file_keeps_good env cb root d exts total copied f' st' fs r fs' es p st :
  process_file env cb root d exts total copied (f', st') fs = (r, fs', es) ->
  (d ++ [f'] = p -> st' = st) ->
  (is_ignored env exts f' = false -> is_dir fs (d ++ [f']) = false) ->
  good fs p st -> good fs' p st.
Proof.
  rewrite process_file_cases. intros Hstep Huniq Hnd Hgood.
  destruct (is_ignored env exts f'); [injection Hstep as <- <- <-; exact Hgood|].
  specialize (Hnd eq_refl).
  destruct (needs_copy fs (Some st') (d ++ [f']));
    [|injection Hstep as <- <- <-; exact Hgood].
  destruct (shutil_copy2 _ _ _ _ fs) as [[[[]|e] fs1] es1] eqn:Hcopy;
    injection Hstep as <- <- <-; [|exact Hgood].
  apply shutil_copy2_ok in Hcopy as (_ & -> & _).
  unfold copy_target. rewrite Hnd.
  destruct (decide (d ++ [f'] = p)) as [Heq|Hneq].
  - rewrite (Huniq Heq), Heq. exists (NFile st). rewrite lookup_insert_eq.
    split; [reflexivity | apply files_are_identical_refl].
  - destruct Hgood as (n & Hn & Hid). exists n.
    rewrite lookup_insert_ne by exact Hneq. auto.
Qed.

Lemma foldM_keeps_good env cb exts total p st ops : forall copied fs r fs' es,
  foldM (run_op env cb exts total) ops copied fs = (r, fs', es) ->
  (forall q, In (OpMkdir q) ops -> q <> []) ->
  (forall r' d f' st', In (OpFile r' d (f', st')) ops -> d ++ [f'] = p -> st' = st) ->
  no_dir_in_the_way env exts ops fs' ->
  good fs p st -> good fs' p st.
Proof.
  induction ops as [|o ops IH]; intros copied fs r fs' es Hrun Hne Huniq Hnodir Hgood.
  - injection Hrun as <- <- <-. exact Hgood.
  - pose proof (foldM_run_op_dirs_persist _ _ _ _ _ _ _ _ _ _ Hne Hrun) as Hpersist.
    rewrite foldM_cons in Hrun. unfold bind in Hrun.
    destruct (run_op env cb exts total copied o fs) as [[r1 fs1] es1] eqn:Hstep.
    assert (Hgood1 : good fs1 p st).
    { destruct o as [q|r' d [f' st']].
      - rewrite run_op_mkdir in Hstep.
        destruct (mkdir_parents_exist_ok env q fs) as [[r0 fs0] es0] eqn:Hmk.
        apply mkdir_parents_exist_ok_spec in Hmk as (_ & Hkeep & _);
          [|apply Hne; left; reflexivity].
        assert (fs1 = fs0) as -> by (destruct r0; congruence).
        destruct Hgood as (n & Hn & Hid). exists n. auto.
      - simpl in Hstep. eapply process_file_keeps_good; [exact Hstep| | |exact Hgood].
        + eapply Huniq. left. reflexivity.
        + intros Hign. destruct (is_dir fs (d ++ [f'])) eqn:Hd; [|reflexivity].
          apply (dirs_persist_is_dir _ _ _ Hpersist) in Hd.
          rewrite (Hnodir r' d f' st') in Hd;
            [discriminate | left; reflexivity | exact Hign]. }
    destruct r1 as [c1|e]; [|injection Hrun as <- <- <-; exact Hgood1].
    destruct (foldM _ ops c1 fs1) as [[r2 fs2] es2] eqn:Hrest.
    injection Hrun as <- <- <-.
    eapply IH; [exact Hrest| | | |exact Hgood1].
    + intros q Hq. apply Hne. right. exact Hq.
    + intros r' d f' st' Hin. eapply Huniq. right. exact Hin.
    + intros r' d f' s Hin. eapply Hnodir. right. exact Hin.
Qed.

(** After a run without an error, every step of the run is settled. *)
Lemma settled_after_run env cb exts total ops : forall copied fs copied' fs' es,
  foldM (run_op env cb exts total) ops copied fs = (Ok copied', fs', es) ->
  errors es = 0%nat ->
  (forall q, In (OpMkdir q) ops -> q <> []) ->
  one_file_per_path ops ->
  no_dir_in_the_way env exts ops fs' ->
  forall o, In o ops -> settled env fs' exts o.
Proof.
  induction ops as [|o ops IH];
    intros copied fs copied' fs' es Hrun Herr Hne Huniq Hnodir o' Hin; [destruct Hin|].
  pose proof Hrun as Hwhole.
  rewrite foldM_cons in Hrun. unfold bind in Hrun.
  destruct (run_op env cb exts total copied o fs) as [[[c1|e] fs1] es1] eqn:Hstep;
    [|discriminate].
  destruct (foldM _ ops c1 fs1) as [[r2 fs2] es2] eqn:Hrest.
  injection Hrun as -> <- <-.
  rewrite errors_app in Herr.
  assert (Hne' : forall q, In (OpMkdir q) ops -> q <> [])
    by (intros q Hq; apply Hne; right; exact Hq).
  assert (Hnodir' : no_dir_in_the_way env exts ops fs2)
    by (intros r' d f' s Hq; eapply Hnodir; right; exact Hq).
  pose proof (foldM_run_op_dirs_persist _ _ _ _ _ _ _ _ _ _ Hne' Hrest) as Hpersist.
  destruct Hin as [<-|Hin].
  - destruct o as [q|r' d [f st]].
    + simpl. eapply run_settles_dirs; [exact Hne|exact Hwhole|left; reflexivity].
    + simpl in Hstep.
      apply process_file_settles in Hstep as [[Hign|Hgood]|[Hign Hdir]]; [| | |lia].
      * left. exact Hign.
      * right. eapply foldM_keeps_good; [exact Hrest|exact Hne'| |exact Hnodir'|exact Hgood].
        intros r2' d2 f2 st2 Hin2 Heq. symmetry.
        eapply (Huniq r' d f st r2' d2 f2 st2); [left; reflexivity|right; exact Hin2|].
        symmetry. exact Heq.
      * apply (dirs_persist_is_dir _ _ _ Hpersist) in Hdir.
        rewrite (Hnodir r' d f st) in Hdir;
          [discriminate | left; reflexivity | exact Hign].
  - eapply IH; [exact Hrest|lia|exact Hne'| |exact Hnodir'|exact Hin].
    intros r1' d1 f1 s1 r2' d2 f2 s2 H1 H2. eapply Huniq; right; eassumption.
Qed.

(** A run all of whose steps are settled changes nothing, copies nothing
    and logs no error. *)
Lemma settled_run env cb exts total ops : forall copied fs,
  (forall o, In o ops -> settled env fs exts o) ->
  exists copied' es,
    foldM (run_op env cb exts total) ops copied fs = (Ok copied', fs, es) /\
    files_copied es = 0%nat /\ errors es = 0%nat.
Proof.
  induction ops as [|o ops IH]; intros copied fs Hall.
  - exists copied, []. auto.
  - assert (Hstep : exists c1 es1,
               run_op env cb exts total copied o fs = (Ok c1, fs, es1) /\
               files_copied es1 = 0%nat /\ errors es1 = 0%nat).
    { pose proof (Hall o (or_introl eq_refl)) as Ho.
      destruct o as [q|r d [f st]].
      - rewrite run_op_mkdir, mkdir_parents_exist_ok_noop by exact Ho.
        exists copied, []. auto.
      - unfold run_op. cbn [settled] in Ho. rewrite process_file_cases.
        destruct (is_ignored env exts f) eqn:Hign; [exists copied; eauto|].
        destruct Ho as [Ho|Ho]; [discriminate|].
        apply needs_copy_good in Ho; [|apply snoc_not_nil]. rewrite Ho.
        eexists _, _. split; [reflexivity|].
        destruct (callback_events_quiet cb (copied + 1) total) as [Hc He].
        split; [exact Hc | exact He]. }
    destruct Hstep as (c1 & es1 & Hstep & Hc1 & He1).
    destruct (IH c1 fs) as (c2 & es2 & Hrest & Hc2 & He2).
    { intros o' Ho'. apply Hall. right. exact Ho'. }
    exists c2, (es1 ++ es2). rewrite foldM_cons.
    erewrite bind_Ok by exact Hstep. rewrite Hrest.
    rewrite files_copied_app, errors_app. repeat split; lia.
Qed.

Lemma NoDup_fst_functional {A B} (l : list (A * B)) a b1 b2 :
  NoDup (map fst l) -> In (a, b1) l -> In (a, b2) l -> b1 = b2.
Proof.
  induction l as [|[a' b'] l IH]; intros Hnd H1 H2; [destruct H1|].
  simpl in Hnd. apply NoDup_cons in Hnd as [Hnotin Hnd].
  assert (Hfst : forall b, In (a', b) l -> False).
  { intros b Hb. apply Hnotin. apply list_elem_of_In, in_map_iff. exists (a', b). auto. }
  simpl in H1, H2. destruct H1 as [H1|H1]; destruct H2 as [H2|H2].
  - congruence.
  - injection H1 as -> ->. exfalso. eapply Hfst, H2.
  - injection H2 as -> ->. exfalso. eapply Hfst, H1.
  - apply IH; assumption.
Qed.

(** C5, as amended: after a first run that completed without an error, and
    provided the source tree and the destination tree lie apart (neither
    root is under the other), the source has no two files at one path and
    no file that is not ignored has a directory at its place in the
    destination: the first run has left the source as it was, every such
    file is classified as identical, and a second run over the unchanged
    source and destination completes, leaves the destination and the
    source as they are, copies no file and logs no error. *)
Theorem second_run_copies_nothing env src t dst exts cb fs fs1 es1 :
  unrelated src dst ->
  NoDup (map fst (source_files t)) ->
  copy_recursively env src t dst exts cb fs = (Ok tt, fs1, es1) ->
  errors es1 = 0%nat ->
  (forall p st, In (p, st) (source_files t) ->
                is_ignored env exts (basename p) = false ->
                is_dir fs1 (dst ++ p) = false) ->
  source_kept src fs fs1 /\
  (forall p st, In (p, st) (source_files t) ->
                is_ignored env exts (basename p) = false ->
                needs_copy fs1 (Some st) (dst ++ p) = false) /\
  exists es2,
    copy_recursively env src t dst exts cb fs1 = (Ok tt, fs1, es2) /\
    files_copied es2 = 0%nat /\ errors es2 = 0%nat.
Proof.
  intros Hapart Hnodup Hrun Herr Hnodir.
  split; [eapply copy_recursively_keeps_source; eassumption|].
  rewrite copy_recursively_schedule in Hrun.
  destruct (foldM _ _ 0 fs) as [[[c|e] fs'] es] eqn:Hfold; [|discriminate].
  injection Hrun as -> ->.
  assert (Hsettled : forall o, In o (schedule src dst t) -> settled env fs1 exts o).
  { eapply settled_after_run; [exact Hfold|exact Herr| | |].
    - intros q. apply schedule_mkdir_not_nil.
    - intros r1 d1 f1 s1 r2 d2 f2 s2 H1 H2 Heq.
      apply schedule_file_source in H1 as (rel1 & -> & H1).
      apply schedule_file_source in H2 as (rel2 & -> & H2).
      rewrite <- !app_assoc in Heq. apply app_inv_head in Heq.
      rewrite Heq in H1. eapply NoDup_fst_functional; eassumption.
    - intros r d f s Hin Hign.
      apply schedule_file_source in Hin as (rel & -> & Hin).
      rewrite <- app_assoc. apply (Hnodir _ s Hin).
      rewrite basename_snoc. exact Hign. }
  split.
  - intros p st Hin Hign.
    apply (source_file_scheduled src dst) in Hin as (rel & f & -> & Hin).
    rewrite basename_snoc in Hign.
    apply Hsettled in Hin. simpl in Hin. destruct Hin as [Hin|Hin]; [congruence|].
    rewrite app_assoc. apply needs_copy_good; [apply snoc_not_nil | exact Hin].
  - destruct (settled_run env cb exts (count_total_files src t) (schedule src dst t)
                0 fs1 Hsettled) as (c2 & es2 & Hrun2 & Hc & He).
    exists es2. rewrite copy_recursively_schedule, Hrun2. auto.
Qed.

Lemma second_run_copies_nothing_witness :
  exists es2,
    copy_recursively quiet_env ["src"] scenario_src ["mnt"] (Some [".tmp"])
                     (Some update_progress) after_first_run =
    (Ok tt, after_first_run, es2) /\
    files_copied es2 = 0%nat /\ errors es2 = 0%nat.
Proof.
  assert (H1 : NoDup (map fst (source_files scenario_src))).
  { apply (bool_decide_unpack _). vm_compute. exact I. }
  assert (H2 : copy_recursively quiet_env ["src"] scenario_src ["mnt"] (Some [".tmp"])
                                (Some update_progress) empty_mnt =
               (Ok tt, after_first_run, snd first_run)).
  { apply run_eta; [vm_compute|]; reflexivity. }
  assert (H3 : errors (snd first_run) = 0%nat) by (vm_compute; reflexivity).
  assert (H4 : forall p st, In (p, st) (source_files scenario_src) ->
                            is_ignored quiet_env (Some [".tmp"]) (basename p) = false ->
                            is_dir after_first_run (["mnt"] ++ p) = false).
  { intros p st [[= <- <-]|[[= <- <-]|[]]] _; vm_compute; reflexivity. }
  assert (H0 : unrelated ["src"] ["mnt"]) by (split; intros [k Hk]; discriminate).
  exact (proj2 (proj2 (second_run_copies_nothing quiet_env ["src"] scenario_src ["mnt"]
                         (Some [".tmp"]) (Some update_progress) empty_mnt
                         after_first_run (snd first_run) H0 H1 H2 H3 H4))).
Defined.

(** C5 as stated fails: the destination has a directory named like a file
    of the source; the first run copies the file into that directory
    without an error, and the second run copies it again. *)
Lemma second_run_copies_again :
  let '(r1, fs1, es1) :=
    copy_recursively quiet_env ["src"] clash_src ["mnt"] None None clash_fs in
  let '(r2, fs2, es2) :=
    copy_recursively quiet_env ["src"] clash_src ["mnt"] None None fs1 in
  r1 = Ok tt /\ errors es1 = 0%nat /\
  fs1 !! ["mnt"; "a.txt"; "a.txt"] = Some (NFile (mk_stat 10 (3 # 2))) /\
  is_dir fs1 ["mnt"; "a.txt"] = true /\
  r2 = Ok tt /\
  es2 = [LogCopied ["src"; "a.txt"] ["mnt"; "a.txt"]] /\
  files_copied es2 = 1%nat.
Proof. vm_compute. repeat split. Qed.

(** ** Progress *)

Lemma progress_calls_app es1 es2 :
  progress_calls (es1 ++ es2) = progress_calls es1 ++ progress_calls es2.
Proof. apply flat_map_app. Qed.

Lemma progress_calls_callback cb copied total :
  progress_calls (callback_events (Some cb) copied total) = [(copied, total)].
Proof.
  unfold callback_events. simpl. f_equal.
  induction (cb copied total) as [|e es IH]; [reflexivity | exact IH].
Qed.

(** The callback is called once for each file that is not ignored, with
    the counter going up by one each time; a file that is ignored leaves
    the counter as it is and calls nothing. *)
Lemma progress_of_run env cb exts total ops : forall copied fs copied' fs' es,
  foldM (run_op env (Some cb) exts total) ops copied fs = (Ok copied', fs', es) ->
  copied' = copied + Z.of_nat (processed env exts ops) /\
  progress_calls es =
  map (fun i => (copied + Z.of_nat i, total)) (seq 1 (processed env exts ops)).
Proof.
  unfold processed.
  induction ops as [|o ops IH]; intros copied fs copied' fs' es Hrun.
  - injection Hrun as <- <- <-. simpl. split; [lia | reflexivity].
  - rewrite foldM_cons in Hrun. unfold bind in Hrun.
    destruct (run_op env (Some cb) exts total copied o fs) as [[[c1|e] fs1] es1] eqn:Hstep;
      [|discriminate].
    destruct (foldM _ ops c1 fs1) as [[r2 fs2] es2] eqn:Hrest.
    injection Hrun as -> <- <-.
    apply IH in Hrest as [-> Hcalls]. rewrite progress_calls_app, Hcalls.
    destruct o as [q|r d [f st]].
    + rewrite run_op_mkdir in Hstep.
      destruct (mkdir_parents_exist_ok env q fs) as [[[[]|e] fs0] es0] eqn:Hmk;
        [|discriminate].
      injection Hstep as <- <- <-.
      apply mkdir_parents_exist_ok_silent in Hmk as ->.
      simpl. auto.
    + unfold run_op in Hstep. rewrite process_file_cases in Hstep. simpl.
      destruct (is_ignored env exts f); simpl.
      * injection Hstep as <- <- <-. simpl. auto.
      * assert (Hc1 : c1 = copied + 1 /\
                      progress_calls es1 = [(copied + 1, total)]).
        { destruct (needs_copy _ _ _).
          - destruct (shutil_copy2 _ _ _ _ _) as [[[[]|e] fs0] es0];
              injection Hstep as <- <- <-; split; try reflexivity;
              apply (progress_calls_callback cb).
          - injection Hstep as <- <- <-. split; [reflexivity|].
            apply (progress_calls_callback cb). }
        destruct Hc1 as [-> ->]. split; [lia|].
        cbn [app seq map].
        replace (copied + Z.of_nat 1) with (copied + 1) by lia. f_equal.
        rewrite <- (seq_shift _ 1), map_map. apply map_ext. intros i. f_equal. lia.
Qed.

Lemma count_total_files_source_files src t :
  count_total_files src t = Z.of_nat (List.length (source_files t)).
Proof.
  unfold count_total_files, source_files. rewrite walk_relative.
  generalize (walk [] t). intros l.
  enough (H : forall acc,
             fold_left (fun total '(_, _, files) => total + Z.of_nat (List.length files))
                       (map (shift src) l) acc =
             acc + Z.of_nat (List.length
                     (flat_map (fun '(rel, _, files) =>
                                  map (fun '(f, st) => (rel ++ [f], st)) files) l)))
    by (rewrite H; lia).
  induction l as [|[[rel dirs] files] l IH]; intros acc; simpl.
  - lia.
  - rewrite IH, length_app, length_map. lia.
Qed.

Lemma processed_schedule env src dst exts t :
  processed env exts (schedule src dst t) = files_decided env exts t.
Proof.
  unfold processed, files_decided, schedule, source_files.
  induction (walk [] t) as [|[[rel dirs] files] l IH]; [reflexivity|].
  simpl. rewrite !List.filter_app, !length_app, IH. f_equal.
  assert (Hdirs : List.filter (is_processed env exts)
                    (map (fun d => OpMkdir ((dst ++ rel) ++ [d])) dirs) = []).
  { induction dirs as [|d dirs IHd]; [reflexivity | exact IHd]. }
  rewrite Hdirs. simpl.
  induction files as [|[f st] files IHf]; [reflexivity|].
  simpl. unfold not_ignored at 1. simpl. rewrite basename_snoc.
  destruct (is_ignored env exts f); simpl; rewrite IHf; reflexivity.
Qed.

(** What the callback sees in a run that completes: the total is the
    number of all the files of the source, and the counter takes the
    values 1, 2, ... up to the number of files that are not ignored. *)
Lemma progress_of_copy_recursively env src t dst exts cb fs fs' es :
  copy_recursively env src t dst exts (Some cb) fs = (Ok tt, fs', es) ->
  progress_calls es =
  map (fun i => (Z.of_nat i, Z.of_nat (List.length (source_files t))))
      (seq 1 (files_decided env exts t)).
Proof.
  rewrite copy_recursively_schedule.
  destruct (foldM _ _ 0 fs) as [[[c|e] fs1] es1] eqn:Hfold; [|discriminate].
  intros [= <- <-].
  apply progress_of_run in Hfold as [_ ->].
  rewrite processed_schedule, count_total_files_source_files. reflexivity.
Qed.

(** C2 on the scenario of the specification: two files are counted, one of
    them is ignored; the callback is called once, with (1, 2), nothing is
    reported after the ignored file, and the last value reported is 1. *)
Theorem progress_stops_short_of_total :
  count_total_files ["src"] scenario_src = 2 /\
  let '(r, fs', es) :=
    copy_recursively quiet_env ["src"] scenario_src ["mnt"] (Some [".tmp"])
                     (Some no_progress_bar) empty_mnt in
  r = Ok tt /\
  es = [LogCopied ["src"; "a.txt"] ["mnt"; "a.txt"]; ProgressCallback 1 2;
        LogSkippedIgnored "b.tmp"] /\
  progress_calls es = [(1, 2)].
Proof. vm_compute. repeat split. Qed.

(** ** Runs that complete *)

Lemma for_each_mkdir_one_completes env if_file ps : forall fs,
  (forall p, mkdir_fault env p = None) ->
  (forall q st, In q ps -> fs !! q <> Some (NFile st)) ->
  exists fs', for_each ps (mkdir_one env if_file) fs = (Ok tt, fs', []).
Proof.
  unfold for_each. induction ps as [|p ps IH]; intros fs Hfault Hclear.
  - exists fs. reflexivity.
  - rewrite foldM_cons. unfold bind.
    assert (Hstep : exists fs1, mkdir_one env if_file p fs = (Ok tt, fs1, [])).
    { rewrite mkdir_one_cases, Hfault.
      destruct (fs !! p) as [[st|st]|] eqn:Hp; eauto.
      exfalso. apply (Hclear p st); [left; reflexivity | exact Hp]. }
    destruct Hstep as (fs1 & Hstep). rewrite Hstep.
    apply mkdir_one_spec in Hstep as (_ & _ & _ & Hnew & _).
    destruct (IH fs1 Hfault) as (fs2 & ->); [|eauto].
    intros q st Hq Hlook. apply Hnew in Hlook as [Hlook|[st' [=]]].
    apply (Hclear q st); [right; exact Hq | exact Hlook].
Qed.

Lemma mkdir_parents_exist_ok_completes env p fs :
  (forall q, mkdir_fault env q = None) ->
  (forall q st, In q (ancestors p ++ [p]) -> fs !! q <> Some (NFile st)) ->
  exists fs', mkdir_parents_exist_ok env p fs = (Ok tt, fs', []).
Proof.
  intros Hfault Hclear. unfold mkdir_parents_exist_ok.
  destruct p as [|c p]; [exists fs; reflexivity|].
  destruct (for_each_mkdir_one_completes env NotADirectoryError (ancestors (c :: p)) fs
              Hfault) as (fs1 & Hanc).
  { intros q st Hq. apply Hclear. apply in_or_app. left. exact Hq. }
  unfold bind. rewrite Hanc.
  apply for_each_mkdir_one in Hanc as (_ & _ & Hnew & _).
  rewrite mkdir_one_cases, Hfault.
  destruct (fs1 !! (c :: p)) as [[st|st]|] eqn:Hp; eauto.
  exfalso. apply Hnew in Hp as [Hp|[st' [=]]].
  apply (Hclear (c :: p) st); [|exact Hp]. apply in_or_app. right. left. reflexivity.
Qed.

(** With no fault of [mkdir] and no file where a directory is to be, and
    if no file is ever written on such a path, every step returns. *)
Lemma run_completes env cb exts total (targets : list path) ops :
  (forall q, mkdir_fault env q = None) ->
  (forall p, In (OpMkdir p) ops ->
             p <> [] /\ forall q, In q (ancestors p ++ [p]) -> In q targets) ->
  (forall r d f st k, In (OpFile r d (f, st)) ops -> ~ In ((d ++ [f]) ++ k) targets) ->
  forall copied fs,
    clear_for_dirs fs targets ->
    exists copied' fs' es,
      foldM (run_op env cb exts total) ops copied fs = (Ok copied', fs', es).
Proof.
  intros Hfault. induction ops as [|o ops IH]; intros Hmk Hfile copied fs Hclear.
  - exists copied, fs, []. reflexivity.
  - assert (Hstep : exists c1 fs1 es1,
               run_op env cb exts total copied o fs = (Ok c1, fs1, es1) /\
               clear_for_dirs fs1 targets).
    { destruct o as [p|r d [f st]].
      - destruct (Hmk p (or_introl eq_refl)) as [Hp Hin].
        destruct (mkdir_parents_exist_ok_completes env p fs Hfault) as (fs1 & Hrun).
        { intros q st Hq. apply Hclear, Hin, Hq. }
        rewrite run_op_mkdir, Hrun. exists copied, fs1, []. split; [reflexivity|].
        apply mkdir_parents_exist_ok_spec in Hrun as (_ & _ & Hnew & _); [|exact Hp].
        intros q st Hq Hlook. apply Hnew in Hlook as [Hlook|[st' [=]]].
        apply (Hclear q st Hq Hlook).
      - unfold run_op. rewrite process_file_cases.
        destruct (is_ignored env exts f); [eauto 6|].
        destruct (needs_copy fs (Some st) (d ++ [f])); [|eauto 6].
        destruct (shutil_copy2 _ _ _ _ fs) as [[[[]|e] fs0] es0] eqn:Hcopy; [|eauto 6].
        apply shutil_copy2_ok in Hcopy as (_ & -> & _).
        eexists _, _, _. split; [reflexivity|].
        intros q st' Hq Hlook. rewrite lookup_insert_ne in Hlook.
        + apply (Hclear q st' Hq Hlook).
        + intros <-. unfold copy_target in Hq.
          destruct (is_dir fs (d ++ [f])).
          * apply (Hfile r d f st [basename (r ++ [f])] (or_introl eq_refl) Hq).
          * apply (Hfile r d f st [] (or_introl eq_refl)). rewrite app_nil_r. exact Hq. }
    destruct Hstep as (c1 & fs1 & es1 & Hstep & Hclear1).
    destruct (IH (fun p Hp => Hmk p (or_intror Hp))
                 (fun r d f st k Hin => Hfile r d f st k (or_intror Hin))
                 c1 fs1 Hclear1) as (c2 & fs2 & es2 & Hrest).
    rewrite foldM_cons. erewrite bind_Ok by exact Hstep. rewrite Hrest. eauto.
Qed.

Lemma copy_recursively_completes env src t dst exts cb fs :
  (forall q, mkdir_fault env q = None) ->
  no_name_clash t ->
  clear_for_dirs fs (dir_targets dst t) ->
  exists fs' es, copy_recursively env src t dst exts cb fs = (Ok tt, fs', es).
Proof.
  intros Hfault Hclash Hclear. rewrite copy_recursively_schedule.
  destruct (run_completes env cb exts (count_total_files src t) (dir_targets dst t)
              (schedule src dst t) Hfault) with (copied := 0) (fs := fs)
    as (c & fs' & es & ->); [| |exact Hclear|eauto].
  - intros p Hp. split; [eapply schedule_mkdir_not_nil, Hp|].
    intros q Hq. unfold dir_targets. apply in_flat_map.
    apply schedule_mkdir_source in Hp as (p' & -> & Hp'). eauto.
  - intros r d f st k Hin Htarget.
    apply schedule_file_source in Hin as (rel & -> & Hin).
    unfold dir_targets in Htarget. apply in_flat_map in Htarget as (p' & Hp' & Hq).
    apply ancestors_prefix in Hq.
    apply (Hclash _ _ _ Hin Hp').
    rewrite <- !app_assoc in Hq. apply prefix_app_inv in Hq.
    destruct Hq as [k' Hk']. exists (k ++ k'). rewrite Hk', <- !app_assoc. reflexivity.
Qed.

(** C9: when a directory of the source is visited, the subdirectories it
    lists are created under the destination, where they are absent, before
    any of its files is processed (if a [mkdir] raises, no file of the
    directory has been touched); so after a run that completes, every
    subdirectory the walk listed is a directory of the destination, an
    empty one included; and a run completes when [mkdir] meets no fault and
    no file where a directory is to be. *)
Theorem subdirectories_created_first env cb src dst exts t :
  (forall rel dirs files total copied fs,
      In (rel, dirs, files) (walk [] t) ->
      match for_each dirs (fun d => mkdir_parents_exist_ok env ((dst ++ rel) ++ [d])) fs with
      | (Ok _, fs1, es1) =>
          es1 = [] /\
          (forall q n, fs !! q = Some n -> fs1 !! q = Some n) /\
          (forall d, In d dirs -> is_dir fs1 ((dst ++ rel) ++ [d]) = true) /\
          visit env cb src dst exts total copied (src ++ rel, dirs, files) fs =
          foldM (process_file env cb (src ++ rel) (dst ++ rel) exts total) files copied fs1
      | (Raised e, fs1, es1) =>
          visit env cb src dst exts total copied (src ++ rel, dirs, files) fs =
          (Raised e, fs1, [])
      end) /\
  (forall fs fs' es,
      copy_recursively env src t dst exts cb fs = (Ok tt, fs', es) ->
      forall p, In p (source_dirs t) -> is_dir fs' (dst ++ p) = true) /\
  (forall fs,
      (forall q, mkdir_fault env q = None) ->
      no_name_clash t ->
      clear_for_dirs fs (dir_targets dst t) ->
      exists fs' es,
        copy_recursively env src t dst exts cb fs = (Ok tt, fs', es) /\
        forall p, In p (source_dirs t) -> is_dir fs' (dst ++ p) = true) /\
  (forall files dirs d,
      t = Dir files dirs -> In (d, Dir [] []) dirs -> In [d] (source_dirs t)).
Proof.
  assert (Hdone : forall fs fs' es,
             copy_recursively env src t dst exts cb fs = (Ok tt, fs', es) ->
             forall p, In p (source_dirs t) -> is_dir fs' (dst ++ p) = true)
    by (intros fs fs' es; apply copy_recursively_makes_dirs).
  assert (Hne : forall rel dirs,
             Forall (fun p : path => p <> [])
                    (map (fun d => (dst ++ rel) ++ [d]) dirs)).
  { intros rel dirs. apply Forall_forall. intros p Hp.
    apply list_elem_of_In, in_map_iff in Hp as (d & <- & _). apply snoc_not_nil. }
  split; [|split; [exact Hdone|split]].
  - intros rel dirs files total copied fs _.
    unfold visit. rewrite relative_to_app. unfold bind.
    destruct (for_each dirs _ fs) as [[[[]|e] fs1] es1] eqn:Hmk;
      unfold for_each in Hmk;
      rewrite <- (foldM_map (fun _ p => mkdir_parents_exist_ok env p)
                            (fun d => (dst ++ rel) ++ [d])) in Hmk;
      apply for_each_mkdir_parents in Hmk as (-> & Hkeep & _ & Hdirs);
      try apply Hne; [|reflexivity].
    repeat split.
    + exact Hkeep.
    + intros d Hd. apply all_dirs_is_dir.
      pose proof (Hdirs eq_refl) as Hall. rewrite Forall_forall in Hall.
      apply Hall. apply list_elem_of_In, in_map_iff. eauto.
    + destruct (foldM _ files copied fs1) as [[r fs2] es2]. reflexivity.
  - intros fs Hfault Hclash Hclear.
    destruct (copy_recursively_completes env src t dst exts cb fs Hfault Hclash Hclear)
      as (fs' & es & Hrun).
    exists fs', es. split; [exact Hrun|]. exact (Hdone fs fs' es Hrun).
  - intros files dirs d -> Hin. eapply source_dirs_listed, Hin.
Qed.

Lemma subdirectories_created_first_witness :
  In ["empty"] (source_dirs scenario_src) /\
  exists fs' es,
    copy_recursively quiet_env ["src"] scenario_src ["mnt"] (Some [".tmp"])
                     (Some update_progress) empty_mnt = (Ok tt, fs', es) /\
    forall p, In p (source_dirs scenario_src) -> is_dir fs' (["mnt"] ++ p) = true.
Proof.
  pose proof (subdirectories_created_first quiet_env (Some update_progress) ["src"]
                ["mnt"] (Some [".tmp"]) scenario_src) as (_ & _ & Hruns & Hempty).
  split.
  - apply (Hempty _ _ "empty" eq_refl). left. reflexivity.
  - apply Hruns.
    + intros q. reflexivity.
    + intros p st p' [[= <- <-]|[[= <- <-]|[]]] [<-|[]] [k Hk]; discriminate.
    + intros q st [<-|[<-|[]]]; vm_compute; discriminate.
Defined.

(** * Part V: further properties of the engine *)

(** ** What a run leaves alone *)








(** ** Nothing outside the destination *)





(** The base itself and its parent are made when they are missing. *)
Example missing_parents_are_made :
  let fs' := snd (fst (copy_recursively quiet_env ["src"] scenario_src
                         ["server"; "share"] (Some [".tmp"]) None ∅)) in
  (∅ : filesystem) !! ["server"] = None /\
  fs' !! ["server"] = Some (NDir (mk_stat 4096 0)) /\
  fs' !! ["server"; "share"] = Some (NDir (mk_stat 4096 0)).
Proof. vm_compute. repeat split. Qed.

(** ** Every file is accounted for *)

Lemma filter_callback_events (f : event -> bool) cb copied total :
  (forall c t, f (ProgressCallback c t) = false) ->
  (forall w, f (Widget w) = false) ->
  List.filter f (callback_events cb copied total) = [].
Proof.
  intros Hcall Hwidget. unfold callback_events. destruct cb as [cb|]; [|reflexivity].
  simpl. rewrite Hcall.
  induction (cb copied total) as [|w ws IH]; [reflexivity|].
  simpl. rewrite Hwidget. exact IH.
Qed.

Lemma n_files_schedule src dst t :
  n_files (schedule src dst t) = List.length (source_files t).
Proof.
  unfold n_files, schedule, source_files.
  induction (walk [] t) as [|[[rel dirs] files] l IH]; [reflexivity|].
  simpl. rewrite !List.filter_app, !length_app, IH. f_equal.
  assert (Hdirs : List.filter is_file_op
                    (map (fun d => OpMkdir ((dst ++ rel) ++ [d])) dirs) = []).
  { induction dirs as [|d dirs IHd]; [reflexivity | exact IHd]. }
  rewrite Hdirs. simpl. rewrite length_map.
  induction files as [|file files IHf]; [reflexivity|]. simpl. rewrite IHf. reflexivity.
Qed.

(** One step on a file writes exactly one of the four records. *)
Lemma process_file_one_record env cb root d exts total copied file fs r fs' es :
  process_file env cb root d exts total copied file fs = (r, fs', es) ->
  (files_copied es + files_identical es + errors es + files_ignored es = 1)%nat.
Proof.
  destruct file as [f st]. rewrite process_file_cases.
  unfold files_copied, files_identical, errors, files_ignored.
  assert (H1 := filter_callback_events is_copy_event cb (copied + 1) total
                  (fun _ _ => eq_refl) (fun _ => eq_refl)).
  assert (H2 := filter_callback_events is_identical_event cb (copied + 1) total
                  (fun _ _ => eq_refl) (fun _ => eq_refl)).
  assert (H3 := filter_callback_events is_error_event cb (copied + 1) total
                  (fun _ _ => eq_refl) (fun _ => eq_refl)).
  assert (H4 := filter_callback_events is_ignored_event cb (copied + 1) total
                  (fun _ _ => eq_refl) (fun _ => eq_refl)).
  destruct (is_ignored env exts f); [intros [= <- <- <-]; reflexivity|].
  destruct (needs_copy _ _ _).
  - destruct (shutil_copy2 _ _ _ _ _) as [[[[]|e] fs1] es1];
      intros [= <- <- <-]; simpl; rewrite H1, H2, H3, H4; reflexivity.
  - intros [= <- <- <-]; simpl; rewrite H1, H2, H3, H4; reflexivity.
Qed.

Lemma run_accounts env cb exts total ops : forall copied fs copied' fs' es,
  foldM (run_op env cb exts total) ops copied fs = (Ok copied', fs', es) ->
  (files_copied es + files_identical es + errors es + files_ignored es = n_files ops)%nat.
Proof.
  unfold n_files.
  induction ops as [|o ops IH]; intros copied fs copied' fs' es Hrun.
  - injection Hrun as <- <- <-. reflexivity.
  - rewrite foldM_cons in Hrun. unfold bind in Hrun.
    destruct (run_op env cb exts total copied o fs) as [[[c1|e] fs1] es1] eqn:Hstep;
      [|discriminate].
    destruct (foldM _ ops c1 fs1) as [[r2 fs2] es2] eqn:Hrest.
    injection Hrun as -> <- <-.
    apply IH in Hrest.
    unfold files_copied, files_identical, errors, files_ignored in *.
    rewrite !List.filter_app, !length_app.
    destruct o as [p|root d file].
    + rewrite run_op_mkdir in Hstep.
      destruct (mkdir_parents_exist_ok env p fs) as [[[[]|e] fs0] es0] eqn:Hmk;
        [|discriminate].
      injection Hstep as <- <- <-.
      apply mkdir_parents_exist_ok_silent in Hmk as ->. simpl. exact Hrest.
    + unfold run_op in Hstep. apply process_file_one_record in Hstep.
      unfold files_copied, files_identical, errors, files_ignored in Hstep.
      simpl. lia.
Qed.

(** X3: with the source and the destination apart, in a run that
    completes every file the first pass counted is decided exactly once:
    the numbers of the logging calls for a file copied (line 90), found
    identical (line 92, a call below the level of the logger, which leaves
    no record), failed (line 94) and ignored (line 81) add up to
    [count_total_files], and the source is left as it was. *)
Theorem copy_recursively_accounts env src t dst exts cb fs fs' es :
  unrelated src dst ->
  copy_recursively env src t dst exts cb fs = (Ok tt, fs', es) ->
  Z.of_nat (files_copied es + files_identical es + errors es + files_ignored es) =
  count_total_files src t /\
  count_total_files src t = Z.of_nat (List.length (source_files t)) /\
  source_kept src fs fs'.
Proof.
  intros Hapart Hrun.
  pose proof (copy_recursively_keeps_source _ _ _ _ _ _ _ _ _ _ Hapart Hrun) as Hkept.
  rewrite copy_recursively_schedule in Hrun.
  destruct (foldM _ _ 0 fs) as [[[c|e] fs1] es1] eqn:Hfold; [|discriminate].
  injection Hrun as <- <-.
  apply run_accounts in Hfold.
  rewrite Hfold, n_files_schedule, count_total_files_source_files. auto.
Qed.

Lemma copy_recursively_accounts_witness :
  Z.of_nat (files_copied (snd first_run) + files_identical (snd first_run) +
            errors (snd first_run) + files_ignored (snd first_run)) =
  count_total_files ["src"] scenario_src.
Proof.
  refine (proj1 (copy_recursively_accounts quiet_env ["src"] scenario_src ["mnt"]
                   (Some [".tmp"]) (Some update_progress) empty_mnt
                   after_first_run (snd first_run) _ _)).
  - split; intros [k Hk]; discriminate.
  - apply run_eta; [vm_compute|]; reflexivity.
Defined.

(** ** The values the callback sees *)

Lemma files_decided_le env exts t : (files_decided env exts t <= List.length (source_files t))%nat.
Proof. unfold files_decided. apply List.filter_length_le. Qed.

(** X4: with the source and the destination apart, in a run that
    completes the callback is called with the counter going 1, 2, ..., k,
    where k is the number of files that are not ignored, and always with
    the same total, the number of all the files; so the counter never
    exceeds the total and the total of a call is never 0; and the source
    is left as it was. *)
Theorem progress_sequence env src t dst exts cb fs fs' es :
  unrelated src dst ->
  copy_recursively env src t dst exts (Some cb) fs = (Ok tt, fs', es) ->
  progress_calls es =
  map (fun i => (Z.of_nat i, count_total_files src t)) (seq 1 (files_decided env exts t)) /\
  (forall c total, In (c, total) (progress_calls es) ->
                   1 <= c <= total /\ total = count_total_files src t) /\
  source_kept src fs fs'.
Proof.
  intros Hapart Hrun.
  pose proof (copy_recursively_keeps_source _ _ _ _ _ _ _ _ _ _ Hapart Hrun) as Hkept.
  apply progress_of_copy_recursively in Hrun as Hcalls.
  rewrite <- (count_total_files_source_files src t) in Hcalls.
  split; [exact Hcalls|]. split; [|exact Hkept].
  intros c total Hin. rewrite Hcalls in Hin.
  apply in_map_iff in Hin as (i & [= <- <-] & Hi). apply in_seq in Hi.
  pose proof (files_decided_le env exts t).
  rewrite (count_total_files_source_files src t). lia.
Qed.

Lemma progress_sequence_witness :
  progress_calls (snd first_run) =
  map (fun i => (Z.of_nat i, count_total_files ["src"] scenario_src))
      (seq 1 (files_decided quiet_env (Some [".tmp"]) scenario_src)).
Proof.
  refine (proj1 (progress_sequence quiet_env ["src"] scenario_src ["mnt"]
                   (Some [".tmp"]) update_progress empty_mnt
                   after_first_run (snd first_run) _ _)).
  - split; intros [k Hk]; discriminate.
  - apply run_eta; [vm_compute|]; reflexivity.
Defined.

(** ** The ignore list in a run *)

Lemma foldM_events {A B} (body : B -> A -> M B) (P : event -> Prop) l :
  (forall b a fs r fs' es, In a l -> body b a fs = (r, fs', es) -> Forall P es) ->
  forall b fs r fs' es, foldM body l b fs = (r, fs', es) -> Forall P es.
Proof.
  induction l as [|a l IH]; intros Hbody b fs r fs' es Hrun.
  - injection Hrun as <- <- <-. constructor.
  - rewrite foldM_cons in Hrun. unfold bind in Hrun.
    destruct (body b a fs) as [[[b1|e] fs1] es1] eqn:Hstep.
    + destruct (foldM body l b1 fs1) as [[r2 fs2] es2] eqn:Hrest.
      injection Hrun as <- <- <-. apply Forall_app. split.
      * eapply Hbody; [left; reflexivity | exact Hstep].
      * eapply IH; [|exact Hrest]. intros. eapply Hbody; [right|]; eassumption.
    + injection Hrun as <- <- <-. eapply Hbody; [left; reflexivity | exact Hstep].
Qed.

Lemma callback_events_respect_filter env exts cb copied total :
  Forall (event_respects_filter env exts) (callback_events cb copied total).
Proof.
  unfold callback_events. destruct cb as [cb|]; constructor; [exact I|].
  induction (cb copied total) as [|w ws IH]; simpl; constructor; [exact I | exact IH].
Qed.

Lemma run_op_respects_filter env cb exts total copied o fs r fs' es :
  run_op env cb exts total copied o fs = (r, fs', es) ->
  Forall (event_respects_filter env exts) es.
Proof.
  destruct o as [p|root d [f st]].
  - rewrite run_op_mkdir.
    destruct (mkdir_parents_exist_ok env p fs) as [[r1 fs1] es1] eqn:Hmk.
    apply mkdir_parents_exist_ok_silent in Hmk as ->.
    destruct r1; intros [= <- <- <-]; constructor.
  - unfold run_op. rewrite process_file_cases.
    pose proof (callback_events_respect_filter env exts cb (copied + 1) total) as Hcb.
    destruct (is_ignored env exts f) eqn:Hign.
    + intros [= <- <- <-]. constructor; [exact Hign | constructor].
    + destruct (needs_copy _ _ _).
      * destruct (shutil_copy2 _ _ _ _ _) as [[[[]|e] fs1] es1];
          intros [= <- <- <-]; constructor; try exact Hcb;
          simpl; rewrite basename_snoc; exact Hign.
      * intros [= <- <- <-]; constructor; try exact Hcb.
        simpl; rewrite basename_snoc; exact Hign.
Qed.

(** X5: in any run, the ignore list is obeyed by every record of the log: a
    file reported as copied, as identical or as failed has a name that is
    not ignored, and a file reported as ignored has a name that is. *)
Theorem copy_recursively_respects_filter env src t dst exts cb fs r fs' es :
  copy_recursively env src t dst exts cb fs = (r, fs', es) ->
  Forall (event_respects_filter env exts) es.
Proof.
  intros Hrun. rewrite copy_recursively_schedule in Hrun.
  destruct (foldM _ _ 0 fs) as [[r1 fs1] es1] eqn:Hfold.
  assert (es = es1) as -> by (destruct r1; congruence).
  revert Hfold. apply foldM_events.
  intros b o fs0 r0 fs0' es0 _. apply run_op_respects_filter.
Qed.

Lemma copy_recursively_respects_filter_witness :
  Forall (event_respects_filter quiet_env (Some [".tmp"])) (snd first_run).
Proof.
  refine (copy_recursively_respects_filter quiet_env ["src"] scenario_src ["mnt"]
            (Some [".tmp"]) (Some update_progress) empty_mnt _ _ _ _).
  apply run_eta; reflexivity.
Defined.

Lemma endswith_empty s : endswith s "" = true.
Proof.
  induction s as [|c s IH]; [reflexivity|].
  change (endswith (String c s) "")
    with (if String.eqb (String c s) "" then true else endswith s "").
  rewrite IH. destruct (String.eqb _ _); reflexivity.
Qed.

Lemma is_ignored_empty_suffix env exts f : In "" exts -> is_ignored env (Some exts) f = true.
Proof.
  intros Hin. rewrite is_ignored_Some. apply existsb_exists.
  exists "". split; [exact Hin | apply endswith_empty].
Qed.

Lemma no_file_written_refl fs : no_file_written fs fs.
Proof. intros q st Hq. exact Hq. Qed.

Lemma no_file_written_trans fs1 fs2 fs3 :
  no_file_written fs1 fs2 -> no_file_written fs2 fs3 -> no_file_written fs1 fs3.
Proof. intros H12 H23 q st Hq. apply H12, H23, Hq. Qed.

Lemma run_op_all_ignored env cb exts total copied o fs r fs' es :
  (forall f, is_ignored env exts f = true) ->
  (forall p, o = OpMkdir p -> p <> []) ->
  run_op env cb exts total copied o fs = (r, fs', es) ->
  no_file_written fs fs' /\ Forall (fun e => exists f, e = LogSkippedIgnored f) es.
Proof.
  intros Hall. destruct o as [p|root d [f st]]; intros Hp.
  - rewrite run_op_mkdir.
    destruct (mkdir_parents_exist_ok env p fs) as [[r1 fs1] es1] eqn:Hmk.
    apply mkdir_parents_exist_ok_spec in Hmk as (-> & _ & Hnew & _); [|auto].
    intros Hrun. assert (fs' = fs1 /\ es = []) as [-> ->]
      by (destruct r1; injection Hrun as <- <- <-; auto).
    split; [|constructor].
    intros q st Hq. apply Hnew in Hq as [Hq|[st' [=]]]. exact Hq.
  - unfold run_op. rewrite process_file_cases, Hall. intros [= <- <- <-].
    split; [apply no_file_written_refl|]. constructor; [eauto | constructor].
Qed.

(** X6: an empty string in the ignore list matches every name: the run
    then writes no file at all (it only makes the directories), calls the
    callback not once, and its log holds nothing but the records of the
    files it ignored. *)
Theorem empty_suffix_ignores_everything env src t dst exts cb fs r fs' es :
  In "" exts ->
  copy_recursively env src t dst (Some exts) cb fs = (r, fs', es) ->
  (forall f, is_ignored env (Some exts) f = true) /\
  no_file_written fs fs' /\
  Forall (fun e => exists f, e = LogSkippedIgnored f) es /\
  progress_calls es = [].
Proof.
  intros Hin Hrun.
  assert (Hall : forall f, is_ignored env (Some exts) f = true)
    by (intros f; apply is_ignored_empty_suffix, Hin).
  rewrite copy_recursively_schedule in Hrun.
  destruct (foldM _ _ 0 fs) as [[r1 fs1] es1] eqn:Hfold.
  assert (fs' = fs1 /\ es = es1) as [-> ->] by (destruct r1; injection Hrun as <- <- <-; auto).
  assert (Hstep : forall b o fs0 r0 fs0' es0,
             In o (schedule src dst t) ->
             run_op env cb (Some exts) (count_total_files src t) b o fs0 = (r0, fs0', es0) ->
             no_file_written fs0 fs0' /\
             Forall (fun e => exists f, e = LogSkippedIgnored f) es0).
  { intros b o fs0 r0 fs0' es0 Ho. apply run_op_all_ignored; [exact Hall|].
    intros p ->. eapply schedule_mkdir_not_nil, Ho. }
  assert (Hlog : Forall (fun e => exists f, e = LogSkippedIgnored f) es1).
  { revert Hfold. apply foldM_events.
    intros b o fs0 r0 fs0' es0 Ho Hs. apply (Hstep _ _ _ _ _ _ Ho Hs). }
  repeat split; [exact Hall| |exact Hlog|].
  - revert Hfold.
    apply (foldM_rel _ no_file_written _ no_file_written_refl no_file_written_trans).
    intros b o fs0 r0 fs0' es0 Ho Hs. apply (Hstep _ _ _ _ _ _ Ho Hs).
  - clear -Hlog. induction Hlog as [|e es' [f ->] _ IH]; [reflexivity | exact IH].
Qed.

Lemma empty_suffix_ignores_everything_witness :
  progress_calls
    (snd (copy_recursively quiet_env ["src"] scenario_src ["mnt"] (Some catch_all)
                           (Some update_progress) empty_mnt)) = [].
Proof.
  refine (proj2 (proj2 (proj2
            (empty_suffix_ignores_everything quiet_env ["src"] scenario_src ["mnt"]
               catch_all (Some update_progress) empty_mnt _ _ _ _ _)))).
  - right. left. reflexivity.
  - apply run_eta; reflexivity.
Defined.

(** ** Changes of one second and more *)

Lemma int_of_float_floor (x : Q) : (0 <= x)%Q -> int_of_float x = Qfloor x.
Proof.
  destruct x as [n d]. unfold int_of_float, Qfloor, Qle. simpl. intros Hn.
  apply Z.quot_div_nonneg; lia.
Qed.

Lemma Qfloor_next (x y : Q) : (x + 1 <= y)%Q -> Qfloor x + 1 <= Qfloor y.
Proof.
  intros Hxy.
  assert (H : (inject_Z (Qfloor x + 1) <= y)%Q).
  { rewrite inject_Z_plus. eapply Qle_trans; [|exact Hxy].
    apply Qplus_le_l. apply Qfloor_le. }
  apply Qfloor_resp_le in H. rewrite Qfloor_Z in H. exact H.
Qed.

(** X7: for modification times at or after the epoch, a difference of one
    second or more is always detected, whatever the sizes: the file is
    copied. *)
Theorem one_second_apart_needs_copy (fs : filesystem) (s d : stat_result) (dst_file : path) :
  stat fs dst_file = Some d ->
  (0 <= st_mtime s)%Q -> (0 <= st_mtime d)%Q ->
  (st_mtime s + 1 <= st_mtime d)%Q \/ (st_mtime d + 1 <= st_mtime s)%Q ->
  files_are_identical (Some s) (Some d) = false /\
  needs_copy fs (Some s) dst_file = true.
Proof.
  intros Hst Hs Hd Hapart.
  assert (Hid : files_are_identical (Some s) (Some d) = false).
  { destruct (files_are_identical (Some s) (Some d)) eqn:Hid; [|reflexivity].
    apply files_are_identical_true in Hid as [_ Hid].
    rewrite !int_of_float_floor in Hid by assumption.
    destruct Hapart as [H|H]; apply Qfloor_next in H; lia. }
  split; [exact Hid|].
  unfold needs_copy. rewrite Hst, Hid. apply orb_true_r.
Qed.

Lemma one_second_apart_needs_copy_witness :
  needs_copy old_fs (Some later_source) ["mnt"; "a.txt"] = true.
Proof.
  refine (proj2 (one_second_apart_needs_copy old_fs later_source old_copy
                   ["mnt"; "a.txt"] eq_refl _ _ _)).
  - vm_compute. discriminate.
  - vm_compute. discriminate.
  - right. vm_compute. discriminate.
Defined.

(** Before the epoch the truncation goes the other way: -0.9 s and 0.9 s are
    1.8 s apart and both truncate to 0. *)
Example around_the_epoch :
  files_are_identical (Some (mk_stat 10 (-9 # 10))) (Some (mk_stat 10 (9 # 10))) = true.
Proof. reflexivity. Qed.

(** ** Destinations that cannot be mapped on demand *)

Lemma ensure_path_mapped_without_mapping env share_path host_type fs :
  host_type = "local" \/ platform_system env <> "Windows" ->
  exists es,
    ensure_path_mapped env share_path host_type fs = (Ok (exists_ fs share_path), fs, es) /\
    Forall (fun e => e = LogMustMountManually share_path (platform_system env)) es.
Proof.
  intros Hwhy.
  destruct (exists_ fs share_path) eqn:Hex.
  { rewrite ensure_path_mapped_visible by exact Hex. exists []. auto. }
  destruct (String.eqb_spec host_type "local") as [->|Hsmb].
  { rewrite ensure_path_mapped_local, Hex. exists []. auto. }
  destruct Hwhy as [Hlocal|Hsys]; [contradiction|].
  apply String.eqb_neq in Hsmb, Hsys.
  unfold ensure_path_mapped, bind, get_fs, ret, emit. rewrite Hsmb, Hex, Hsys.
  destruct (_ || _); simpl; rewrite Hex; eexists; split; try reflexivity; auto.
Qed.

(** X8: for a [local] destination, and for any destination on a platform
    other than Windows, nothing is asked and no command is run; the
    destination is synchronised only if its path exists, and one whose path
    does not exist is reported and skipped with the file system left as it
    was. *)
Theorem unmappable_destination_is_skipped env src t exts m fs :
  m_htype m = "local" \/ platform_system env <> "Windows" ->
  exists_ fs (m_path m) = false ->
  exists es,
    Forall (fun e => e = LogMustMountManually (m_path m) (platform_system env)) es /\
    ensure_path_mapped env (m_path m) (m_htype m) fs = (Ok false, fs, es) /\
    sync_machine env src t exts m fs =
    (Ok tt, fs, es ++ [LogCannotAccess (m_path m); ShowErrorMappingFailed (m_path m)]).
Proof.
  intros Hwhy Hex.
  destruct (ensure_path_mapped_without_mapping env (m_path m) (m_htype m) fs Hwhy)
    as (es & Hmap & Hes).
  rewrite Hex in Hmap. exists es. split; [exact Hes|]. split; [exact Hmap|].
  rewrite sync_machine_cases, Hmap. reflexivity.
Qed.

Lemma unmappable_destination_is_skipped_witness :
  exists es,
    sync_machine quiet_env ["src"] scenario_src [".tmp"] share_on_linux empty_mnt =
    (Ok tt, empty_mnt,
     es ++ [LogCannotAccess ["server"; "share"]; ShowErrorMappingFailed ["server"; "share"]]).
Proof.
  destruct (unmappable_destination_is_skipped quiet_env ["src"] scenario_src [".tmp"]
              share_on_linux empty_mnt) as (es & _ & _ & Hsync).
  - right. discriminate.
  - reflexivity.
  - exists es. exact Hsync.
Defined.

(** * Part VI: the host manager and the machine list *)

(** ** White space *)

(** Cutting a text into its characters loses nothing. *)
Lemma join_chars s : join (chars s) = s.
Proof.
  assert (H : (fst (split_chars s) ++ join (snd (split_chars s)))%string = s).
  { induction s as [|c s IH]; [reflexivity|]. simpl.
    destruct (split_chars s) as [k l]. simpl in IH.
    destruct (is_continuation c);
      change (String c (k ++ join l) = String c s); f_equal; exact IH. }
  unfold chars. destruct (split_chars s) as [[|a k] l]; exact H.
Qed.

Lemma split_chars_nonempty s : Forall (fun c => c <> "") (snd (split_chars s)).
Proof.
  induction s as [|c s IH]; simpl; [constructor|].
  destruct (split_chars s) as [k l]. simpl in IH.
  destruct (is_continuation c); simpl; [exact IH|].
  constructor; [discriminate | exact IH].
Qed.

Lemma chars_nonempty s : Forall (fun c => c <> "") (chars s).
Proof.
  unfold chars. pose proof (split_chars_nonempty s) as H.
  destruct (split_chars s) as [[|a k] l]; simpl in H; [exact H|].
  constructor; [discriminate | exact H].
Qed.

Lemma join_nil l : Forall (fun c => c <> "") l -> join l = "" -> l = [].
Proof.
  destruct 1 as [|c l Hc _]; [reflexivity|].
  destruct c; [congruence | discriminate].
Qed.

Lemma lstrip_nil l : lstrip l = [] <-> forallb is_space l = true.
Proof.
  induction l as [|c l IH]; simpl; [tauto|].
  destruct (is_space c); simpl; [exact IH|]. split; discriminate.
Qed.

Lemma lstrip_incl l c : In c (lstrip l) -> In c l.
Proof.
  induction l as [|c' l IH]; simpl; [tauto|].
  destruct (is_space c'); [right; apply IH; assumption | simpl; tauto].
Qed.

(** What is left of a text that is not blank does not begin with white
    space. *)
Lemma lstrip_spaces l : forallb is_space (lstrip l) = true -> lstrip l = [].
Proof.
  induction l as [|c l IH]; simpl; [reflexivity|].
  destruct (is_space c) eqn:Hc; [exact IH|]. simpl. rewrite Hc. discriminate.
Qed.

Lemma forallb_rev {A} (f : A -> bool) l : forallb f (rev l) = forallb f l.
Proof.
  induction l as [|a l IH]; [reflexivity|].
  simpl. rewrite forallb_app, IH. simpl. rewrite andb_true_r. apply andb_comm.
Qed.

Lemma strip_chars_nil l : lstrip (rstrip l) = [] <-> forallb is_space l = true.
Proof.
  unfold rstrip. rewrite lstrip_nil, forallb_rev. split.
  - intros H. apply lstrip_spaces in H as H'. apply lstrip_nil in H'.
    rewrite forallb_rev in H'. exact H'.
  - intros H. rewrite <- forallb_rev in H. apply lstrip_nil in H. rewrite H. reflexivity.
Qed.

Lemma strip_blank s : strip s = "" <-> blank s = true.
Proof.
  unfold strip, blank. rewrite <- strip_chars_nil. split.
  - apply join_nil. apply Forall_forall. intros c Hc.
    apply list_elem_of_In, lstrip_incl in Hc. unfold rstrip in Hc.
    apply in_rev, lstrip_incl, in_rev in Hc.
    pose proof (chars_nonempty s) as Hne. rewrite Forall_forall in Hne.
    apply Hne, list_elem_of_In, Hc.
  - intros ->. reflexivity.
Qed.

Lemma strip_eqb_blank s : String.eqb (strip s) "" = blank s.
Proof.
  destruct (blank s) eqn:Hb.
  - apply String.eqb_eq, strip_blank, Hb.
  - apply String.eqb_neq. intros H. apply strip_blank in H. congruence.
Qed.

(** ** The dictionary *)

Lemma dict_mem_In name d : dict_mem name d = true <-> In name (names d).
Proof.
  unfold dict_mem, names. rewrite existsb_exists, in_map_iff.
  split; intros (h & H1 & H2); exists h.
  - apply String.eqb_eq in H2. auto.
  - split; [exact H2 | apply String.eqb_eq, H1].
Qed.

Lemma dict_set_new h d : dict_mem (h_name h) d = false -> dict_set h d = d ++ [h].
Proof.
  induction d as [|h' d IH]; simpl; [reflexivity|].
  intros H. apply orb_false_iff in H as [Hh Hd]. rewrite Hh, IH by exact Hd. reflexivity.
Qed.

Lemma names_dict_set h d :
  names (dict_set h d) = if dict_mem (h_name h) d then names d else names d ++ [h_name h].
Proof.
  induction d as [|h' d IH]; simpl; [reflexivity|].
  destruct (String.eqb_spec (h_name h') (h_name h)) as [Heq|Hne]; simpl.
  - rewrite Heq. reflexivity.
  - rewrite IH. destruct (dict_mem (h_name h) d); reflexivity.
Qed.

Lemma NoDup_names_dict_set h d : NoDup (names d) -> NoDup (names (dict_set h d)).
Proof.
  intros Hnd. rewrite names_dict_set.
  destruct (dict_mem (h_name h) d) eqn:Hmem; [exact Hnd|].
  apply NoDup_app. repeat split; [exact Hnd| |apply NoDup_singleton].
  intros x Hx Hx'. apply list_elem_of_In in Hx.
  apply list_elem_of_In in Hx'. destruct Hx' as [<-|[]].
  apply dict_mem_In in Hx. congruence.
Qed.

Lemma NoDup_names_dict_del name d : NoDup (names d) -> NoDup (names (dict_del name d)).
Proof.
  unfold names, dict_del. induction d as [|h d IH]; simpl; [auto|].
  intros Hnd. apply NoDup_cons in Hnd as [Hnotin Hnd].
  destruct (negb _); simpl; [|auto].
  apply NoDup_cons. split; [|auto].
  intros Hin. apply Hnotin. apply list_elem_of_In in Hin. apply list_elem_of_In.
  apply in_map_iff in Hin as (h' & Hh' & Hin). apply List.filter_In in Hin as [Hin _].
  apply in_map_iff. eauto.
Qed.

(** Deleting the key of the entry at position [i] deletes that entry. *)
Lemma dict_del_lookup d : forall i h,
  NoDup (names d) -> d !! i = Some h -> dict_del (h_name h) d = delete i d.
Proof.
  unfold dict_del, names. induction d as [|h' d IH]; intros i h Hnd Hi; [discriminate|].
  simpl in Hnd. apply NoDup_cons in Hnd as [Hnotin Hnd].
  destruct i as [|i]; simpl in *.
  - injection Hi as ->. rewrite String.eqb_refl. simpl.
    rewrite List.forallb_filter_id; [reflexivity|].
    apply forallb_forall. intros x Hx. apply negb_true_iff, String.eqb_neq.
    intros Heq. apply Hnotin. apply list_elem_of_In, in_map_iff. eauto.
  - assert (Hne : h_name h' <> h_name h).
    { intros Heq. apply Hnotin. rewrite Heq. apply list_elem_of_In, in_map_iff.
      exists h. split; [reflexivity|]. apply list_elem_of_In.
      eapply list_elem_of_lookup_2, Hi. }
    apply String.eqb_neq in Hne. rewrite Hne. simpl. f_equal. apply IH; assumption.
Qed.

(** ** Adding a host *)

(** X9: [add_host] refuses a name or a path that is empty or made of white
    space only - any of the characters [str.strip()] removes, those of
    ASCII and those beyond - and a name that is already a key (the name
    compared after stripping): it shows the error and changes nothing,
    neither the dictionary nor the list box nor the fields nor the modified
    flag. *)
Theorem add_host_rejects (hm : HostManager) :
  (blank (hm_name_entry hm) = true \/ blank (hm_path_entry hm) = true ->
   add_host hm = (hm, [ShowErrorNameAndPathRequired])) /\
  (blank (hm_name_entry hm) = false -> blank (hm_path_entry hm) = false ->
   In (strip (hm_name_entry hm)) (names (hm_machine_vars hm)) ->
   add_host hm = (hm, [ShowErrorNameExists])).
Proof.
  unfold add_host. rewrite !strip_eqb_blank. split.
  - intros [-> | ->]; [reflexivity|].
    destruct (blank (hm_name_entry hm)); reflexivity.
  - intros -> -> Hin. apply dict_mem_In in Hin. rewrite Hin. reflexivity.
Qed.

Lemma add_host_rejects_witness :
  add_host lab_manager_nbsp = (lab_manager_nbsp, [ShowErrorNameAndPathRequired]).
Proof.
  exact (proj1 (add_host_rejects lab_manager_nbsp) (or_introl eq_refl)).
Defined.

(** White space around a name is dropped, white space inside it is kept,
    and a character that only looks like a space (U+200B) is a name. *)
Example strip_examples :
  strip (nbsp ++ " lab 2" ++ ideographic_space ++ " ") = "lab 2" /\
  strip lab_manager_blank.(hm_name_entry) = "" /\
  blank (String (ascii_of_nat 226) (String (ascii_of_nat 128)
                                       (String (ascii_of_nat 139) ""))) = false.
Proof. repeat split. Qed.

(** X10: with a name and a path that are not blank and a name that is not a
    key yet, [add_host] puts exactly one new host at the end of the
    dictionary and its line at the end of the list box: the name, the path
    and the type are stored stripped, the new host is unchecked, the hosts
    that were there are left as they were, the fields are reset and the
    window is marked modified; the keys stay distinct, and a list box that
    showed the dictionary still does. *)
Theorem add_host_adds (hm : HostManager) :
  blank (hm_name_entry hm) = false ->
  blank (hm_path_entry hm) = false ->
  ~ In (strip (hm_name_entry hm)) (names (hm_machine_vars hm)) ->
  let h := mk_host (strip (hm_name_entry hm)) false (strip (hm_path_entry hm))
                   (strip (hm_type_var hm)) in
  add_host hm =
  (mk_hm (hm_machine_vars hm ++ [h]) (hm_listbox hm ++ [line_of h])
         "" "" "smb" true (hm_destroyed hm), []) /\
  (NoDup (names (hm_machine_vars hm)) -> NoDup (names (hm_machine_vars hm ++ [h]))) /\
  (in_sync hm -> in_sync (fst (add_host hm))).
Proof.
  intros Hname Hpath Hnew h.
  assert (Hmem : dict_mem (h_name h) (hm_machine_vars hm) = false).
  { destruct (dict_mem (h_name h) (hm_machine_vars hm)) eqn:Hmem; [|reflexivity].
    apply dict_mem_In in Hmem. contradiction. }
  assert (Hadd : add_host hm =
                 (mk_hm (hm_machine_vars hm ++ [h]) (hm_listbox hm ++ [line_of h])
                        "" "" "smb" true (hm_destroyed hm), [])).
  { unfold add_host. rewrite !strip_eqb_blank, Hname, Hpath. simpl.
    fold h. change (strip (hm_name_entry hm)) with (h_name h). rewrite Hmem.
    rewrite dict_set_new by exact Hmem. reflexivity. }
  split; [exact Hadd|]. split.
  - intros Hnd. rewrite <- (dict_set_new h) by exact Hmem.
    apply NoDup_names_dict_set, Hnd.
  - unfold in_sync. rewrite Hadd. simpl. intros ->. rewrite map_app. reflexivity.
Qed.

Lemma add_host_adds_witness :
  add_host lab_manager_typed =
  (mk_hm (lab_hosts ++ [mk_host "lab2" false "/mnt/lab2" "smb"])
         (load_existing lab_hosts ++ ["lab2 | /mnt/lab2 | smb"])
         "" "" "smb" true false, []).
Proof.
  refine (proj1 (add_host_adds lab_manager_typed eq_refl eq_refl _)).
  simpl. intros [H|[H|[]]]; discriminate.
Defined.

(** ** Removing a host *)

Lemma startswith_cons b s a pre :
  startswith (String b s) (String a pre) = Ascii.eqb a b && startswith s pre.
Proof. reflexivity. Qed.

Lemma has_bar_cons c s : has_bar (String c s) = Ascii.eqb "|" c || has_bar s.
Proof. reflexivity. Qed.

Lemma before_sep_line name rest :
  has_bar name = false -> before_sep " | " (name ++ " | " ++ rest) = name.
Proof.
  induction name as [|c name IH]; intros Hbar; [reflexivity|].
  rewrite has_bar_cons in Hbar. apply orb_false_iff in Hbar as [Hc Hbar].
  change (before_sep " | " (String c name ++ " | " ++ rest))
    with (if startswith (String c (name ++ " | " ++ rest)) " | " then ""
          else String c (before_sep " | " (name ++ " | " ++ rest))).
  assert (Hstart : startswith (String c (name ++ " | " ++ rest)) " | " = false).
  { rewrite startswith_cons. apply andb_false_iff. right.
    destruct name as [|c' name].
    - reflexivity.
    - change (String c' name ++ " | " ++ rest)%string
        with (String c' (name ++ " | " ++ rest)).
      rewrite startswith_cons. rewrite has_bar_cons in Hbar.
      apply orb_false_iff in Hbar as [-> _]. reflexivity. }
  rewrite Hstart, IH by exact Hbar. reflexivity.
Qed.

(** X11: with a list box that shows the dictionary, [remove_selected]
    deletes the first selected line, and - when the name of the host on
    that line has no vertical bar in it - exactly that host from the
    dictionary: the other hosts keep their order and their state, the list
    box still shows the dictionary and the window is marked modified.  With
    nothing selected, nothing changes. *)
Theorem remove_selected_removes (hm : HostManager) (i : nat) (others : list nat) (h : host) :
  in_sync hm ->
  NoDup (names (hm_machine_vars hm)) ->
  hm_machine_vars hm !! i = Some h ->
  has_bar (h_name h) = false ->
  remove_selected (i :: others) hm =
  mk_hm (delete i (hm_machine_vars hm)) (delete i (hm_listbox hm))
        (hm_name_entry hm) (hm_path_entry hm) (hm_type_var hm) true (hm_destroyed hm) /\
  in_sync (remove_selected (i :: others) hm) /\
  NoDup (names (hm_machine_vars (remove_selected (i :: others) hm))) /\
  remove_selected [] hm = hm.
Proof.
  intros Hsync Hnd Hi Hbar.
  assert (Hline : nth i (hm_listbox hm) "" = line_of h).
  { rewrite Hsync. apply nth_lookup_Some.
    change (map line_of (hm_machine_vars hm)) with (line_of <$> hm_machine_vars hm).
    rewrite list_lookup_fmap, Hi. reflexivity. }
  assert (Hname : before_sep " | " (line_of h) = h_name h)
    by (apply before_sep_line, Hbar).
  assert (Hmem : dict_mem (h_name h) (hm_machine_vars hm) = true).
  { apply dict_mem_In, in_map_iff. exists h. split; [reflexivity|].
    apply list_elem_of_In. eapply list_elem_of_lookup_2, Hi. }
  assert (Hrem : remove_selected (i :: others) hm =
                 mk_hm (delete i (hm_machine_vars hm)) (delete i (hm_listbox hm))
                       (hm_name_entry hm) (hm_path_entry hm) (hm_type_var hm) true
                       (hm_destroyed hm)).
  { unfold remove_selected. rewrite Hline, Hname, Hmem.
    rewrite (dict_del_lookup _ i h Hnd Hi). reflexivity. }
  rewrite Hrem. repeat split.
  - unfold in_sync. simpl. rewrite Hsync.
    change (map line_of) with (fmap (M := list) line_of). rewrite list_fmap_delete.
    reflexivity.
  - simpl. rewrite <- (dict_del_lookup _ i h Hnd Hi). apply NoDup_names_dict_del, Hnd.
Qed.

Lemma remove_selected_removes_witness :
  remove_selected [1%nat] lab_manager =
  mk_hm [mk_host "lab1" true "/mnt/lab1" "local"] ["lab1 | /mnt/lab1 | local"]
        "" "" "smb" true false.
Proof.
  refine (proj1 (remove_selected_removes lab_manager 1 []
                   (mk_host "nas" false "//nas/share" "smb") eq_refl _ eq_refl eq_refl)).
  apply (bool_decide_unpack _). vm_compute. exact I.
Defined.

(** A name with the separator in it misleads [remove_selected]: the line
    of the host ["a | b"] is deleted from the list box, and the host ["a"]
    from the dictionary. *)
Example remove_selected_wrong_host :
  let hm := HostManager_init [mk_host "a" false "/x" "local";
                              mk_host "a | b" false "/y" "local"] in
  hm_machine_vars (remove_selected [1%nat] hm) = [mk_host "a | b" false "/y" "local"] /\
  hm_listbox (remove_selected [1%nat] hm) = ["a | /x | local"].
Proof. split; reflexivity. Qed.

(** ** Reading the machine list *)

Lemma host_of_json_of_host h : host_of_json (json_of_host h) = inr (unchecked h).
Proof. reflexivity. Qed.

Lemma add_machines_of_hosts l : forall d lm cb,
  NoDup (names (d ++ l)) ->
  add_machines (map json_of_host l) (mk_window d lm cb) =
  (None, mk_window (d ++ map unchecked l) lm (cb ++ map checkbutton_text l)).
Proof.
  induction l as [|h l IH]; intros d lm cb Hnd.
  - simpl. rewrite !app_nil_r. reflexivity.
  - simpl. assert (Hmem : dict_mem (h_name (unchecked h)) d = false).
    { destruct (dict_mem (h_name (unchecked h)) d) eqn:Hmem; [|reflexivity].
      apply dict_mem_In in Hmem. unfold names in Hnd. rewrite map_app in Hnd.
      apply NoDup_app in Hnd as (_ & Hdisj & _). exfalso.
      apply (Hdisj (h_name h)); [apply list_elem_of_In, Hmem | left]. }
    rewrite dict_set_new by exact Hmem.
    rewrite IH.
    + rewrite <- !app_assoc. reflexivity.
    + unfold names in *. rewrite <- app_assoc. rewrite !map_app in *. exact Hnd.
Qed.

(** X12: what [save_and_close] writes, [refresh_machine_list] reads back:
    after a save of a modified list the window is destroyed, the file holds
    the hosts in their order, and a refresh from that file gives these
    hosts again - same names, paths and types, same order - each with an
    unchecked box, without an error. *)
Theorem save_then_refresh (hm : HostManager) (file : machine_list_file) (w : MainWindow) :
  hm_modified hm = true ->
  NoDup (names (hm_machine_vars hm)) ->
  let '(hm', file', es) := save_and_close None hm file in
  hm_destroyed hm' = true /\
  file' = Some (map json_of_host (hm_machine_vars hm)) /\
  es = [LogUpdatedMachineList] /\
  refresh_machine_list file' w =
  (None,
   mk_window (map unchecked (hm_machine_vars hm))
             (map json_of_host (hm_machine_vars hm))
             (map checkbutton_text (hm_machine_vars hm)),
   []).
Proof.
  intros Hmod Hnd. unfold save_and_close. rewrite Hmod. repeat split.
  unfold refresh_machine_list.
  rewrite (add_machines_of_hosts (hm_machine_vars hm) [] _ []) by exact Hnd.
  reflexivity.
Qed.

Lemma save_then_refresh_witness :
  refresh_machine_list
    (snd (fst (save_and_close None (fst (add_host lab_manager_typed)) None)))
    blank_window =
  (None,
   mk_window (map unchecked (lab_hosts ++ [mk_host "lab2" false "/mnt/lab2" "smb"]))
             (map json_of_host (lab_hosts ++ [mk_host "lab2" false "/mnt/lab2" "smb"]))
             (map checkbutton_text (lab_hosts ++ [mk_host "lab2" false "/mnt/lab2" "smb"])),
   []).
Proof.
  refine (proj2 (proj2 (proj2
            (save_then_refresh (fst (add_host lab_manager_typed)) None blank_window
                               eq_refl _)))).
  apply (bool_decide_unpack _). vm_compute. exact I.
Defined.







Lemma add_machines_loaded machines : forall d lm lm' cb,
  add_machines machines (mk_window d lm cb) =
  (fst (add_machines machines (mk_window d lm' cb)),
   mk_window (w_machine_vars (snd (add_machines machines (mk_window d lm' cb)))) lm
             (w_checkbuttons (snd (add_machines machines (mk_window d lm' cb))))).
Proof.
  induction machines as [|j machines IH]; intros d lm lm' cb; [reflexivity|].
  simpl. destruct (host_of_json j) as [e|h]; [reflexivity|]. simpl. apply IH.
Qed.

Lemma add_machines_app good : forall rest w,
  Forall (fun j => exists h, host_of_json j = inr h) good ->
  add_machines (good ++ rest) w = add_machines rest (snd (add_machines good w)).
Proof.
  induction good as [|j good IH]; intros rest w Hgood; [reflexivity|].
  apply Forall_cons in Hgood as [[h Hj] Hgood]. simpl. rewrite Hj. apply IH, Hgood.
Qed.

(** X14: an entry without a ["name"] or a ["path"] makes
    [refresh_machine_list] raise a [KeyError] that nothing catches; the
    entries before it have been taken, those after it have not:
    the dictionary and the check boxes are those of the list cut before the
    bad entry.  An entry without a ["type"] is read as ["smb"]. *)
Theorem refresh_key_error (good rest : list json_machine) (bad : json_machine)
    (w : MainWindow) :
  Forall (fun j => exists h, host_of_json j = inr h) good ->
  j_name bad = None \/ j_path bad = None ->
  let key := match j_name bad with None => "name" | Some _ => "path" end in
  let cut := snd (fst (refresh_machine_list (Some good) w)) in
  refresh_machine_list (Some (good ++ bad :: rest)) w =
  (Some (KeyError key),
   mk_window (w_machine_vars cut) (good ++ bad :: rest) (w_checkbuttons cut), []) /\
  (forall name path,
      host_of_json (mk_json (Some name) (Some path) None) =
      inr (mk_host name false path "smb")).
Proof.
  intros Hgood Hbad key cut. split; [|reflexivity].
  assert (Hj : host_of_json bad = inl (KeyError key)).
  { unfold host_of_json, key. destruct (j_name bad); [|reflexivity].
    destruct Hbad as [Hbad|Hbad]; [discriminate|]. rewrite Hbad. reflexivity. }
  unfold cut, refresh_machine_list.
  rewrite (add_machines_loaded (good ++ bad :: rest) [] (good ++ bad :: rest) good []).
  rewrite (add_machines_app good (bad :: rest) _ Hgood).
  simpl. rewrite Hj.
  destruct (add_machines good (mk_window [] good [])) as [r1 w1]. reflexivity.
Qed.

Lemma refresh_key_error_witness :
  refresh_machine_list partial_file blank_window =
  (Some (KeyError "path"),
   mk_window [mk_host "lab1" false "/mnt/lab1" "smb"]
             ([mk_json (Some "lab1") (Some "/mnt/lab1") None] ++
              mk_json (Some "nas") None (Some "smb") ::
              [mk_json (Some "lab2") (Some "/mnt/lab2") (Some "local")])
             ["lab1 (/mnt/lab1, type=smb)"], []).
Proof.
  refine (proj1 (refresh_key_error [mk_json (Some "lab1") (Some "/mnt/lab1") None]
                   [mk_json (Some "lab2") (Some "/mnt/lab2") (Some "local")]
                   (mk_json (Some "nas") None (Some "smb")) blank_window _ _)).
  - constructor; [eexists; reflexivity | constructor].
  - right. reflexivity.
Defined.

(** ** A session of the host manager *)

Lemma do_action_file a hm file :
  opens_file a = false -> snd (fst (do_action a hm file)) = file.
Proof.
  intros Ha. destruct a as [text|text|text| |sel|[[e|e complete]|]|]; simpl;
    try reflexivity; try discriminate.
  - destruct (add_host hm). reflexivity.
  - unfold save_and_close. destruct (hm_modified hm); reflexivity.
Qed.

Lemma wait_window_never_saved actions : forall hm file,
  never_saved actions -> snd (fst (wait_window actions hm file)) = file.
Proof.
  induction actions as [|a actions IH]; intros hm file Hns; [reflexivity|].
  apply Forall_cons in Hns as [Ha Hns]. simpl.
  destruct (hm_destroyed hm); [reflexivity|].
  pose proof (do_action_file a hm file Ha) as Hfile.
  destruct (do_action a hm file) as [[hm1 file1] es1]. simpl in Hfile. subst file1.
  specialize (IH hm1 file Hns).
  destruct (wait_window actions hm1 file) as [[hm2 file2] es2]. exact IH.
Qed.

(** X15: the host manager edits the dictionary of the main window itself,
    but when it closes the list is read again from the file: after a
    session in which every click on Save and Close, if there is one, has
    failed at [open] - whatever was added or removed in it - the file is
    what it was and the main window shows what a refresh from that file
    gives; the edits are gone. *)
Theorem unsaved_edits_are_dropped (actions : list action) (w : MainWindow)
    (file : machine_list_file) :
  never_saved actions ->
  let '(r, w', file', es) := open_host_manager actions w file in
  file' = file /\
  r = fst (fst (refresh_machine_list file w)) /\
  w' = snd (fst (refresh_machine_list file w)).
Proof.
  intros Hns. unfold open_host_manager.
  pose proof (wait_window_never_saved actions (HostManager_init (w_machine_vars w))
                file Hns) as Hfile.
  destruct (wait_window actions _ file) as [[hm file'] es]. simpl in Hfile. subst file'.
  change (refresh_machine_list file
            (mk_window (hm_machine_vars hm) (w_loaded_machines w) (w_checkbuttons w)))
    with (refresh_machine_list file w).
  destruct (refresh_machine_list file w) as [[r w'] es']. auto.
Qed.

Lemma unsaved_edits_are_dropped_witness :
  let '(r, w', file', es) :=
    open_host_manager
      (add_lab2 ++ [ClickSaveAndClose (Some (OpenRaises PermissionError));
                    ClickRemoveSelected [0%nat]; CloseWindow])
      lab_window lab_file in
  file' = lab_file /\
  r = fst (fst (refresh_machine_list lab_file lab_window)) /\
  w' = snd (fst (refresh_machine_list lab_file lab_window)).
Proof.
  apply (unsaved_edits_are_dropped
           (add_lab2 ++ [ClickSaveAndClose (Some (OpenRaises PermissionError));
                         ClickRemoveSelected [0%nat]; CloseWindow])
           lab_window lab_file).
  repeat constructor.
Defined.

(** A save that fails after the file was opened leaves a file that cannot
    be read: the window stays open with its edits, and once it is closed
    the main window shows no machine at all. *)
Example failed_write_loses_the_list :
  open_host_manager
    (add_lab2 ++ [ClickSaveAndClose (Some (WriteRaises OSError false)); CloseWindow])
    lab_window lab_file =
  (None, mk_window [] [] [], None,
   [LogFailedToSave OSError; ShowErrorFailedToSave OSError; LogFailedToLoad]).
Proof. reflexivity. Qed.

Lemma do_action_NoDup a hm file :
  NoDup (names (hm_machine_vars hm)) ->
  NoDup (names (hm_machine_vars (fst (fst (do_action a hm file))))).
Proof.
  intros Hnd. destruct a as [text|text|text| |sel|fault|]; simpl; try exact Hnd.
  - unfold add_host. destruct (_ || _); [exact Hnd|].
    destruct (dict_mem _ _); [exact Hnd|]. simpl. apply NoDup_names_dict_set, Hnd.
  - destruct sel as [|i sel]; [exact Hnd|]. simpl.
    destruct (dict_mem _ _); [apply NoDup_names_dict_del|]; exact Hnd.
  - unfold save_and_close. destruct (hm_modified hm); [destruct fault|]; exact Hnd.
Qed.

Lemma wait_window_NoDup actions : forall hm file,
  NoDup (names (hm_machine_vars hm)) ->
  NoDup (names (hm_machine_vars (fst (fst (wait_window actions hm file))))).
Proof.
  induction actions as [|a actions IH]; intros hm file Hnd; [exact Hnd|].
  simpl. destruct (hm_destroyed hm); [exact Hnd|].
  pose proof (do_action_NoDup a hm file Hnd) as Hnd1.
  destruct (do_action a hm file) as [[hm1 file1] es1]. simpl in Hnd1.
  specialize (IH hm1 file1 Hnd1).
  destruct (wait_window actions hm1 file1) as [[hm2 file2] es2]. exact IH.
Qed.

Lemma wait_window_app edits : forall rest hm file hm1 file1 es1,
  wait_window edits hm file = (hm1, file1, es1) ->
  hm_destroyed hm1 = false ->
  wait_window (edits ++ rest) hm file =
  (fst (fst (wait_window rest hm1 file1)), snd (fst (wait_window rest hm1 file1)),
   es1 ++ snd (wait_window rest hm1 file1)).
Proof.
  induction edits as [|a edits IH]; intros rest hm file hm1 file1 es1 Hrun Hopen.
  - injection Hrun as <- <- <-. simpl.
    destruct (wait_window rest hm file) as [[hm2 file2] es2]. reflexivity.
  - simpl in *. destruct (hm_destroyed hm) eqn:Hd.
    + injection Hrun as <- <- <-. congruence.
    + destruct (do_action a hm file) as [[hm' file'] es'].
      destruct (wait_window edits hm' file') as [[hm2 file2] es2] eqn:Hrest.
      injection Hrun as <- <- <-.
      rewrite (IH rest hm' file' hm2 file2 es2 Hrest Hopen).
      rewrite app_assoc. reflexivity.
Qed.

(** X16: a session that ends with a successful save: when the edits have
    left the window open and marked modified, a click on Save and Close
    writes the edited dictionary, and the main window then shows exactly
    the hosts of the host manager, in their order, all of them unchecked -
    also those that were checked before the host manager was opened. *)
Theorem saved_edits_are_shown (edits : list action) (w : MainWindow)
    (file : machine_list_file) hm1 file1 es1 :
  NoDup (names (w_machine_vars w)) ->
  wait_window edits (HostManager_init (w_machine_vars w)) file = (hm1, file1, es1) ->
  hm_destroyed hm1 = false ->
  hm_modified hm1 = true ->
  open_host_manager (edits ++ [ClickSaveAndClose None]) w file =
  (None,
   mk_window (map unchecked (hm_machine_vars hm1))
             (map json_of_host (hm_machine_vars hm1))
             (map checkbutton_text (hm_machine_vars hm1)),
   Some (map json_of_host (hm_machine_vars hm1)),
   es1 ++ [LogUpdatedMachineList]).
Proof.
  intros Hnd Hrun Hopen Hmod.
  pose proof (wait_window_NoDup edits (HostManager_init (w_machine_vars w)) file Hnd)
    as Hnd1.
  rewrite Hrun in Hnd1. simpl in Hnd1.
  unfold open_host_manager.
  rewrite (wait_window_app edits [ClickSaveAndClose None] _ file hm1 file1 es1 Hrun Hopen).
  simpl. rewrite Hopen. unfold save_and_close. rewrite Hmod. simpl.
  unfold refresh_machine_list.
  rewrite (add_machines_of_hosts (hm_machine_vars hm1) [] _ []) by exact Hnd1.
  rewrite app_nil_r. reflexivity.
Qed.

Lemma saved_edits_are_shown_witness :
  open_host_manager (add_lab2 ++ [ClickSaveAndClose None]) lab_window lab_file =
  (None,
   mk_window
     [mk_host "lab1" false "/mnt/lab1" "local"; mk_host "nas" false "//nas/share" "smb";
      mk_host "lab2" false "/mnt/lab2" "smb"]
     (map json_of_host (lab_hosts ++ [mk_host "lab2" false "/mnt/lab2" "smb"]))
     (map checkbutton_text (lab_hosts ++ [mk_host "lab2" false "/mnt/lab2" "smb"])),
   Some (map json_of_host (lab_hosts ++ [mk_host "lab2" false "/mnt/lab2" "smb"])),
   [LogUpdatedMachineList]).
Proof.
  refine (saved_edits_are_shown add_lab2 lab_window lab_file
            (fst (fst (wait_window add_lab2 (HostManager_init lab_hosts) lab_file)))
            lab_file [] _ eq_refl eq_refl eq_refl).
  apply (bool_decide_unpack _). vm_compute. exact I.
Defined.
